(** * stdiocmd: a message server over a decoder and an encoder

    A model of [stdiocmd.go]: the [Serve] loop of [MessageServer], the
    goroutines it starts, [SyncEncoder] and [Wait], as an interleaving
    semantics driven by a schedule.  Every atomic action of the program
    (a [Decode] call, [wg.Add], a [go] statement, one write of the
    underlying encoder, [mu.Lock], a deferred call, ...) is one step of
    the thread that performs it. *)

From Stdlib Require Import ZArith List Bool Lia Strings.Byte.
From stdpp Require Import base option list strings gmap.

Local Open Scope Z_scope.

(** ** Data *)

(** The values an [interface{}] of a [Message] holds. *)
Inductive Value :=
| VNil
| VBool (b : bool)
| VNum (n : Z)
| VStr (s : string).

(** [type Message map[string]interface{}] *)
Abbreviation Message := (gmap string Value).

(** Go's [error] values.  [io.EOF] and [io.ErrUnexpectedEOF] are the two
    sentinels [Serve] compares with; [nil] is [None]. *)
Inductive GoError :=
| EOF
| ErrUnexpectedEOF
| ErrOther (what : string).

Abbreviation error := (option GoError).

(** The value [recover()] returns in a panicking goroutine.  It is never
    [nil]: [panic(nil)] is recovered as a [*runtime.PanicNilError], so
    the test [r != nil] of line 111 tells a panic from a return. *)
Inductive PanicValue :=
| Panicked (what : string).

(** [debug.Stack()] is the stack of the goroutine that calls it. *)
Inductive StackTrace :=
| StackOf (goroutine : nat).

Definition debug_Stack (goroutine : nat) : StackTrace := StackOf goroutine.

(** What [log.Printf] received, lines 104 and 113. *)
Inductive LogEntry :=
| LogDecodeError (err : GoError)
| LogPanic (r : PanicValue) (st : StackTrace).

(** ** The interfaces *)

(** [Decoder].  [Serve] is the only caller of [InDecoder.Decode] and
    passes a fresh empty [msg] each time, so a decoder on a given input
    is the sequence of its results: call number [n] (from 0) leaves
    [fst (d n)] in [msg] and returns [snd (d n)]. *)
Definition Decoder := nat -> Message * error.

(** How a call of the underlying [Encoder.Encode] ends. *)
Inductive EncodeOutcome :=
| EncReturn (err : error)
| EncPanic (r : PanicValue).

(** The underlying stream encoder ([json.NewEncoder(w)]): the bytes one
    [Encode(m)] writes to the stream, each write a step of its own, and
    how the call ends. *)
Definition StreamEncoder := Message -> list byte * EncodeOutcome.

(** [SyncEncoder]: the wrapped encoder; its [mu] is mutable and lives in
    the state. *)
Record SyncEncoder := { se_Encoder : StreamEncoder }.

(** The implementations of [Encoder] a server is built with. *)
Inductive Encoder :=
| EncStream (e : StreamEncoder)
| EncSync (se : SyncEncoder).

(** [EncoderMessageWriter] *)
Record EncoderMessageWriter := { emw_Encoder : Encoder }.

(** Functions deferred by the goroutine of line 108. *)
Inductive Deferred :=
| DeferWgDone      (* line 109: defer ms.wg.Done() *)
| DeferRecover.    (* lines 110-115 *)

(** Deferred calls run last-in first-out. *)
Definition goroutine_defers : list Deferred := [DeferRecover; DeferWgDone].

(** Ways the process dies: a panic nobody recovered, and the panics and
    fatal errors of [sync]. *)
Inductive Fatal :=
| FatalPanic (r : PanicValue)
| FatalNegativeWaitGroup     (* sync: negative WaitGroup counter *)
| FatalWaitGroupReused       (* sync: WaitGroup is reused before previous
                                Wait has returned *)
| FatalUnlockOfUnlocked.     (* sync: unlock of unlocked mutex *)

Section Model.

(** State of the handler's own that its invocations share (the [n] and
    [inMessages] of the test). *)
Context {HS : Type}.

(** The body of a handler invocation, as far as the server sees it: it
    returns, panics, never returns, calls [w.WriteMessage(m)] and goes on
    with the error that call returns, or reads and updates its own state
    ([HAtomic f k] stores [f h] and goes on as [k h], for [h] the state
    it found). *)
Inductive HandlerBody :=
| HReturn
| HPanic (r : PanicValue)
| HBlocked
| HAtomic (f : HS -> HS) (k : HS -> HandlerBody)
| HWriteMessage (m : Message) (k : error -> HandlerBody).

(** [MessageHandlerFunc], with [w] the writer of the invocation. *)
Definition MessageHandlerFunc := Message -> HandlerBody.

(** [MessageHandlerFunc.HandleMessage], line 64. *)
Definition HandleMessage (f : MessageHandlerFunc) (m : Message)
    : HandlerBody :=
  f m.

(** [MessageServer]; the [wg] field is in the state. *)
Record MessageServer := {
  InDecoder : Decoder;
  OutEncoder : Encoder;
  MessageHandler : MessageHandlerFunc
}.

(** [NewStdMessageServer], given the decoder of [os.Stdin] and the
    encoder of [os.Stdout]. *)
Definition NewStdMessageServer (stdin : Decoder) (stdout : StreamEncoder)
    (h : MessageHandlerFunc) : MessageServer :=
  {| InDecoder := stdin;
     OutEncoder := EncSync {| se_Encoder := stdout |};
     MessageHandler := h |}.

(** ** Threads *)

(** Where the goroutine of lines 108-117 is. *)
Inductive GoroutinePC :=
| GHandle (p : HandlerBody)
    (* line 116, in mh.HandleMessage *)
| GLock (se : SyncEncoder) (m : Message) (k : error -> HandlerBody)
    (* line 48, at se.mu.Lock() *)
| GEncode (locked : bool) (rest : list byte) (o : EncodeOutcome)
    (k : error -> HandlerBody)
    (* in the underlying Encode, [rest] still to write;
       [locked]: called from line 50 *)
| GUnlock (o : EncodeOutcome) (k : error -> HandlerBody)
    (* line 49, the deferred se.mu.Unlock() *)
| GUnwind (panicking : option PanicValue) (defers : list Deferred)
    (* the handler is over, deferred calls run *)
| GExited.

Record Goroutine := {
  g_mw : EncoderMessageWriter;
  g_msg : Message;
  g_pc : GoroutinePC
}.

(** Where [Serve] is. *)
Inductive ServePC :=
| PCDecode                                         (* lines 97-99 *)
| PCAdd (mw : EncoderMessageWriter) (msg : Message) (* line 107 *)
| PCGo (mw : EncoderMessageWriter) (msg : Message)  (* line 108 *)
| PCReturned (reterr : error).                      (* line 120 *)

(** Where a caller of [Wait] is: it has not called yet, it sleeps until
    the counter gets to zero, it has been released and is about to look
    at the counter again, it has returned. *)
Inductive WaitPC :=
| WaitNotCalled
| WaitBlocked
| WaitWoken
| WaitReturned.

Record State := {
  decoded : nat;                 (* Decode calls made so far *)
  out : list byte;               (* the output stream *)
  mu : bool;                     (* SyncEncoder.mu is locked *)
  wg : Z;                        (* counter of MessageServer.wg *)
  logged : list LogEntry;
  hstate : HS;
  serve : ServePC;
  goroutines : list Goroutine;   (* in the order of their go statements *)
  waiter : WaitPC;
  crashed : option Fatal
}.

Definition initial (h0 : HS) : State :=
  {| decoded := 0; out := []; mu := false; wg := 0; logged := [];
     hstate := h0; serve := PCDecode; goroutines := [];
     waiter := WaitNotCalled; crashed := None |}.

(** Field updates. *)
Definition set_decoded (n : nat) (s : State) : State :=
  {| decoded := n; out := out s; mu := mu s; wg := wg s;
     logged := logged s; hstate := hstate s; serve := serve s;
     goroutines := goroutines s; waiter := waiter s; crashed := crashed s |}.

Definition set_out (o : list byte) (s : State) : State :=
  {| decoded := decoded s; out := o; mu := mu s; wg := wg s;
     logged := logged s; hstate := hstate s; serve := serve s;
     goroutines := goroutines s; waiter := waiter s; crashed := crashed s |}.

Definition set_mu (b : bool) (s : State) : State :=
  {| decoded := decoded s; out := out s; mu := b; wg := wg s;
     logged := logged s; hstate := hstate s; serve := serve s;
     goroutines := goroutines s; waiter := waiter s; crashed := crashed s |}.

Definition set_wg (n : Z) (s : State) : State :=
  {| decoded := decoded s; out := out s; mu := mu s; wg := n;
     logged := logged s; hstate := hstate s; serve := serve s;
     goroutines := goroutines s; waiter := waiter s; crashed := crashed s |}.

Definition set_logged (l : list LogEntry) (s : State) : State :=
  {| decoded := decoded s; out := out s; mu := mu s; wg := wg s;
     logged := l; hstate := hstate s; serve := serve s;
     goroutines := goroutines s; waiter := waiter s; crashed := crashed s |}.

Definition set_hstate (h : HS) (s : State) : State :=
  {| decoded := decoded s; out := out s; mu := mu s; wg := wg s;
     logged := logged s; hstate := h; serve := serve s;
     goroutines := goroutines s; waiter := waiter s; crashed := crashed s |}.

Definition set_serve (pc : ServePC) (s : State) : State :=
  {| decoded := decoded s; out := out s; mu := mu s; wg := wg s;
     logged := logged s; hstate := hstate s; serve := pc;
     goroutines := goroutines s; waiter := waiter s; crashed := crashed s |}.

Definition set_goroutines (gs : list Goroutine) (s : State) : State :=
  {| decoded := decoded s; out := out s; mu := mu s; wg := wg s;
     logged := logged s; hstate := hstate s; serve := serve s;
     goroutines := gs; waiter := waiter s; crashed := crashed s |}.

Definition set_waiter (w : WaitPC) (s : State) : State :=
  {| decoded := decoded s; out := out s; mu := mu s; wg := wg s;
     logged := logged s; hstate := hstate s; serve := serve s;
     goroutines := goroutines s; waiter := w; crashed := crashed s |}.

Definition set_crashed (f : Fatal) (s : State) : State :=
  {| decoded := decoded s; out := out s; mu := mu s; wg := wg s;
     logged := logged s; hstate := hstate s; serve := serve s;
     goroutines := goroutines s; waiter := waiter s; crashed := Some f |}.

(** Goroutine [i], which is [g], moves to [pc]. *)
Definition with_pc (g : Goroutine) (pc : GoroutinePC) : Goroutine :=
  {| g_mw := g_mw g; g_msg := g_msg g; g_pc := pc |}.

Definition set_pc (i : nat) (g : Goroutine) (pc : GoroutinePC) (s : State)
    : State :=
  set_goroutines (<[i := with_pc g pc]> (goroutines s)) s.

(** ** [sync.WaitGroup] *)

(** The counter of [ms.wg] is [wg]; the state keeps one caller of
    [Wait].

    [wg.Add(delta)], and [wg.Done()], which is [wg.Add(-1)]: the counter
    moves by [delta]; a negative counter is a panic; when the counter
    gets to zero the goroutines blocked in [Wait] are released. *)
Definition wg_Add (delta : Z) (s : State) : State :=
  let v := wg s + delta in
  if v <? 0 then set_crashed FatalNegativeWaitGroup s
  else if v =? 0 then
         match waiter s with
         | WaitBlocked => set_waiter WaitWoken (set_wg v s)
         | _ => set_wg v s
         end
       else set_wg v s.

(** [wg.Wait()]: with the counter at zero it returns at once, otherwise
    it sleeps until it is released; a caller that is released and finds
    the counter off zero again panics ([WaitGroup is reused before
    previous Wait has returned]): an [Add] that starts from a counter at
    zero has to come before the [Wait] or after its return. *)
Definition wg_Wait (s : State) : option State :=
  match waiter s with
  | WaitNotCalled =>
      if wg s =? 0 then Some (set_waiter WaitReturned s)
      else Some (set_waiter WaitBlocked s)
  | WaitBlocked => None
  | WaitWoken =>
      if wg s =? 0 then Some (set_waiter WaitReturned s)
      else Some (set_crashed FatalWaitGroupReused s)
  | WaitReturned => None
  end.

(** ** [Serve], lines 94-121 *)

(** [err == io.EOF || err == io.ErrUnexpectedEOF] *)
Definition stream_ended (err : error) : bool :=
  match err with
  | Some EOF | Some ErrUnexpectedEOF => true
  | _ => false
  end.

Definition step_serve (ms : MessageServer) (s : State) : option State :=
  match serve s with
  | PCDecode =>
      let mw := {| emw_Encoder := OutEncoder ms |} in
      let '(msg, err) := InDecoder ms (decoded s) in
      let s := set_decoded (S (decoded s)) s in
      if stream_ended err then Some (set_serve (PCReturned err) s)
      else match err with
           | Some e => Some (set_logged (logged s ++ [LogDecodeError e]) s)
           | None => Some (set_serve (PCAdd mw msg) s)
           end
  | PCAdd mw msg => Some (set_serve (PCGo mw msg) (wg_Add 1 s))
  | PCGo mw msg =>
      let g := {| g_mw := mw; g_msg := msg;
                  g_pc := GHandle (HandleMessage (MessageHandler ms) msg) |} in
      Some (set_serve PCDecode (set_goroutines (goroutines s ++ [g]) s))
  | PCReturned _ => None
  end.

(** ** The writers *)

(** Where a call of the underlying encoder ends up. *)
Definition deliver (o : EncodeOutcome) (k : error -> HandlerBody)
    : GoroutinePC :=
  match o with
  | EncReturn err => GHandle (k err)
  | EncPanic r => GUnwind (Some r) goroutine_defers
  end.

(** Entering [e.Encode(m)]; [k] is what the caller does with the error. *)
Definition Encode (e : Encoder) (m : Message) (k : error -> HandlerBody)
    : GoroutinePC :=
  match e with
  | EncStream enc => GEncode false (fst (enc m)) (snd (enc m)) k
  | EncSync se => GLock se m k
  end.

(** [EncoderMessageWriter.WriteMessage], line 28. *)
Definition WriteMessage (emw : EncoderMessageWriter) (m : Message)
    (k : error -> HandlerBody) : GoroutinePC :=
  Encode (emw_Encoder emw) m k.

(** ** The goroutine of lines 108-117 *)

Definition step_goroutine (i : nat) (s : State) : option State :=
  g ← goroutines s !! i;
  match g_pc g with
  | GHandle HReturn => Some (set_pc i g (GUnwind None goroutine_defers) s)
  | GHandle (HPanic r) =>
      Some (set_pc i g (GUnwind (Some r) goroutine_defers) s)
  | GHandle HBlocked => None
  | GHandle (HAtomic f k) =>
      Some (set_pc i g (GHandle (k (hstate s))) (set_hstate (f (hstate s)) s))
  | GHandle (HWriteMessage m k) => Some (set_pc i g (WriteMessage (g_mw g) m k) s)
  | GLock se m k =>
      if mu s then None
      else Some (set_pc i g
                   (GEncode true (fst (se_Encoder se m)) (snd (se_Encoder se m)) k)
                   (set_mu true s))
  | GEncode locked (b :: rest) o k =>
      Some (set_pc i g (GEncode locked rest o k) (set_out (out s ++ [b]) s))
  | GEncode true [] o k => Some (set_pc i g (GUnlock o k) s)
  | GEncode false [] o k => Some (set_pc i g (deliver o k) s)
  | GUnlock o k =>
      if mu s then Some (set_pc i g (deliver o k) (set_mu false s))
      else Some (set_crashed FatalUnlockOfUnlocked s)
  | GUnwind panicking (DeferRecover :: ds) =>
      match panicking with
      | Some r =>
          Some (set_pc i g (GUnwind None ds)
                  (set_logged (logged s ++ [LogPanic r (debug_Stack i)]) s))
      | None => Some (set_pc i g (GUnwind None ds) s)
      end
  | GUnwind panicking (DeferWgDone :: ds) =>
      (* ms.wg.Done(); its panic has no deferred call left to stop at *)
      if wg s - 1 <? 0 then Some (wg_Add (-1) s)
      else Some (set_pc i g (GUnwind panicking ds) (wg_Add (-1) s))
  | GUnwind (Some r) [] => Some (set_crashed (FatalPanic r) s)
  | GUnwind None [] => Some (set_pc i g GExited s)
  | GExited => None
  end.

(** ** [Wait], lines 89-91 *)

Definition step_wait (s : State) : option State := wg_Wait s.

(** ** The process *)

Inductive Tid :=
| TServe
| TGo (i : nat)
| TWait.

(** One step of thread [t]; [None] when [t] cannot move (it is over, it
    is blocked, or the process is dead). *)
Definition step (ms : MessageServer) (t : Tid) (s : State) : option State :=
  match crashed s with
  | Some _ => None
  | None =>
      match t with
      | TServe => step_serve ms s
      | TGo i => step_goroutine i s
      | TWait => step_wait s
      end
  end.

(** A schedule is the list of the threads that move, first to last. *)
Fixpoint run (ms : MessageServer) (sched : list Tid) (s : State)
    : option State :=
  match sched with
  | [] => Some s
  | t :: sched' =>
      match step ms t s with
      | Some s' => run ms sched' s'
      | None => None
      end
  end.

Definition reachable (ms : MessageServer) (h0 : HS) (s : State) : Prop :=
  exists sched, run ms sched (initial h0) = Some s.

End Model.

Arguments HandlerBody : clear implicits.
Arguments MessageHandlerFunc : clear implicits.
Arguments MessageServer : clear implicits.
Arguments GoroutinePC : clear implicits.
Arguments Goroutine : clear implicits.
Arguments State : clear implicits.

(** ** What the claims speak of *)

Section Observations.

Context {HS : Type}.

(** Calls of [wg.Done()] a goroutine still has to make. *)
Fixpoint count_done (ds : list Deferred) : Z :=
  match ds with
  | [] => 0
  | DeferWgDone :: ds' => 1 + count_done ds'
  | DeferRecover :: ds' => count_done ds'
  end.

Definition owes (g : Goroutine HS) : Z :=
  match g_pc g with
  | GUnwind _ ds => count_done ds
  | GExited => 0
  | _ => 1
  end.

(** The goroutines in flight: started, [wg.Done()] not yet called. *)
Fixpoint in_flight (gs : list (Goroutine HS)) : Z :=
  match gs with
  | [] => 0
  | g :: gs' => owes g + in_flight gs'
  end.

(** [wg.Add(1)] of line 107 is made, the [go] of line 108 is not. *)
Definition about_to_go (pc : ServePC) : Z :=
  match pc with
  | PCGo _ _ => 1
  | _ => 0
  end.

(** [mh.HandleMessage] of line 116 is over (it returned or panicked). *)
Definition handler_over (g : Goroutine HS) : bool :=
  match g_pc g with
  | GUnwind _ _ | GExited => true
  | _ => false
  end.

(** The goroutine is inside the underlying encoder's [Encode]. *)
Definition encoding (g : Goroutine HS) : bool :=
  match g_pc g with
  | GEncode _ _ _ _ => true
  | _ => false
  end.

(** The goroutine has locked [mu] and not yet unlocked it. *)
Definition holds_mu (g : Goroutine HS) : bool :=
  match g_pc g with
  | GEncode true _ _ _ | GUnlock _ _ => true
  | _ => false
  end.

(** Bytes the [Encode] calls in progress have still to write. *)
Definition unwritten (g : Goroutine HS) : list byte :=
  match g_pc g with
  | GEncode _ rest _ _ => rest
  | _ => []
  end.

Definition pending (s : State HS) : list byte :=
  flat_map unwritten (goroutines s).

(** The stream encoder a server writes with. *)
Definition stream_encoder (e : Encoder) : StreamEncoder :=
  match e with
  | EncStream enc => enc
  | EncSync se => se_Encoder se
  end.

(** The serializations of [msgs], one after the other. *)
Definition serialized (enc : StreamEncoder) (msgs : list Message)
    : list byte :=
  flat_map (fun m => fst (enc m)) msgs.

(** No two goroutines are inside the underlying [Encode] at once. *)
Definition one_encode_at_a_time (s : State HS) : Prop :=
  forall i j gi gj,
    goroutines s !! i = Some gi -> goroutines s !! j = Some gj ->
    encoding gi = true -> encoding gj = true -> i = j.

(** The output stream is made of whole serializations, the last one up
    to what the [Encode] in progress has still to write. *)
Definition never_interleaved (ms : MessageServer HS) (s : State HS) : Prop :=
  exists msgs,
    out s ++ pending s = serialized (stream_encoder (OutEncoder ms)) msgs.

(** The message of a result that came without an error. *)
Definition ok_message (r : Message * error) : option Message :=
  match snd r with
  | None => Some (fst r)
  | Some _ => None
  end.

(** The messages of the first [n] results of the decoder that came
    without an error, in order. *)
Definition decoded_ok (d : Decoder) (n : nat) : list Message :=
  omap (fun k => ok_message (d k)) (seq 0 n).

(** What [Serve] logs for a result: the error, unless it is [nil] or
    ends the stream. *)
Definition error_entry (r : Message * error) : option LogEntry :=
  match snd r with
  | Some e => if stream_ended (Some e) then None else Some (LogDecodeError e)
  | None => None
  end.

(** The errors of the first [n] results that [Serve] logs, in order. *)
Definition decode_errors (d : Decoder) (n : nat) : list LogEntry :=
  omap (fun k => error_entry (d k)) (seq 0 n).

(** The entries of line 104 in a log. *)
Definition decode_log (l : list LogEntry) : list LogEntry :=
  omap (fun e => match e with
                 | LogDecodeError _ => Some e
                 | LogPanic _ _ => None
                 end) l.

(** The messages [Serve] has started a goroutine for, in order. *)
Definition dispatched (s : State HS) : list Message :=
  map g_msg (goroutines s).

(** The decoder gives [n] results that do not end the stream, then one
    that does. *)
Definition ends_at (d : Decoder) (n : nat) : Prop :=
  (forall k, (k < n)%nat -> stream_ended (snd (d k)) = false) /\
  stream_ended (snd (d n)) = true.

(** The first results of the decoder are [rs]. *)
Definition reads (d : Decoder) (rs : list (Message * error)) : Prop :=
  forall k r, rs !! k = Some r -> d k = r.

(** The result of decoding a well-formed message. *)
Definition well_formed (m : Message) : Message * error := (m, None).

(** The decoder gives the messages [msgs], all well formed, then
    [io.EOF]. *)
Definition well_formed_stream (d : Decoder) (msgs : list Message) : Prop :=
  reads d (well_formed <$> msgs) /\ snd (d (length msgs)) = Some EOF.

(** The same with one malformed message in it: [Decode] leaves [partial]
    in [msg] and returns [e]. *)
Definition one_malformed_stream (d : Decoder) (before : list Message)
    (partial : Message) (e : GoError) (after : list Message) : Prop :=
  reads d ((well_formed <$> before) ++ (partial, Some e) ::
           (well_formed <$> after)) /\
  snd (d (length before + 1 + length after)%nat) = Some EOF.

(** What the loop of [Serve] has done, in four observations. *)
Definition loop_view (s : State HS)
    : ServePC * nat * list Message * list LogEntry :=
  (serve s, decoded s, dispatched s, decode_log (logged s)).

(** The steps of [Serve] in a schedule. *)
Definition serve_only (sched : list Tid) : list Tid :=
  omap (fun t => match t with TServe => Some TServe | _ => None end) sched.

(** [s'] is [s] but for the output, [mu] and the goroutines. *)
Definition same_but_writes (s s' : State HS) : Prop :=
  decoded s' = decoded s /\ wg s' = wg s /\ logged s' = logged s /\
  hstate s' = hstate s /\ serve s' = serve s /\ waiter s' = waiter s /\
  crashed s' = crashed s.

(** The caller of [Wait] once the counter is [v]. *)
Definition released (v : Z) (w : WaitPC) : WaitPC :=
  if v =? 0 then match w with WaitBlocked => WaitWoken | _ => w end else w.

(** [Wait] is not called before [Serve] has returned. *)
Definition call_allowed (t : Tid) (s : State HS) : bool :=
  match t, waiter s, serve s with
  | TWait, WaitNotCalled, PCReturned _ => true
  | TWait, WaitNotCalled, _ => false
  | _, _, _ => true
  end.

Fixpoint waits_after_return (ms : MessageServer HS) (sched : list Tid)
    (s : State HS) : bool :=
  match sched with
  | [] => true
  | t :: sched' =>
      call_allowed t s &&
      match step ms t s with
      | Some s' => waits_after_return ms sched' s'
      | None => true
      end
  end.

(** The schedule can be run from [s]: no thread in it is asked to move
    when it cannot. *)
Definition runs (ms : MessageServer HS) (sched : list Tid) (s : State HS)
    : bool :=
  match run ms sched s with
  | Some _ => true
  | None => false
  end.

(** The state the schedule leads to from the initial one. *)
Definition after (ms : MessageServer HS) (h0 : HS) (sched : list Tid)
    : State HS :=
  default (initial h0) (run ms sched (initial h0)).

(** No caller of [Wait] moves. *)
Definition no_wait (sched : list Tid) : bool :=
  forallb (fun t => match t with TWait => false | _ => true end) sched.

(** The goroutine is at line 116 and has not moved: the handler function
    is about to run on the message the goroutine was started for. *)
Definition calls_handler (ms : MessageServer HS) (g : Goroutine HS) : Prop :=
  g_pc g = GHandle (MessageHandler ms (g_msg g)).

(** [q] is [p], or what is left of [p] once some of it has run. *)
Fixpoint continues (p q : HandlerBody HS) : Prop :=
  q = p \/
  match p with
  | HAtomic _ k => exists h, continues (k h) q
  | HWriteMessage _ k => exists err, continues (k err) q
  | _ => False
  end.

(** The goroutine at [pc] is inside the one call of a handler whose body
    is [p], or that call is over. *)
Definition in_call (p : HandlerBody HS) (pc : GoroutinePC HS) : Prop :=
  match pc with
  | GHandle q => continues p q
  | GLock _ m k => continues p (HWriteMessage m k)
  | GEncode _ _ _ k | GUnlock _ k =>
      exists m, continues p (HWriteMessage m k)
  | GUnwind _ _ | GExited => True
  end.

(** Results [Serve] has read and not yet put away: the message it is
    about to start a goroutine for, or the error it returns. *)
Definition in_hand (pc : ServePC) : nat :=
  match pc with
  | PCDecode => 0
  | PCAdd _ _ | PCGo _ _ | PCReturned _ => 1
  end.

(** What the deferred [recover] of goroutine [i] logs, after a handler
    that ended with [p]. *)
Definition panic_log (i : nat) (p : option PanicValue) : list LogEntry :=
  match p with
  | Some r => [LogPanic r (debug_Stack i)]
  | None => []
  end.

(** A handler body run from handler state [h] with nothing in between,
    its writes going to [enc]: the bytes written, the handler state left
    and the panic it ended with, if any; [None] when it blocks for
    good. *)
Fixpoint alone (enc : StreamEncoder) (p : HandlerBody HS) (h : HS)
    : option (list byte * HS * option PanicValue) :=
  match p with
  | HReturn => Some ([], h, None)
  | HPanic r => Some ([], h, Some r)
  | HBlocked => None
  | HAtomic f k => alone enc (k h) (f h)
  | HWriteMessage m k =>
      match snd (enc m) with
      | EncReturn err =>
          match alone enc (k err) h with
          | Some (w, h', r) => Some (fst (enc m) ++ w, h', r)
          | None => None
          end
      | EncPanic r => Some (fst (enc m), h, Some r)
      end
  end.

(** The messages [msgs] handled one after the other, each handler to
    its end before the next starts, the first in goroutine [i]: the
    bytes written, the handler state left and the panics logged;
    [None] when a handler blocks for good. *)
Fixpoint handle_all (enc : StreamEncoder) (f : MessageHandlerFunc HS)
    (i : nat) (msgs : list Message) (h : HS)
    : option (list byte * HS * list LogEntry) :=
  match msgs with
  | [] => Some ([], h, [])
  | m :: msgs' =>
      match alone enc (HandleMessage f m) h with
      | Some (w, h1, r) =>
          match handle_all enc f (S i) msgs' h1 with
          | Some (w', h', l) => Some (w ++ w', h', panic_log i r ++ l)
          | None => None
          end
      | None => None
      end
  end.

(** A goroutine started and not yet run. *)
Definition fresh (ms : MessageServer HS) (g : Goroutine HS) : Prop :=
  g_pc g = GHandle (HandleMessage (MessageHandler ms) (g_msg g)).

(** Nothing but [Serve] has run. *)
Definition untouched (ms : MessageServer HS) (h0 : HS) (s : State HS)
    : Prop :=
  out s = [] /\ mu s = false /\ hstate s = h0 /\
  waiter s = WaitNotCalled /\ decode_log (logged s) = logged s /\
  forall (i : nat) g, goroutines s !! i = Some g -> fresh ms g.

(** The message thread [t] is to take the lock of a [SyncEncoder] for,
    when its next step is [se.mu.Lock()]. *)
Definition acquires (t : Tid) (s : State HS) : list Message :=
  match t with
  | TGo i =>
      match goroutines s !! i with
      | Some g =>
          match g_pc g with
          | GLock _ m _ => [m]
          | _ => []
          end
      | None => []
      end
  | _ => []
  end.

(** The messages of the [Encode] calls that took the lock along a run,
    in the order they took it. *)
Fixpoint lock_order (ms : MessageServer HS) (sched : list Tid)
    (s : State HS) : list Message :=
  match sched with
  | [] => []
  | t :: sched' =>
      match step ms t s with
      | Some s' => acquires t s ++ lock_order ms sched' s'
      | None => []
      end
  end.

(** ** Invariants of the reachable states *)

(** The deferred calls a goroutine has left: both, or the panic is
    recovered and [wg.Done()] alone or nothing is left. *)
Definition unwind_ok (g : Goroutine HS) : Prop :=
  match g_pc g with
  | GUnwind p ds =>
      ds = goroutine_defers \/ (p = None /\ (ds = [DeferWgDone] \/ ds = []))
  | _ => True
  end.

Definition writer_of (ms : MessageServer HS) : EncoderMessageWriter :=
  {| emw_Encoder := OutEncoder ms |}.

Definition serve_writer_ok (ms : MessageServer HS) (pc : ServePC) : Prop :=
  match pc with
  | PCAdd mw _ | PCGo mw _ => mw = writer_of ms
  | _ => True
  end.

Record invariant (ms : MessageServer HS) (s : State HS) : Prop := {
  inv_crash : forall f, crashed s = Some f -> f = FatalWaitGroupReused;
  inv_wg : wg s = in_flight (goroutines s) + about_to_go (serve s);
  inv_serve_mw : serve_writer_ok ms (serve s);
  inv_mw : forall i g, goroutines s !! i = Some g -> g_mw g = writer_of ms;
  inv_unwind : forall i g, goroutines s !! i = Some g -> unwind_ok g;
  inv_holder_mu :
    forall i g, goroutines s !! i = Some g -> holds_mu g = true ->
      mu s = true;
  inv_holder_unique :
    forall i j gi gj,
      goroutines s !! i = Some gi -> goroutines s !! j = Some gj ->
      holds_mu gi = true -> holds_mu gj = true -> i = j
}.

(** What [Serve] has done with the results it has read. *)
Definition serve_progress (ms : MessageServer HS) (s : State HS) : Prop :=
  let d := InDecoder ms in
  match serve s with
  | PCDecode =>
      (forall k, (k < decoded s)%nat -> stream_ended (snd (d k)) = false) /\
      dispatched s = decoded_ok d (decoded s)
  | PCAdd _ msg | PCGo _ msg =>
      (forall k, (k < decoded s)%nat -> stream_ended (snd (d k)) = false) /\
      exists k, decoded s = S k /\ d k = (msg, None) /\
                dispatched s = decoded_ok d k
  | PCReturned r =>
      exists k, decoded s = S k /\ snd (d k) = r /\
                stream_ended r = true /\
                (forall k', (k' < k)%nat -> stream_ended (snd (d k')) = false) /\
                dispatched s = decoded_ok d k
  end.

Record serve_invariant (ms : MessageServer HS) (s : State HS) : Prop := {
  sinv_progress : serve_progress ms s;
  sinv_log : decode_log (logged s) = decode_errors (InDecoder ms) (decoded s)
}.

(** With a [SyncEncoder] and [o] on the output stream: where a goroutine
    is in its write. *)
Definition write_ok (se : SyncEncoder) (o : list byte) (g : Goroutine HS)
    : Prop :=
  match g_pc g with
  | GLock se' _ _ => se' = se
  | GEncode locked rest _ _ =>
      locked = true /\
      exists msgs, o ++ rest = serialized (se_Encoder se) msgs
  | GUnlock _ _ => exists msgs, o = serialized (se_Encoder se) msgs
  | _ => True
  end.

Record sync_invariant (se : SyncEncoder) (s : State HS) : Prop := {
  sync_write :
    forall i g, goroutines s !! i = Some g -> write_ok se (out s) g;
  sync_whole :
    (forall i g, goroutines s !! i = Some g -> holds_mu g = false) ->
    exists msgs, out s = serialized (se_Encoder se) msgs
}.

(** When [Wait] is called after [Serve] has returned: the process lives,
    and a caller released or returned has the counter at zero for
    good. *)
Record drain_invariant (s : State HS) : Prop := {
  drain_alive : crashed s = None;
  drain_after_return :
    waiter s <> WaitNotCalled -> exists r, serve s = PCReturned r;
  drain_zero : waiter s = WaitWoken \/ waiter s = WaitReturned -> wg s = 0
}.

(** On a bare encoder nobody touches [mu]. *)
Definition lock_free (g : Goroutine HS) : Prop :=
  match g_pc g with
  | GLock _ _ _ | GEncode true _ _ _ | GUnlock _ _ => False
  | _ => True
  end.

Definition never_locks (s : State HS) : Prop :=
  mu s = false /\ forall i g, goroutines s !! i = Some g -> lock_free g.

End Observations.

(** ** Servers to run *)

Module Demo.

(** A stream encoder: a message with a [VNil] under the key [chan] is
    refused with an error and nothing is written, any other one is
    written as an opening brace, a closing brace and a newline, one
    write each. *)
Definition brace_encoder : StreamEncoder :=
  fun m =>
    match m !! "chan"%string with
    | Some VNil => ([], EncReturn (Some (ErrOther "unsupported type")))
    | _ => ([x7b; x7d; x0a], EncReturn None)
    end.

Definition in_test (n : Z) : Message := {[ "in_test"%string := VNum n ]}.

Definition bad_reply : Message := {[ "chan"%string := VNil ]}.

(** The input of the test: two messages, then the end of the stream. *)
Definition two_messages : Decoder :=
  fun n =>
    match n with
    | O => (in_test 1, None)
    | S O => (in_test 2, None)
    | _ => (∅, Some EOF)
    end.

(** A malformed message between the two. *)
Definition one_malformed : Decoder :=
  fun n =>
    match n with
    | O => (in_test 1, None)
    | S O => (in_test 7, Some (ErrOther "invalid character"))
    | S (S O) => (in_test 2, None)
    | _ => (∅, Some EOF)
    end.

(** A decoder that does not get past a malformed token. *)
Definition stuck : Decoder :=
  fun _ => (∅, Some (ErrOther "invalid character")).

(** The handler of the test: it numbers its replies. *)
Definition replying : MessageHandlerFunc nat :=
  fun _ =>
    HAtomic S (fun n =>
      HWriteMessage {[ "is_reply"%string := VNum (Z.of_nat n) ]}
        (fun _ => HReturn)).

(** On an error of its write a handler writes again, an empty message. *)
Definition retry (err : error) : HandlerBody nat :=
  match err with
  | Some _ => HWriteMessage ∅ (fun _ => HReturn)
  | None => HReturn
  end.

(** A handler that writes a message the encoder refuses, then a good
    one. *)
Definition retrying : MessageHandlerFunc nat :=
  fun _ => HWriteMessage bad_reply retry.

(** A handler that panics. *)
Definition panicking : MessageHandlerFunc nat :=
  fun _ => HPanic (Panicked "boom").

(** The server of the test: built directly, on a bare encoder. *)
Definition bare_server : MessageServer nat :=
  {| InDecoder := two_messages;
     OutEncoder := EncStream brace_encoder;
     MessageHandler := replying |}.

(** The same, and the others, built by [NewStdMessageServer]. *)
Definition std_server : MessageServer nat :=
  NewStdMessageServer two_messages brace_encoder replying.

Definition retrying_server : MessageServer nat :=
  NewStdMessageServer two_messages brace_encoder retrying.

Definition panicking_server : MessageServer nat :=
  NewStdMessageServer two_messages brace_encoder panicking.

Definition malformed_server : MessageServer nat :=
  NewStdMessageServer one_malformed brace_encoder replying.

Definition stuck_server : MessageServer nat :=
  NewStdMessageServer stuck brace_encoder replying.

(** [Serve] alone until it returns, on an input of two messages. *)
Definition serve_two : list Tid := repeat TServe 7.

(** Both goroutines inside [Encode] at once, their writes alternating. *)
Definition alternating : list Tid :=
  serve_two ++
  [TGo 0; TGo 1; TGo 0; TGo 1] ++          (* both enter Encode *)
  [TGo 0; TGo 1; TGo 0; TGo 1; TGo 0; TGo 1]%nat.

(** One handler invocation of [replying] on [std_server], up to its
    [wg.Done()]: its own state, the call of [WriteMessage], [mu.Lock()],
    three bytes, the end of [Encode], [mu.Unlock()], the return, the two
    deferred calls. *)
Definition reply (i : nat) : list Tid := repeat (TGo i) 11.

(** [Wait] called while [Serve] runs: after the first dispatch, and the
    second one comes before the caller has looked at the counter
    again. *)
Definition wait_during_serve : list Tid :=
  repeat TServe 3 ++ [TWait] ++ reply 0 ++ repeat TServe 2 ++ [TWait].

(** [Wait] called when [Serve] has returned. *)
Definition wait_after_serve : list Tid :=
  serve_two ++ [TWait] ++ reply 0 ++ reply 1 ++ [TWait].

(** An input cut in the middle of its second message. *)
Definition truncated : Decoder :=
  fun n =>
    match n with
    | O => (in_test 1, None)
    | _ => (in_test 2, Some ErrUnexpectedEOF)
    end.

(** No input at all. *)
Definition no_input : Decoder := fun _ => (∅, Some EOF).

(** A handler that never returns. *)
Definition blocking : MessageHandlerFunc nat := fun _ => HBlocked.

Definition truncated_server : MessageServer nat :=
  NewStdMessageServer truncated brace_encoder replying.

Definition empty_server : MessageServer nat :=
  NewStdMessageServer no_input brace_encoder replying.

Definition blocking_server : MessageServer nat :=
  NewStdMessageServer two_messages brace_encoder blocking.

End Demo.

(** * Proofs *)

(** Case analysis on the thread that moves. *)
Ltac step_cases H :=
  unfold step in H;
  match type of H with
  | context [crashed ?s] =>
      let Hal := fresh "Halive" in
      destruct (crashed s) eqn:Hal; [discriminate H|]
  end;
  match type of H with
  | (match ?t with TServe => _ | TGo _ => _ | TWait => _ end) = _ =>
      destruct t as [|i|]
  end.

(** Case analysis on where the goroutine that moves is. *)
Ltac inv_goroutine_step H :=
  let g := fresh "g" in let Hg := fresh "Hg" in let Hpc := fresh "Hpc" in
  unfold step_goroutine in H;
  match type of H with
  | context [goroutines ?s !! ?i] =>
      destruct (goroutines s !! i) as [g|] eqn:Hg; simpl in H; [|discriminate H]
  end;
  destruct (g_pc g) as [[| r | | f k | m k] | se' m k | [|] [|b rest] o k | o k
                       | [r|] [|[|] ds] | ] eqn:Hpc;
  try discriminate H.

Ltac unfold_obs Hpc :=
  unfold owes, holds_mu, unwind_ok, encoding, handler_over, unwritten,
    lock_free, WriteMessage, Encode, deliver, goroutine_defers, with_pc in *;
  simpl in *; rewrite ?Hpc in *; simpl in *.

(** Goroutine [i], at a known place, makes its step. *)
Ltac go_step Hal Hg Hpc :=
  unfold step, step_goroutine; rewrite Hal, Hg; simpl; rewrite ?Hpc;
  reflexivity.

Section Runs.

Context {HS : Type} (ms : MessageServer HS) (h0 : HS).

Implicit Types s : State HS.

Lemma run_app (a b : list Tid) s :
  run ms (a ++ b) s = run ms a s ≫= run ms b.
Proof.
  revert s. induction a as [|t a IH]; intros s; simpl; [done|].
  destruct (step ms t s); simpl; [apply IH | done].
Qed.

Lemma run_snoc (a : list Tid) (t : Tid) s s' :
  run ms (a ++ [t]) s = Some s' <->
  exists s1, run ms a s = Some s1 /\ step ms t s1 = Some s'.
Proof.
  rewrite run_app. split.
  - destruct (run ms a s) as [s1|]; simpl; [|done].
    intros H. exists s1. split; [done|].
    by destruct (step ms t s1).
  - intros (s1 & -> & H). simpl. by rewrite H.
Qed.

Lemma reachable_initial : reachable ms h0 (initial h0).
Proof. by exists []. Qed.

Lemma reachable_run (sched : list Tid) s s' :
  reachable ms h0 s -> run ms sched s = Some s' -> reachable ms h0 s'.
Proof.
  intros [a Ha] Hb. exists (a ++ sched). rewrite run_app, Ha. exact Hb.
Qed.

Lemma reachable_step (t : Tid) s s' :
  reachable ms h0 s -> step ms t s = Some s' -> reachable ms h0 s'.
Proof.
  intros Hs Ht. apply (reachable_run [t] s); [done|]. simpl. by rewrite Ht.
Qed.

(** Induction on the steps that lead to a state. *)
Lemma reachable_ind (P : State HS -> Prop) :
  P (initial h0) ->
  (forall t s s', reachable ms h0 s -> P s -> step ms t s = Some s' -> P s') ->
  forall s, reachable ms h0 s -> P s.
Proof.
  intros H0 Hstep s [sched Hrun]. revert s Hrun.
  induction sched as [|t sched IH] using rev_ind; intros s Hrun.
  - simpl in Hrun. by injection Hrun as <-.
  - apply run_snoc in Hrun as (s1 & Hrun & Ht).
    apply (Hstep t s1); [by exists sched | by apply IH | done].
Qed.

(** The state a schedule that can be run leads to. *)
Lemma after_run (sched : list Tid) :
  runs ms sched (initial h0) = true ->
  run ms sched (initial h0) = Some (after ms h0 sched).
Proof.
  unfold runs, after. by destruct (run ms sched (initial h0)).
Qed.

Lemma after_reachable (sched : list Tid) :
  runs ms sched (initial h0) = true ->
  reachable ms h0 (after ms h0 sched).
Proof. intros H. exists sched. by apply after_run. Qed.

End Runs.

(** ** Counting the goroutines in flight *)

Section Counting.
Context {HS : Type}.
Implicit Types (g : Goroutine HS) (gs : list (Goroutine HS)).

Lemma count_done_nonneg (ds : list Deferred) : 0 <= count_done ds.
Proof. induction ds as [|[] ds IH]; simpl; lia. Qed.

Lemma owes_nonneg g : 0 <= owes g.
Proof.
  unfold owes. destruct (g_pc g); try lia. apply count_done_nonneg.
Qed.

Lemma in_flight_nonneg gs : 0 <= in_flight gs.
Proof.
  induction gs as [|g gs IH]; simpl; [lia|]. pose proof (owes_nonneg g). lia.
Qed.

Lemma in_flight_app gs1 gs2 :
  in_flight (gs1 ++ gs2) = in_flight gs1 + in_flight gs2.
Proof. induction gs1 as [|g gs1 IH]; simpl; lia. Qed.

Lemma in_flight_insert gs (i : nat) g g' :
  gs !! i = Some g ->
  in_flight (<[i:=g']> gs) = in_flight gs - owes g + owes g'.
Proof.
  revert i. induction gs as [|g0 gs IH]; intros [|i] H; simpl in *;
    try discriminate.
  - injection H as ->. lia.
  - rewrite (IH i H). lia.
Qed.

Lemma in_flight_lookup gs (i : nat) g :
  gs !! i = Some g -> owes g <= in_flight gs.
Proof.
  revert i. induction gs as [|g0 gs IH]; intros [|i] H; simpl in *;
    try discriminate.
  - injection H as ->. pose proof (in_flight_nonneg gs). lia.
  - pose proof (IH i H). pose proof (owes_nonneg g0). lia.
Qed.

Lemma about_to_go_nonneg (pc : ServePC) : 0 <= about_to_go pc.
Proof. destruct pc; simpl; lia. Qed.

End Counting.

(** ** The counter of the [WaitGroup] *)

Section WaitGroup.

Context {HS : Type}.

Implicit Types s : State HS.

(** What [wg.Add] does not touch. *)
Lemma wg_Add_frame (delta : Z) s :
  decoded (wg_Add delta s) = decoded s /\
  out (wg_Add delta s) = out s /\ mu (wg_Add delta s) = mu s /\
  logged (wg_Add delta s) = logged s /\ hstate (wg_Add delta s) = hstate s /\
  serve (wg_Add delta s) = serve s /\
  goroutines (wg_Add delta s) = goroutines s.
Proof.
  unfold wg_Add. destruct (wg s + delta <? 0); [by repeat split|].
  destruct (wg s + delta =? 0); [|by repeat split]. by destruct (waiter s).
Qed.

(** [wg.Add] that leaves the counter at zero or above. *)
Lemma wg_Add_counter (delta : Z) s :
  0 <= wg s + delta ->
  wg (wg_Add delta s) = wg s + delta /\
  crashed (wg_Add delta s) = crashed s /\
  waiter (wg_Add delta s) = released (wg s + delta) (waiter s).
Proof.
  intros Hv. unfold wg_Add, released.
  destruct (wg s + delta <? 0) eqn:Hneg; [lia|].
  destruct (wg s + delta =? 0); [|by repeat split].
  destruct (waiter s) eqn:Hw; repeat split; simpl; congruence.
Qed.

(** [wg.Add(1)] on a counter at zero or above. *)
Lemma wg_Add_one s : 0 <= wg s -> wg_Add 1 s = set_wg (wg s + 1) s.
Proof.
  intros Hv. unfold wg_Add.
  destruct (wg s + 1 <? 0) eqn:Hneg; [lia|].
  destruct (wg s + 1 =? 0) eqn:Hz; [lia|done].
Qed.

End WaitGroup.

Section Steps.

Context {HS : Type} (ms : MessageServer HS) (h0 : HS).

Implicit Types (s : State HS) (g : Goroutine HS).

Lemma step_alive t s s' : step ms t s = Some s' -> crashed s = None.
Proof. unfold step. by destruct (crashed s). Qed.

Lemma invariant_initial : invariant ms (initial h0).
Proof. split; simpl; done. Qed.

Lemma lookup_set_pc i g pc s0 (j : nat) gj :
  goroutines (set_pc i g pc s0) !! j = Some gj ->
  (i = j /\ gj = with_pc g pc) \/ (i <> j /\ goroutines s0 !! j = Some gj).
Proof.
  simpl. intros H. apply list_lookup_insert_Some in H.
  destruct H as [(-> & <- & _)|(Hne & H)]; [by left | by right].
Qed.

(** Goroutine [i] moves from [g] to [with_pc g pc]; [s1] is the state
    before the move but for the fields one step changes with it. *)
Lemma invariant_move s s1 (i : nat) g pc :
  invariant ms s ->
  goroutines s !! i = Some g ->
  crashed s1 = crashed s -> serve s1 = serve s ->
  goroutines s1 = goroutines s ->
  wg s1 = wg s - owes g + owes (with_pc g pc) ->
  unwind_ok (with_pc g pc) ->
  match holds_mu g, holds_mu (with_pc g pc) with
  | false, true => mu s = false /\ mu s1 = true
  | true, false => mu s1 = false
  | _, _ => mu s1 = mu s
  end ->
  invariant ms (set_pc i g pc s1).
Proof.
  intros [Hcr Hwg Hsmw Hmw Hunw Hhm Hhu] Hg Hcr1 Hserve Hgs Hwg1 Hunw1 Hmu.
  split; simpl; rewrite ?Hgs, ?Hserve, ?Hcr1; try done.
  - rewrite (in_flight_insert _ i g) by done. lia.
  - intros j gj Hj. apply list_lookup_insert_Some in Hj.
    destruct Hj as [(-> & <- & _)|(Hne & Hj)]; [simpl; eauto | eauto].
  - intros j gj Hj. apply list_lookup_insert_Some in Hj.
    destruct Hj as [(-> & <- & _)|(Hne & Hj)]; [done | eauto].
  - intros j gj Hj Hh. apply list_lookup_insert_Some in Hj.
    destruct Hj as [(-> & <- & _)|(Hne & Hj)].
    + rewrite Hh in Hmu. destruct (holds_mu g) eqn:Hhg; [|tauto].
      rewrite Hmu. eauto.
    + destruct (holds_mu g) eqn:Hhg.
      * exfalso. apply Hne. eapply Hhu; eauto.
      * destruct (holds_mu (with_pc g pc)).
        -- destruct Hmu as [Hf _]. rewrite (Hhm j gj Hj Hh) in Hf. done.
        -- rewrite Hmu. eauto.
  - intros j1 j2 g1 g2 H1 H2 Hh1 Hh2.
    apply list_lookup_insert_Some in H1, H2.
    destruct H1 as [(-> & <- & _)|(Hne1 & H1)],
             H2 as [(E2 & <- & _)|(Hne2 & H2)]; try done.
    + rewrite Hh1 in Hmu. destruct (holds_mu g) eqn:Hhg.
      * exfalso. apply Hne2. eapply Hhu; eauto.
      * destruct Hmu as [Hf _]. rewrite (Hhm j2 g2 H2 Hh2) in Hf. done.
    + subst j2. rewrite Hh2 in Hmu. destruct (holds_mu g) eqn:Hhg.
      * exfalso. apply Hne1. eapply Hhu; eauto.
      * destruct Hmu as [Hf _]. rewrite (Hhm j1 g1 H1 Hh1) in Hf. done.
    + eauto.
Qed.

Lemma invariant_wg_nonneg s : invariant ms s -> 0 <= wg s.
Proof.
  intros Hinv. rewrite (inv_wg ms s Hinv).
  pose proof (in_flight_nonneg (goroutines s)).
  pose proof (about_to_go_nonneg (serve s)). lia.
Qed.

Lemma invariant_serve s s' :
  invariant ms s -> step_serve ms s = Some s' -> invariant ms s'.
Proof.
  intros Hinv Hstep. pose proof (invariant_wg_nonneg s Hinv) as Hnn.
  destruct Hinv as [Hcr Hwg Hsmw Hmw Hunw Hhm Hhu].
  unfold step_serve in Hstep. destruct (serve s) as [|mw msg|mw msg|r] eqn:Hpc.
  - destruct (InDecoder ms (decoded s)) as [msg err].
    destruct (stream_ended err); [|destruct err as [e|]];
      injection Hstep as <-; split; simpl; rewrite ?Hpc in *; done.
  - rewrite (wg_Add_one s Hnn) in Hstep.
    injection Hstep as <-. split; simpl; rewrite ?Hpc in *; simpl in *;
      try done. lia.
  - injection Hstep as <-. split; simpl; rewrite ?Hpc in *; simpl in *;
      try done.
    + rewrite in_flight_app. simpl. unfold owes. simpl. lia.
    + intros i g Hi. apply lookup_app_Some in Hi as [Hi|[_ Hi]]; [eauto|].
      apply list_lookup_singleton_Some in Hi as [_ <-]. done.
    + intros i g Hi. apply lookup_app_Some in Hi as [Hi|[_ Hi]]; [eauto|].
      apply list_lookup_singleton_Some in Hi as [_ <-]. done.
    + intros i g Hi. apply lookup_app_Some in Hi as [Hi|[_ Hi]]; [eauto|].
      apply list_lookup_singleton_Some in Hi as [_ <-]. done.
    + intros i j gi gj Hi Hj.
      apply lookup_app_Some in Hi as [Hi|[_ Hi]];
        [|apply list_lookup_singleton_Some in Hi as [_ <-]; done].
      apply lookup_app_Some in Hj as [Hj|[_ Hj]];
        [|apply list_lookup_singleton_Some in Hj as [_ <-]; done].
      eauto.
  - discriminate.
Qed.

(** A goroutine about to call [wg.Done()] finds the counter above
    zero. *)
Lemma done_positive s (i : nat) g p ds :
  invariant ms s -> goroutines s !! i = Some g ->
  g_pc g = GUnwind p (DeferWgDone :: ds) -> 1 <= wg s.
Proof.
  intros Hinv Hg Hpc. pose proof (in_flight_lookup _ _ _ Hg) as Hfl.
  unfold owes in Hfl. rewrite Hpc in Hfl. simpl in Hfl.
  pose proof (count_done_nonneg ds). rewrite (inv_wg ms s Hinv).
  pose proof (about_to_go_nonneg (serve s)). lia.
Qed.

Lemma invariant_goroutine (i : nat) s s' :
  invariant ms s -> step_goroutine i s = Some s' -> invariant ms s'.
Proof.
  intros Hinv Hstep. pose proof Hinv as [Hcr Hwg Hsmw Hmw Hunw Hhm Hhu].
  inv_goroutine_step Hstep.
  all: pose proof (Hunw _ _ Hg) as Hu; pose proof (Hmw _ _ Hg) as Hm;
       pose proof (Hhm _ _ Hg) as Hh.
  - injection Hstep as <-. apply (invariant_move s); unfold_obs Hpc; auto; try lia.
  - injection Hstep as <-. apply (invariant_move s); unfold_obs Hpc; auto; try lia.
  - injection Hstep as <-. apply (invariant_move s); unfold_obs Hpc; auto; try lia.
  - injection Hstep as <-. apply (invariant_move s); try done;
      unfold_obs Hpc; destruct (emw_Encoder (g_mw g)); simpl; auto; try lia.
  - destruct (mu s) eqn:Hmu; [discriminate|]. injection Hstep as <-.
    apply (invariant_move s); unfold_obs Hpc; auto; try lia.
  - injection Hstep as <-. apply (invariant_move s); unfold_obs Hpc; auto; try lia.
  - injection Hstep as <-. apply (invariant_move s); unfold_obs Hpc; auto; try lia.
  - injection Hstep as <-. apply (invariant_move s); try done;
      unfold_obs Hpc; destruct o; simpl; auto; try lia.
  - injection Hstep as <-. apply (invariant_move s); unfold_obs Hpc; auto; try lia.
  - unfold_obs Hpc. rewrite Hh in Hstep by done. injection Hstep as <-.
    apply (invariant_move s); try done; unfold_obs Hpc;
      destruct o; simpl; auto; try lia.
  - exfalso. unfold_obs Hpc. destruct Hu as [?|[? _]]; discriminate.
  - pose proof (done_positive s i g _ _ Hinv Hg Hpc) as Hpos.
    destruct (wg_Add_frame (-1) s) as (_ & _ & Hmu & _ & _ & Hse & Hgs).
    destruct (wg_Add_counter (-1) s) as (Hv & Hc & _); [lia|].
    destruct (wg s - 1 <? 0) eqn:Hneg; [lia|]. injection Hstep as <-.
    unfold_obs Hpc. destruct Hu as [?|[? [?|?]]]; discriminate.
  - injection Hstep as <-. apply (invariant_move s); unfold_obs Hpc; auto; try lia.
    destruct Hu as [Hu|[_ [Hu|Hu]]]; try discriminate.
    injection Hu as ->. auto.
  - injection Hstep as <-. apply (invariant_move s); unfold_obs Hpc; auto; try lia.
  - pose proof (done_positive s i g _ _ Hinv Hg Hpc) as Hpos.
    destruct (wg_Add_frame (-1) s) as (_ & _ & Hmu & _ & _ & Hse & Hgs).
    destruct (wg_Add_counter (-1) s) as (Hv & Hc & _); [lia|].
    destruct (wg s - 1 <? 0) eqn:Hneg; [lia|]. injection Hstep as <-.
    apply (invariant_move s); try done.
    + rewrite Hv. unfold_obs Hpc. pose proof (count_done_nonneg ds). lia.
    + unfold_obs Hpc. destruct Hu as [?|[_ [Hu|?]]]; try discriminate.
      injection Hu as ->. auto.
    + unfold_obs Hpc. done.
  - injection Hstep as <-. apply (invariant_move s); unfold_obs Hpc; auto; try lia.
    destruct Hu as [Hu|[_ [Hu|Hu]]]; try discriminate.
    injection Hu as ->. auto.
Qed.

Lemma invariant_wait s s' :
  invariant ms s -> step_wait s = Some s' -> invariant ms s'.
Proof.
  intros [Hcr Hwg Hsmw Hmw Hunw Hhm Hhu] Hstep.
  unfold step_wait, wg_Wait in Hstep.
  destruct (waiter s); destruct (wg s =? 0); try discriminate;
    injection Hstep as <-; split; simpl; try done.
  intros f Hf. by injection Hf as <-.
Qed.

Lemma invariant_step t s s' :
  invariant ms s -> step ms t s = Some s' -> invariant ms s'.
Proof.
  intros Hinv Hstep. step_cases Hstep.
  - by apply (invariant_serve s).
  - by apply (invariant_goroutine i s).
  - by apply (invariant_wait s).
Qed.

Lemma reachable_invariant s : reachable ms h0 s -> invariant ms s.
Proof.
  apply reachable_ind; [apply invariant_initial|].
  intros t s1 s2 _. apply invariant_step.
Qed.

(** ** The process lives unless a caller of [Wait] kills it *)

Lemma serve_step_alive s s' :
  invariant ms s -> crashed s = None -> step_serve ms s = Some s' ->
  crashed s' = None.
Proof.
  intros Hinv Hal Hstep. pose proof (invariant_wg_nonneg s Hinv) as Hnn.
  unfold step_serve in Hstep. destruct (serve s) as [|mw msg|mw msg|r].
  - destruct (InDecoder ms (decoded s)) as [msg err].
    destruct (stream_ended err); [|destruct err as [e|]];
      by injection Hstep as <-.
  - rewrite (wg_Add_one s Hnn) in Hstep. by injection Hstep as <-.
  - by injection Hstep as <-.
  - discriminate.
Qed.

Lemma goroutine_step_alive (i : nat) s s' :
  invariant ms s -> crashed s = None -> step_goroutine i s = Some s' ->
  crashed s' = None.
Proof.
  intros Hinv Hal Hstep.
  inv_goroutine_step Hstep.
  all: pose proof (inv_unwind ms s Hinv _ _ Hg) as Hu;
       pose proof (inv_holder_mu ms s Hinv _ _ Hg) as Hh.
  all: unfold unwind_ok, holds_mu in Hu, Hh; rewrite Hpc in Hu, Hh.
  all: try (injection Hstep as <-; done).
  - destruct (mu s); [discriminate|]. by injection Hstep as <-.
  - rewrite Hh in Hstep by done. by injection Hstep as <-.
  - destruct Hu as [?|[? _]]; discriminate.
  - destruct Hu as [?|[? [?|?]]]; discriminate.
  - pose proof (done_positive s i g _ _ Hinv Hg Hpc) as Hpos.
    destruct (wg_Add_counter (-1) s) as (_ & Hc & _); [lia|].
    destruct (wg s - 1 <? 0) eqn:Hneg; [lia|]. injection Hstep as <-.
    simpl. by rewrite Hc.
Qed.

Lemma alive_no_wait (sched : list Tid) s s' :
  invariant ms s -> crashed s = None -> no_wait sched = true ->
  run ms sched s = Some s' -> crashed s' = None.
Proof.
  revert s. induction sched as [|t sched IH]; intros s Hinv Hal Hnw Hrun.
  - by injection Hrun as <-.
  - simpl in Hnw, Hrun. apply andb_true_iff in Hnw as [Ht Hnw].
    destruct (step ms t s) as [s1|] eqn:Hstep; [|done].
    apply (IH s1); [by apply (invariant_step t s) | | done | done].
    unfold step in Hstep. rewrite Hal in Hstep. destruct t as [|i|]; [| |done].
    + by apply (serve_step_alive s).
    + by apply (goroutine_step_alive i s).
Qed.

Lemma no_wait_repeat_serve (n : nat) : no_wait (repeat TServe n) = true.
Proof. induction n as [|n IH]; [done | exact IH]. Qed.

Lemma no_wait_repeat_go (i n : nat) : no_wait (repeat (TGo i) n) = true.
Proof. induction n as [|n IH]; [done | exact IH]. Qed.

End Steps.

(** ** The loop of [Serve] *)

Section Loop.

Context {HS : Type} (ms : MessageServer HS) (h0 : HS).

Implicit Types (s : State HS) (g : Goroutine HS) (d : Decoder).

Lemma decoded_ok_S d (n : nat) :
  decoded_ok d (S n) =
  decoded_ok d n ++ match snd (d n) with
                    | None => [fst (d n)]
                    | Some _ => []
                    end.
Proof.
  unfold decoded_ok, ok_message. rewrite seq_S, omap_app. simpl.
  by destruct (snd (d n)).
Qed.

Lemma decode_errors_S d (n : nat) :
  decode_errors d (S n) =
  decode_errors d n ++ match snd (d n) with
                       | Some e => if stream_ended (Some e) then []
                                   else [LogDecodeError e]
                       | None => []
                       end.
Proof.
  unfold decode_errors, error_entry. rewrite seq_S, omap_app. simpl.
  by destruct (snd (d n)) as [[| |what]|].
Qed.

Lemma decode_log_app (l1 l2 : list LogEntry) :
  decode_log (l1 ++ l2) = decode_log l1 ++ decode_log l2.
Proof. apply omap_app. Qed.

Lemma dispatched_set_pc (i : nat) g pc s s1 :
  goroutines s !! i = Some g -> goroutines s1 = goroutines s ->
  dispatched (set_pc i g pc s1) = dispatched s.
Proof.
  intros Hg Hgs. unfold dispatched. simpl. rewrite Hgs, list_fmap_insert.
  simpl. apply list_insert_id. by rewrite list_lookup_fmap, Hg.
Qed.

(** No step of a goroutine or of a caller of [Wait] touches what the
    loop has done. *)
Lemma wg_Add_keeps_loop (delta : Z) s :
  loop_view (wg_Add delta s) = loop_view s.
Proof.
  destruct (wg_Add_frame delta s) as (Hd & _ & _ & Hl & _ & Hse & Hgs).
  unfold loop_view, dispatched. by rewrite Hd, Hl, Hse, Hgs.
Qed.

Lemma goroutine_keeps_loop (i : nat) s s' :
  step_goroutine i s = Some s' -> loop_view s' = loop_view s.
Proof.
  intros Hstep. inv_goroutine_step Hstep.
  all: repeat match type of Hstep with
       | (if ?c then _ else _) = _ => destruct c
       end; try discriminate Hstep; injection Hstep as <-.
  all: try apply wg_Add_keeps_loop.
  all: unfold loop_view.
  all: destruct (wg_Add_frame (-1) s) as (Hd & _ & _ & Hl & _ & Hse & Hgs).
  all: rewrite ?(dispatched_set_pc i g _ s) by done; simpl;
       rewrite ?Hd, ?Hl, ?Hse; try done.
  all: by rewrite decode_log_app, app_nil_r.
Qed.

Lemma wait_keeps_loop s s' :
  step_wait s = Some s' -> loop_view s' = loop_view s.
Proof.
  unfold step_wait, wg_Wait. intros Hstep.
  destruct (waiter s); destruct (wg s =? 0); try discriminate;
    by injection Hstep as <-.
Qed.

Lemma others_keep_loop t s s' :
  t <> TServe -> step ms t s = Some s' -> loop_view s' = loop_view s.
Proof.
  intros Ht Hstep. step_cases Hstep; [done | |].
  - by apply (goroutine_keeps_loop i).
  - by apply wait_keeps_loop.
Qed.

Lemma serve_invariant_view s s' :
  loop_view s' = loop_view s -> serve_invariant ms s -> serve_invariant ms s'.
Proof.
  unfold loop_view. intros Hv [Hp Hl].
  injection Hv as Hserve Hdec Hdisp Hlog.
  split; [|by rewrite Hlog, Hdec].
  unfold serve_progress in *. by rewrite Hserve, Hdec, Hdisp.
Qed.

Lemma serve_invariant_initial : serve_invariant ms (initial h0).
Proof.
  split; [|done]. unfold serve_progress. simpl. split; [lia | done].
Qed.

Lemma serve_invariant_serve s s' :
  serve_invariant ms s -> step_serve ms s = Some s' -> serve_invariant ms s'.
Proof.
  intros [Hp Hl] Hstep. unfold step_serve in Hstep.
  unfold serve_progress in Hp.
  destruct (serve s) as [|mw msg|mw msg|r] eqn:Hpc.
  - destruct Hp as [Hrun Hdisp].
    destruct (InDecoder ms (decoded s)) as [msg err] eqn:Hd.
    assert (Herr : snd (InDecoder ms (decoded s)) = err) by by rewrite Hd.
    assert (Hmsg : fst (InDecoder ms (decoded s)) = msg) by by rewrite Hd.
    destruct (stream_ended err) eqn:He; [|destruct err as [e|]];
      injection Hstep as <-.
    + split; unfold serve_progress; simpl.
      * exists (decoded s). by rewrite Herr.
      * rewrite decode_errors_S, Herr, Hl. destruct err as [e|]; [|done].
        by rewrite He, app_nil_r.
    + split; unfold serve_progress; simpl; rewrite ?Hpc.
      * split.
        -- intros k Hk. destruct (decide (k = decoded s)) as [->|Hne];
             [by rewrite Herr | apply Hrun; lia].
        -- by rewrite decoded_ok_S, Herr, app_nil_r.
      * by rewrite decode_log_app, decode_errors_S, Herr, He, Hl.
    + split; unfold serve_progress; simpl.
      * split.
        -- intros k Hk. destruct (decide (k = decoded s)) as [->|Hne];
             [by rewrite Herr | apply Hrun; lia].
        -- by exists (decoded s).
      * by rewrite decode_errors_S, Herr, Hl, app_nil_r.
  - injection Hstep as <-.
    destruct (wg_Add_frame 1 s) as (Hd & _ & _ & Hlg & _ & _ & Hgs).
    split; unfold serve_progress, dispatched in *; simpl;
      rewrite ?Hd, ?Hlg, ?Hgs; done.
  - injection Hstep as <-. destruct Hp as [Hrun (k & Hk & Hd & Hdisp)].
    split; unfold serve_progress; simpl; [|done]. split; [done|].
    unfold dispatched in *. simpl. rewrite Hk, decoded_ok_S, Hd. simpl.
    by rewrite map_app, Hdisp.
  - discriminate.
Qed.

Lemma serve_invariant_step t s s' :
  serve_invariant ms s -> step ms t s = Some s' -> serve_invariant ms s'.
Proof.
  intros Hinv Hstep. step_cases Hstep.
  - by apply (serve_invariant_serve s).
  - apply (serve_invariant_view s); [|done]. by apply (goroutine_keeps_loop i).
  - apply (serve_invariant_view s); [|done]. by apply wait_keeps_loop.
Qed.

Lemma reachable_serve_invariant s :
  reachable ms h0 s -> serve_invariant ms s.
Proof.
  apply reachable_ind; [apply serve_invariant_initial|].
  intros t s1 s2 _. apply serve_invariant_step.
Qed.

End Loop.

(** ** [Serve] on an input that ends *)

Section Ending.

Context {HS : Type} (ms : MessageServer HS) (h0 : HS).

Implicit Types (s : State HS) (g : Goroutine HS) (d : Decoder).

Lemma repeat_serve_S (k : nat) s s1 s' :
  crashed s = None -> step_serve ms s = Some s1 ->
  run ms (repeat TServe k) s1 = Some s' ->
  run ms (repeat TServe (S k)) s = Some s'.
Proof.
  intros Hal Hs Hrun. simpl. unfold step. by rewrite Hal, Hs.
Qed.

(** Where [Serve] has returned, on an input that ends at result [n]. *)
Lemma returned_at (n : nat) s r :
  ends_at (InDecoder ms) n -> serve_invariant ms s ->
  serve s = PCReturned r ->
  r = snd (InDecoder ms n) /\ decoded s = S n /\
  dispatched s = decoded_ok (InDecoder ms) n.
Proof.
  intros [Hbefore Hend] [Hp _] Hpc. unfold serve_progress in Hp.
  rewrite Hpc in Hp. destruct Hp as (k & Hk & Hr & He & Hrun & Hdisp).
  assert (k = n) as ->; [|done].
  destruct (Nat.lt_trichotomy k n) as [Hlt|[->|Hgt]]; [|done|].
  - rewrite <- Hr, (Hbefore k Hlt) in He. done.
  - rewrite (Hrun n Hgt) in Hend. done.
Qed.

Lemma running_before (n : nat) s :
  ends_at (InDecoder ms) n -> serve_invariant ms s ->
  (forall r, serve s <> PCReturned r) -> (decoded s <= n)%nat.
Proof.
  intros [_ Hend] [Hp _] Hpc. unfold serve_progress in Hp.
  destruct (serve s) as [|mw msg|mw msg|r]; [| | |by destruct (Hpc r)].
  all: destruct Hp as [Hrun _]; destruct (decide (decoded s <= n)%nat);
    [done|]; rewrite Hrun in Hend by lia; done.
Qed.

(** The three steps of a dispatch. *)
Lemma step_serve_add s mw msg :
  invariant ms s -> serve s = PCAdd mw msg ->
  step_serve ms s = Some (set_serve (PCGo mw msg) (set_wg (wg s + 1) s)).
Proof.
  intros Hinv Hpc. unfold step_serve. rewrite Hpc.
  by rewrite (wg_Add_one s (invariant_wg_nonneg ms s Hinv)).
Qed.

(** From the top of the loop [Serve] gets to its [return]. *)
Lemma serve_returns_from_decode (n m : nat) s :
  ends_at (InDecoder ms) n ->
  reachable ms h0 s -> crashed s = None ->
  serve s = PCDecode -> (n - decoded s)%nat = m ->
  exists k s', run ms (repeat TServe k) s = Some s' /\
               serve s' = PCReturned (snd (InDecoder ms n)).
Proof.
  intros Hends. revert s. induction m as [|m IH]; intros s Hreach Hal Hpc Hm.
  all: pose proof (reachable_serve_invariant ms h0 s Hreach) as Hsinv.
  all: pose proof (running_before n s Hends Hsinv) as Hle.
  all: rewrite Hpc in Hle; specialize (Hle ltac:(done)).
  all: destruct Hends as [Hbefore Hend].
  - assert (decoded s = n) as Hn by lia.
    exists 1%nat,
      (set_serve (PCReturned (snd (InDecoder ms n))) (set_decoded (S n) s)).
    split; [|done]. simpl. unfold step, step_serve. rewrite Hal, Hpc, Hn.
    destruct (InDecoder ms n) as [msg err]. simpl in *. by rewrite Hend.
  - assert (Hlt : (decoded s < n)%nat) by lia.
    pose proof (Hbefore _ Hlt) as Hne.
    destruct (InDecoder ms (decoded s)) as [msg err] eqn:Hd. simpl in Hne.
    destruct err as [e|].
    + assert (Hs1 : step_serve ms s = Some
                (set_logged (logged s ++ [LogDecodeError e])
                   (set_decoded (S (decoded s)) s))).
      { unfold step_serve. by rewrite Hpc, Hd, Hne. }
      destruct (IH _ (reachable_step ms h0 TServe s _ Hreach
                        ltac:(unfold step; by rewrite Hal, Hs1)))
        as (k & s' & Hrun & Hret); [done | done | simpl; lia |].
      exists (S k), s'. split; [|done]. exact (repeat_serve_S k s _ s' Hal Hs1 Hrun).
    + set (mw := {| emw_Encoder := OutEncoder ms |}).
      set (s1 := set_serve (PCAdd mw msg) (set_decoded (S (decoded s)) s)).
      set (s2 := set_serve (PCGo mw msg) (set_wg (wg s1 + 1) s1)).
      set (s3 := set_serve PCDecode
                   (set_goroutines
                      (goroutines s2 ++
                       [{| g_mw := mw; g_msg := msg;
                           g_pc := GHandle (HandleMessage (MessageHandler ms) msg) |}])
                      s2)).
      assert (H1 : step_serve ms s = Some s1).
      { unfold step_serve. by rewrite Hpc, Hd. }
      assert (Hreach1 : reachable ms h0 s1).
      { apply (reachable_step ms h0 TServe s); [done|].
        unfold step. by rewrite Hal. }
      assert (H2 : step_serve ms s1 = Some s2).
      { by apply step_serve_add; [apply (reachable_invariant ms h0)|]. }
      assert (H3 : step_serve ms s2 = Some s3) by done.
      assert (Hrun3 : run ms (repeat TServe 3) s = Some s3).
      { simpl. unfold step. rewrite Hal, H1. simpl. rewrite Hal, H2. simpl.
        by rewrite Hal, H3. }
      destruct (IH s3 (reachable_run ms h0 _ s s3 Hreach Hrun3))
        as (k & s' & Hrun & Hret); [done | done | simpl; lia |].
      exists (3 + k)%nat, s'. split; [|done].
      rewrite repeat_app, run_app, Hrun3. exact Hrun.
Qed.

(** From wherever it is, [Serve] left alone gets to its [return]; it
    returns the result that ended the input and has started a goroutine
    for each message decoded without an error, in order. *)
Lemma serve_returns (n : nat) s :
  ends_at (InDecoder ms) n -> reachable ms h0 s -> crashed s = None ->
  exists k s', run ms (repeat TServe k) s = Some s' /\
               serve s' = PCReturned (snd (InDecoder ms n)) /\
               dispatched s' = decoded_ok (InDecoder ms) n /\
               decode_log (logged s') = decode_errors (InDecoder ms) n.
Proof.
  intros Hends Hreach Hal.
  assert (Hgoal : exists k s', run ms (repeat TServe k) s = Some s' /\
               serve s' = PCReturned (snd (InDecoder ms n))).
  { pose proof (reachable_invariant ms h0 s Hreach) as Hinv.
    destruct (serve s) as [|mw msg|mw msg|r] eqn:Hpc.
    - by apply (serve_returns_from_decode n (n - decoded s) s).
    - set (s1 := set_serve (PCGo mw msg) (set_wg (wg s + 1) s)).
      set (s2 := set_serve PCDecode
                   (set_goroutines
                      (goroutines s1 ++
                       [{| g_mw := mw; g_msg := msg;
                           g_pc := GHandle (HandleMessage (MessageHandler ms) msg) |}])
                      s1)).
      assert (H1 : step_serve ms s = Some s1) by by apply step_serve_add.
      assert (H2 : step_serve ms s1 = Some s2) by done.
      assert (Hrun2 : run ms (repeat TServe 2) s = Some s2).
      { simpl. unfold step. rewrite Hal, H1. simpl. by rewrite Hal, H2. }
      destruct (serve_returns_from_decode n (n - decoded s2) s2 Hends
                  (reachable_run ms h0 _ s s2 Hreach Hrun2))
        as (k & s' & Hrun & Hret); [done..|].
      exists (2 + k)%nat, s'. split; [|done].
      rewrite repeat_app, run_app, Hrun2. exact Hrun.
    - set (s1 := set_serve PCDecode
                   (set_goroutines
                      (goroutines s ++
                       [{| g_mw := mw; g_msg := msg;
                           g_pc := GHandle (HandleMessage (MessageHandler ms) msg) |}])
                      s)).
      assert (Hrun1 : run ms (repeat TServe 1) s = Some s1).
      { simpl. unfold step, step_serve. by rewrite Hal, Hpc. }
      destruct (serve_returns_from_decode n (n - decoded s1) s1 Hends
                  (reachable_run ms h0 _ s s1 Hreach Hrun1))
        as (k & s' & Hrun & Hret); [done..|].
      exists (1 + k)%nat, s'. split; [|done].
      rewrite repeat_app, run_app, Hrun1. exact Hrun.
    - exists 0%nat, s. split; [done|].
      pose proof (reachable_serve_invariant ms h0 s Hreach) as Hsinv.
      by destruct (returned_at n s r Hends Hsinv Hpc) as (-> & _). }
  destruct Hgoal as (k & s' & Hrun & Hret). exists k, s'.
  pose proof (reachable_serve_invariant ms h0 s'
                (reachable_run ms h0 _ s s' Hreach Hrun)) as Hsinv.
  destruct (returned_at n s' _ Hends Hsinv Hret) as (_ & Hdec & Hdisp).
  repeat split; try done.
  destruct Hsinv as [_ Hl]. rewrite Hl, Hdec, decode_errors_S.
  destruct Hends as [_ Hend]. destruct (snd (InDecoder ms n)) as [e|]; [|done].
  by rewrite Hend, app_nil_r.
Qed.

(** What [Serve] has started goroutines for is always the messages
    decoded so far. *)
Lemma dispatched_so_far s :
  reachable ms h0 s ->
  exists k, (k <= decoded s)%nat /\
            dispatched s = decoded_ok (InDecoder ms) k.
Proof.
  intros Hreach.
  destruct (reachable_serve_invariant ms h0 s Hreach) as [Hp _].
  unfold serve_progress in Hp. destruct (serve s).
  - destruct Hp as [_ Hd]. by exists (decoded s).
  - destruct Hp as [_ (k & Hk & _ & Hd)]. exists k. split; [lia|done].
  - destruct Hp as [_ (k & Hk & _ & Hd)]. exists k. split; [lia|done].
  - destruct Hp as (k & Hk & _ & _ & _ & Hd). exists k. split; [lia|done].
Qed.

End Ending.

(** ** Decoders given by their first results *)

Section Streams.

Implicit Types (d : Decoder) (rs : list (Message * error)).

Lemma reads_app d rs1 rs2 : reads d (rs1 ++ rs2) -> reads d rs1.
Proof. intros H k r Hk. apply H. by apply lookup_app_l_Some. Qed.

Lemma reads_last d rs r : reads d (rs ++ [r]) -> d (length rs) = r.
Proof.
  intros H. apply H. rewrite lookup_app_r by lia.
  by rewrite Nat.sub_diag.
Qed.

Lemma decoded_ok_reads d rs :
  reads d rs -> decoded_ok d (length rs) = omap ok_message rs.
Proof.
  induction rs as [|r rs IH] using rev_ind; intros H; [done|].
  rewrite length_app, Nat.add_1_r, decoded_ok_S, omap_app.
  rewrite (IH (reads_app _ _ _ H)), (reads_last _ _ _ H). simpl.
  unfold ok_message. by destruct (snd r).
Qed.

Lemma decoded_ok_take d rs (k : nat) :
  reads d rs -> (k <= length rs)%nat ->
  decoded_ok d k = omap ok_message (take k rs).
Proof.
  intros H Hk. rewrite <- (take_drop k rs) in H. apply reads_app in H.
  rewrite <- (decoded_ok_reads d (take k rs) H). by rewrite length_take_le.
Qed.

Lemma omap_well_formed (msgs : list Message) :
  omap ok_message (well_formed <$> msgs) = msgs.
Proof. induction msgs as [|m msgs IH]; simpl; [done | f_equal; exact IH]. Qed.

Lemma reads_not_ended d rs (n : nat) :
  reads d rs -> Forall (fun r => stream_ended (snd r) = false) rs ->
  (n < length rs)%nat -> stream_ended (snd (d n)) = false.
Proof.
  intros H Hall Hn. destruct (lookup_lt_is_Some_2 rs n Hn) as [r Hr].
  rewrite (H n r Hr). by apply (Forall_lookup_1 _ _ _ _ Hall Hr).
Qed.

Lemma well_formed_not_ended (msgs : list Message) :
  Forall (fun r => stream_ended (snd r) = false) (well_formed <$> msgs).
Proof. apply Forall_fmap, Forall_forall. done. Qed.

Lemma well_formed_stream_ends d (msgs : list Message) :
  well_formed_stream d msgs -> ends_at d (length msgs).
Proof.
  intros [Hr He]. split; [|by rewrite He].
  intros k Hk. apply (reads_not_ended d _ k Hr (well_formed_not_ended msgs)).
  by rewrite length_fmap.
Qed.

End Streams.

(** ** Writes through a [SyncEncoder] *)

Section Sync.

Context {HS : Type} (ms : MessageServer HS) (h0 : HS) (se : SyncEncoder).

Hypothesis Hsync : OutEncoder ms = EncSync se.

Implicit Types (s : State HS) (g : Goroutine HS).

Lemma serialized_snoc (enc : StreamEncoder) (msgs : list Message)
    (m : Message) :
  serialized enc (msgs ++ [m]) = serialized enc msgs ++ fst (enc m).
Proof. unfold serialized. by rewrite flat_map_app; simpl; rewrite app_nil_r. Qed.

(** Who does not hold [mu] is not writing: its place does not depend on
    the output. *)
Lemma write_ok_idle (o o' : list byte) g :
  holds_mu g = false -> write_ok se o g -> write_ok se o' g.
Proof.
  unfold holds_mu, write_ok. destruct (g_pc g) as [| | [|] | | |]; try done.
  by intros _ [? _].
Qed.

Lemma sync_move s s1 (i : nat) g pc :
  invariant ms s -> sync_invariant se s ->
  goroutines s !! i = Some g -> goroutines s1 = goroutines s ->
  write_ok se (out s1) (with_pc g pc) ->
  (out s1 = out s \/ holds_mu g = true) ->
  (holds_mu (with_pc g pc) = false ->
   if holds_mu g then exists msgs, out s1 = serialized (se_Encoder se) msgs
   else out s1 = out s) ->
  sync_invariant se (set_pc i g pc s1).
Proof.
  intros Hinv [Hw Hwhole] Hg Hgs Hnew Hout Hrel. split; simpl; rewrite Hgs.
  - intros j gj Hj. apply list_lookup_insert_Some in Hj.
    destruct Hj as [(-> & <- & _)|(Hne & Hj)]; [done|].
    destruct Hout as [->|Hh]; [eauto|].
    apply (write_ok_idle (out s)); [|eauto].
    destruct (holds_mu gj) eqn:Hhj; [|done].
    destruct Hne. by apply (inv_holder_unique ms s Hinv i j g gj).
  - intros Hnone.
    assert (Hi : holds_mu (with_pc g pc) = false).
    { apply (Hnone i). apply list_lookup_insert_eq.
      by apply lookup_lt_Some in Hg. }
    specialize (Hrel Hi). destruct (holds_mu g) eqn:Hhg; [done|].
    rewrite Hrel. apply Hwhole. intros j gj Hj.
    destruct (decide (i = j)) as [<-|Hne]; [congruence|].
    apply (Hnone j). by rewrite list_lookup_insert_ne.
Qed.

Lemma sync_invariant_initial : sync_invariant se (initial h0).
Proof. split; [done|]. intros _. by exists []. Qed.

(** The invariant is about the goroutines and the output. *)
Lemma sync_invariant_frame s s' :
  goroutines s' = goroutines s -> out s' = out s ->
  sync_invariant se s -> sync_invariant se s'.
Proof. intros Hgs Hout [Hw Hwhole]. split; by rewrite Hgs, Hout. Qed.

Lemma sync_invariant_wg_Add (delta : Z) s :
  sync_invariant se s -> sync_invariant se (wg_Add delta s).
Proof.
  destruct (wg_Add_frame delta s) as (_ & Hout & _ & _ & _ & _ & Hgs).
  by apply sync_invariant_frame.
Qed.

Lemma sync_invariant_serve s s' :
  sync_invariant se s -> step_serve ms s = Some s' -> sync_invariant se s'.
Proof.
  intros Hsinv Hstep. pose proof Hsinv as [Hw Hwhole].
  unfold step_serve in Hstep.
  destruct (serve s) as [|mw msg|mw msg|r] eqn:Hpc.
  - destruct (InDecoder ms (decoded s)) as [msg err].
    destruct (stream_ended err); [|destruct err as [e|]];
      injection Hstep as <-; by split.
  - injection Hstep as <-.
    by apply (sync_invariant_frame (wg_Add 1 s)), sync_invariant_wg_Add.
  - injection Hstep as <-. split; simpl.
    + intros i g Hi. apply lookup_app_Some in Hi as [Hi|[_ Hi]]; [eauto|].
      apply list_lookup_singleton_Some in Hi as [_ <-]. done.
    + intros Hnone. apply Hwhole. intros i g Hi. apply (Hnone i).
      by apply lookup_app_l_Some.
  - discriminate.
Qed.

Lemma sync_invariant_goroutine (i : nat) s s' :
  invariant ms s -> sync_invariant se s ->
  step_goroutine i s = Some s' -> sync_invariant se s'.
Proof.
  intros Hinv Hsinv Hstep. pose proof Hsinv as [Hw Hwhole].
  inv_goroutine_step Hstep.
  all: pose proof (Hw _ _ Hg) as Hwg; pose proof (inv_mw ms s Hinv _ _ Hg) as Hm;
       pose proof (inv_holder_mu ms s Hinv _ _ Hg) as Hh.
  all: unfold write_ok in Hwg; rewrite Hpc in Hwg.
  all: repeat match type of Hstep with
       | (if ?c then _ else _) = _ => destruct c eqn:?
       end; try discriminate Hstep; injection Hstep as <-.
  all: try (by apply sync_invariant_wg_Add).
  all: try (destruct Hsinv; by split).
  all: destruct (wg_Add_frame (-1) s) as (_ & Hout' & _ & _ & _ & _ & Hgs').
  all: try (apply (sync_move s); try done;
            unfold write_ok, holds_mu, with_pc; simpl;
            rewrite ?Hpc, ?Hout'; auto; fail).
  - rewrite Hm. unfold WriteMessage, writer_of. simpl. rewrite Hsync. simpl.
    apply (sync_move s); try done; [by left|].
    unfold holds_mu. simpl. by rewrite Hpc.
  - subst se'. destruct Hwhole as [msgs Hmsgs].
    { intros j gj Hj. destruct (holds_mu gj) eqn:Hhj; [|done].
      rewrite (inv_holder_mu ms s Hinv j gj Hj Hhj) in Heqb. done. }
    apply (sync_move s); try done; [|by left].
    split; [done|]. exists (msgs ++ [m]). simpl.
    by rewrite serialized_snoc, Hmsgs.
  - destruct Hwg as [_ [msgs Hmsgs]]. rewrite app_nil_r in Hmsgs.
    apply (sync_move s); try done; [by exists msgs | by left].
  - destruct Hwg as [_ [msgs Hmsgs]].
    apply (sync_move s); try done.
    + split; [done|]. exists msgs. simpl. by rewrite <- app_assoc.
    + right. unfold holds_mu. by rewrite Hpc.
  - by destruct Hwg.
  - by destruct Hwg.
  - apply (sync_move s); try done.
    + unfold write_ok. by destruct o.
    + by left.
    + intros _. unfold holds_mu. by rewrite Hpc.
Qed.

Lemma sync_invariant_wait s s' :
  sync_invariant se s -> step_wait s = Some s' -> sync_invariant se s'.
Proof.
  intros [Hw Hwhole] Hstep. unfold step_wait, wg_Wait in Hstep.
  destruct (waiter s); destruct (wg s =? 0); try discriminate;
    injection Hstep as <-; by split.
Qed.

Lemma reachable_sync_invariant s :
  reachable ms h0 s -> sync_invariant se s.
Proof.
  intros Hreach. generalize (reachable_invariant ms h0 s Hreach).
  revert s Hreach.
  apply (reachable_ind ms h0
           (fun s => invariant ms s -> sync_invariant se s)).
  - intros _. apply sync_invariant_initial.
  - intros t s s' Hreach IH Hstep _.
    specialize (IH (reachable_invariant ms h0 s Hreach)).
    pose proof (reachable_invariant ms h0 s Hreach) as Hinv.
    step_cases Hstep.
    + by apply (sync_invariant_serve s).
    + by apply (sync_invariant_goroutine i s).
    + by apply (sync_invariant_wait s).
Qed.

(** Either some element satisfies a test or none does. *)
Lemma some_or_none {A : Type} (p : A -> bool) (l : list A) :
  (exists (i : nat) x, l !! i = Some x /\ p x = true) \/
  (forall (i : nat) x, l !! i = Some x -> p x = false).
Proof.
  induction l as [|x l IH].
  - right. intros i y H. done.
  - destruct (p x) eqn:Hx; [left; by exists 0%nat, x|].
    destruct IH as [(i & y & Hi & Hy)|Hnone].
    + left. by exists (S i), y.
    + right. intros [|i] y H; simpl in H; [by injection H as <- | eauto].
Qed.

Lemma flat_map_none {A B : Type} (f : A -> list B) (l : list A) :
  (forall (i : nat) x, l !! i = Some x -> f x = []) -> flat_map f l = [].
Proof.
  induction l as [|x l IH]; intros H; simpl; [done|].
  rewrite (H 0%nat x) by done. apply IH. intros i y Hi. by apply (H (S i)).
Qed.

Lemma flat_map_only {A B : Type} (f : A -> list B) (l : list A)
    (i : nat) (x : A) :
  l !! i = Some x ->
  (forall (j : nat) y, l !! j = Some y -> j <> i -> f y = []) ->
  flat_map f l = f x.
Proof.
  revert i. induction l as [|y l IH]; intros [|i] Hi H; simpl in *;
    try discriminate.
  - injection Hi as ->. rewrite flat_map_none, app_nil_r; [done|].
    intros j z Hj. by apply (H (S j)).
  - rewrite (H 0%nat y) by done. simpl. apply (IH i Hi).
    intros j z Hj Hne. apply (H (S j)); [done | lia].
Qed.

Lemma unwritten_idle g : encoding g = false -> unwritten g = [].
Proof. unfold encoding, unwritten. by destruct (g_pc g). Qed.

Lemma sync_one_encode s :
  invariant ms s -> sync_invariant se s -> one_encode_at_a_time s.
Proof.
  intros Hinv [Hw _] i j gi gj Hi Hj Hei Hej.
  apply (inv_holder_unique ms s Hinv i j gi gj Hi Hj).
  - pose proof (Hw i gi Hi) as H. unfold write_ok, encoding, holds_mu in *.
    destruct (g_pc gi); try done. by destruct H as [-> _].
  - pose proof (Hw j gj Hj) as H. unfold write_ok, encoding, holds_mu in *.
    destruct (g_pc gj); try done. by destruct H as [-> _].
Qed.

Lemma sync_never_interleaved s :
  invariant ms s -> sync_invariant se s -> never_interleaved ms s.
Proof.
  intros Hinv Hsinv. pose proof (sync_one_encode s Hinv Hsinv) as Hone.
  destruct Hsinv as [Hw Hwhole].
  unfold never_interleaved, pending. rewrite Hsync. simpl.
  destruct (some_or_none encoding (goroutines s)) as [(i & g & Hi & He)|Hnone].
  - rewrite (flat_map_only unwritten _ i g Hi).
    + pose proof (Hw i g Hi) as H. unfold write_ok, encoding, unwritten in *.
      destruct (g_pc g); try done. by destruct H as [_ H].
    + intros j gj Hj Hne. apply unwritten_idle.
      destruct (encoding gj) eqn:Hej; [|done]. destruct Hne. by apply (Hone j i gj g).
  - rewrite flat_map_none, app_nil_r
      by (intros j gj Hj; apply unwritten_idle; eauto).
    destruct (some_or_none holds_mu (goroutines s)) as [(i & g & Hi & Hh)|Hfree];
      [|by apply Hwhole].
    pose proof (Hw i g Hi) as H. pose proof (Hnone i g Hi) as He.
    unfold write_ok, encoding, holds_mu in *. by destruct (g_pc g).
Qed.

End Sync.

(** ** Writes on a bare encoder *)

Section Bare.

Context {HS : Type} (ms : MessageServer HS) (h0 : HS) (enc : StreamEncoder).

Hypothesis Hbare : OutEncoder ms = EncStream enc.

Implicit Types (s : State HS) (g : Goroutine HS).

Lemma never_locks_wg_Add (delta : Z) s :
  never_locks s -> never_locks (wg_Add delta s).
Proof.
  destruct (wg_Add_frame delta s) as (_ & _ & Hmu & _ & _ & _ & Hgs).
  intros [Hm Hfree]. split; by rewrite ?Hmu, ?Hgs.
Qed.

Lemma never_locks_step t s s' :
  invariant ms s -> never_locks s -> step ms t s = Some s' -> never_locks s'.
Proof.
  intros Hinv Hnl Hstep. pose proof Hnl as [Hmu Hfree]. step_cases Hstep.
  - unfold step_serve in Hstep.
    destruct (serve s) as [|mw msg|mw msg|r] eqn:Hpc.
    + destruct (InDecoder ms (decoded s)) as [msg err].
      destruct (stream_ended err); [|destruct err as [e|]];
        injection Hstep as <-; by split.
    + injection Hstep as <-.
      destruct (never_locks_wg_Add 1 s Hnl) as [Hmu1 Hfree1]. by split.
    + injection Hstep as <-. split; [done|]. simpl. intros i g Hi.
      apply lookup_app_Some in Hi as [Hi|[_ Hi]]; [eauto|].
      apply list_lookup_singleton_Some in Hi as [_ <-]. done.
    + discriminate.
  - inv_goroutine_step Hstep.
    all: pose proof (Hfree _ _ Hg) as Hf; pose proof (inv_mw ms s Hinv _ _ Hg) as Hm.
    all: unfold lock_free in Hf; rewrite Hpc in Hf; try done.
    all: repeat match type of Hstep with
         | (if ?c then _ else _) = _ => destruct c eqn:?
         end; try discriminate Hstep; injection Hstep as <-.
    all: try (by apply never_locks_wg_Add).
    all: try (by split).
    all: destruct (never_locks_wg_Add (-1) s Hnl) as [Hmu1 Hfree1].
    all: destruct (wg_Add_frame (-1) s) as (_ & _ & _ & _ & _ & _ & Hgs1).
    all: split; [done|]; simpl; rewrite ?Hgs1; intros j gj Hj;
         apply list_lookup_insert_Some in Hj as [(-> & <- & _)|(Hne & Hj)];
         [|eauto]; unfold lock_free; simpl; try done.
    + rewrite Hm. unfold WriteMessage, writer_of. simpl. by rewrite Hbare.
    + by destruct o.
  - unfold step_wait, wg_Wait in Hstep.
    destruct (waiter s); destruct (wg s =? 0); try discriminate;
      injection Hstep as <-; by split.
Qed.

Lemma reachable_never_locks s : reachable ms h0 s -> never_locks s.
Proof.
  intros Hreach. generalize (reachable_invariant ms h0 s Hreach).
  revert s Hreach.
  apply (reachable_ind ms h0 (fun s => invariant ms s -> never_locks s)).
  - intros _. by split.
  - intros t s s' Hreach IH Hstep _.
    pose proof (reachable_invariant ms h0 s Hreach) as Hinv.
    exact (never_locks_step t s s' Hinv (IH Hinv) Hstep).
Qed.

End Bare.

(** ** The loop does not depend on the goroutines *)

Section Independence.

Context {HS : Type} (ms : MessageServer HS) (h0 : HS).

Implicit Types (s : State HS) (g : Goroutine HS).

Lemma serve_only_snoc (sched : list Tid) (t : Tid) :
  serve_only (sched ++ [t]) =
  serve_only sched ++ match t with TServe => [TServe] | _ => [] end.
Proof. unfold serve_only. rewrite omap_app. by destruct t. Qed.

(** A step of [Serve] is a function of what the loop has done. *)
Lemma step_serve_view s0 s s' :
  loop_view s0 = loop_view s -> step_serve ms s = Some s' ->
  exists s0', step_serve ms s0 = Some s0' /\ loop_view s0' = loop_view s'.
Proof.
  unfold loop_view, dispatched. intros Hv Hstep.
  injection Hv as Hserve Hdec Hdisp Hlog.
  unfold step_serve in *. rewrite Hserve, Hdec.
  destruct (serve s) as [|mw msg|mw msg|r] eqn:Hpc; [| | |done].
  - destruct (InDecoder ms (decoded s)) as [msg err].
    destruct (stream_ended err); [|destruct err as [e|]];
      injection Hstep as <-; eexists; (split; [done|]); simpl;
      rewrite ?decode_log_app, ?Hdec, ?Hlog, ?Hdisp, ?Hserve, ?Hpc; done.
  - injection Hstep as <-. eexists. split; [done|]. simpl.
    destruct (wg_Add_frame 1 s) as (-> & _ & _ & -> & _ & _ & ->).
    destruct (wg_Add_frame 1 s0) as (-> & _ & _ & -> & _ & _ & ->).
    by rewrite Hdec, Hlog, Hdisp.
  - injection Hstep as <-. eexists. split; [done|]. simpl.
    by rewrite !map_app, Hdec, Hlog, Hdisp.
Qed.

Lemma no_wait_serve_only (sched : list Tid) :
  no_wait (serve_only sched) = true.
Proof. induction sched as [|[|i|] sched IH]; simpl; done. Qed.

(** Whatever the goroutines and the callers of [Wait] do in between,
    [Serve] does what it does when it runs alone. *)
Lemma serve_alone (sched : list Tid) s :
  run ms sched (initial h0) = Some s ->
  exists s0, run ms (serve_only sched) (initial h0) = Some s0 /\
             loop_view s0 = loop_view s.
Proof.
  revert s. induction sched as [|t sched IH] using rev_ind; intros s Hrun.
  - injection Hrun as <-. by exists (initial h0).
  - apply run_snoc in Hrun as (s1 & Hrun & Hstep).
    destruct (IH s1 Hrun) as (s0 & Hrun0 & Hv).
    rewrite serve_only_snoc.
    assert (Hal0 : crashed s0 = None).
    { apply (alive_no_wait ms (serve_only sched) (initial h0));
        [apply invariant_initial | done | apply no_wait_serve_only | done]. }
    step_cases Hstep.
    + destruct (step_serve_view s0 s1 s Hv Hstep) as (s0' & Hstep0 & Hv').
      exists s0'. split; [|done]. apply run_snoc. exists s0. split; [done|].
      unfold step. by rewrite Hal0.
    + exists s0. rewrite app_nil_r. split; [done|]. rewrite Hv.
      symmetry. by apply (goroutine_keeps_loop i).
    + exists s0. rewrite app_nil_r. split; [done|]. rewrite Hv.
      symmetry. by apply wait_keeps_loop.
Qed.

End Independence.

(** ** One call of [SyncEncoder.Encode], undisturbed *)

Section EncodeCall.

Context {HS : Type} (ms : MessageServer HS).

Implicit Types (s : State HS) (g : Goroutine HS).

Lemma same_but_writes_refl s : same_but_writes s s.
Proof. by repeat split. Qed.

Lemma same_but_writes_trans s1 s2 s3 :
  same_but_writes s1 s2 -> same_but_writes s2 s3 -> same_but_writes s1 s3.
Proof.
  unfold same_but_writes. intros (?&?&?&?&?&?&?) (?&?&?&?&?&?&?).
  repeat split; congruence.
Qed.

(** The writes of the underlying encoder, one step each. *)
Lemma run_writes (i : nat) (locked : bool) (rest : list byte)
    (o : EncodeOutcome) (k : error -> HandlerBody HS) s g :
  crashed s = None -> goroutines s !! i = Some g ->
  g_pc g = GEncode locked rest o k ->
  exists s', run ms (repeat (TGo i) (length rest)) s = Some s' /\
             out s' = out s ++ rest /\ mu s' = mu s /\
             goroutines s' = <[i := with_pc g (GEncode locked [] o k)]> (goroutines s) /\
             same_but_writes s s'.
Proof.
  revert s g. induction rest as [|b rest IH]; intros s g Hal Hg Hpc.
  - exists s. simpl. rewrite app_nil_r. repeat split; try done.
    rewrite list_insert_id; [done|]. rewrite Hg. f_equal.
    destruct g. simpl in *. by rewrite Hpc.
  - set (s1 := set_pc i g (GEncode locked rest o k) (set_out (out s ++ [b]) s)).
    assert (Hstep : step ms (TGo i) s = Some s1).
    { unfold step, step_goroutine. rewrite Hal, Hg. simpl. rewrite Hpc.
      by destruct locked. }
    assert (Hi : (i < length (goroutines s))%nat) by by apply lookup_lt_Some in Hg.
    destruct (IH s1 (with_pc g (GEncode locked rest o k))) as
      (s' & Hrun & Hout & Hmu & Hgs & Hsame); [done | | done |].
    { simpl. by apply list_lookup_insert_eq. }
    exists s'. simpl length. simpl repeat. simpl run. rewrite Hstep.
    split; [done|]. rewrite Hout, Hmu, Hgs. simpl.
    rewrite <- app_assoc. repeat split; try done.
    + by rewrite list_insert_insert_eq.
    + apply Hsame.
    + apply Hsame.
    + apply Hsame.
    + apply Hsame.
    + apply Hsame.
    + apply Hsame.
    + apply Hsame.
Qed.

End EncodeCall.

(** ** More on decoders given by their first results *)

Section MoreStreams.

Implicit Types (d : Decoder) (rs : list (Message * error)).

Lemma stream_ended_iff (r : error) :
  stream_ended r = true <-> r = Some EOF \/ r = Some ErrUnexpectedEOF.
Proof.
  split.
  - destruct r as [[| |what]|]; simpl; try done; auto.
  - by intros [->| ->].
Qed.

Lemma decode_errors_reads d rs :
  reads d rs -> decode_errors d (length rs) = omap error_entry rs.
Proof.
  induction rs as [|r rs IH] using rev_ind; intros H; [done|].
  rewrite length_app, Nat.add_1_r, decode_errors_S, omap_app.
  rewrite (IH (reads_app _ _ _ H)), (reads_last _ _ _ H). simpl.
  unfold error_entry. by destruct (snd r) as [[| |what]|].
Qed.

Lemma omap_error_well_formed (msgs : list Message) :
  omap error_entry (well_formed <$> msgs) = [].
Proof. induction msgs as [|m msgs IH]; simpl; [done | exact IH]. Qed.

Lemma one_malformed_length (before after : list Message)
    (partial : Message) (e : GoError) :
  length ((well_formed <$> before) ++ (partial, Some e) ::
          (well_formed <$> after)) =
  (length before + 1 + length after)%nat.
Proof. rewrite length_app. simpl. rewrite !length_fmap. lia. Qed.

Lemma one_malformed_ends d (before after : list Message)
    (partial : Message) (e : GoError) :
  stream_ended (Some e) = false ->
  one_malformed_stream d before partial e after ->
  ends_at d (length before + 1 + length after).
Proof.
  intros He [Hr Hend]. split; [|by rewrite Hend].
  intros k Hk. apply (reads_not_ended d _ k Hr).
  - apply Forall_app. split; [apply well_formed_not_ended|].
    apply Forall_cons. split; [done | apply well_formed_not_ended].
  - by rewrite one_malformed_length.
Qed.

End MoreStreams.

(** * The claims *)

(** ** The loop of [Serve] and its input *)

Section LoopClaims.

Context {HS : Type} (ms : MessageServer HS) (h0 : HS).

Implicit Types (s : State HS) (g : Goroutine HS).

Lemma dispatched_before_end (n : nat) s :
  ends_at (InDecoder ms) n -> reachable ms h0 s ->
  exists k, (k <= n)%nat /\ dispatched s = decoded_ok (InDecoder ms) k.
Proof.
  intros Hends Hreach.
  pose proof (reachable_serve_invariant ms h0 s Hreach) as Hsinv.
  destruct (serve s) as [|mw msg|mw msg|r] eqn:Hpc.
  1-3: pose proof (running_before ms n s Hends Hsinv) as Hle;
       rewrite Hpc in Hle; specialize (Hle ltac:(done)).
  1-3: destruct Hsinv as [Hp _]; unfold serve_progress in Hp;
       rewrite Hpc in Hp.
  - destruct Hp as [_ Hd]. by exists (decoded s).
  - destruct Hp as [_ (k & Hk & _ & Hd)]. exists k. split; [lia|done].
  - destruct Hp as [_ (k & Hk & _ & Hd)]. exists k. split; [lia|done].
  - destruct (returned_at ms n s r Hends Hsinv Hpc) as (_ & _ & Hd).
    by exists n.
Qed.

(** A step of a goroutine leaves the others as they are. *)
Lemma goroutine_step_others (i j : nat) s s' :
  step_goroutine i s = Some s' -> j <> i ->
  goroutines s' !! j = goroutines s !! j.
Proof.
  intros Hstep Hne. inv_goroutine_step Hstep.
  all: repeat match type of Hstep with
       | (if ?c then _ else _) = _ => destruct c
       end; try discriminate Hstep; injection Hstep as <-.
  all: destruct (wg_Add_frame (-1) s) as (_ & _ & _ & _ & _ & _ & Hgs).
  all: simpl; rewrite ?Hgs; try done.
  all: by apply list_lookup_insert_ne.
Qed.

(** What is left of a handler body as it runs. *)
Lemma continues_refl (p : HandlerBody HS) : continues p p.
Proof. destruct p; by left. Qed.

Lemma continues_trans (p q r : HandlerBody HS) :
  continues p q -> continues q r -> continues p r.
Proof.
  induction p as [|r0| |f k IH|m k IH]; intros [->|Hpq] Hqr; try done.
  - destruct Hpq as [h Hpq]. right. exists h. by apply IH.
  - destruct Hpq as [err Hpq]. right. exists err. by apply IH.
Qed.

Lemma continues_atomic (p : HandlerBody HS) f k (h : HS) :
  continues p (HAtomic f k) -> continues p (k h).
Proof.
  intros H. apply (continues_trans _ _ _ H). right. exists h.
  apply continues_refl.
Qed.

Lemma continues_write (p : HandlerBody HS) m k (err : error) :
  continues p (HWriteMessage m k) -> continues p (k err).
Proof.
  intros H. apply (continues_trans _ _ _ H). right. exists err.
  apply continues_refl.
Qed.

Lemma in_call_deliver (p : HandlerBody HS) (o : EncodeOutcome) k :
  (exists m, continues p (HWriteMessage m k)) -> in_call p (deliver o k).
Proof.
  intros [m H]. destruct o as [err|r]; simpl; [|done].
  by apply (continues_write p m).
Qed.

(** The goroutine that moves keeps its message and its writer, stays in
    the call of its handler, and does not come back to a handler that
    is over. *)
Lemma goroutine_step_self (i : nat) s s' :
  step_goroutine i s = Some s' ->
  length (goroutines s') = length (goroutines s) /\
  exists g g', goroutines s !! i = Some g /\ goroutines s' !! i = Some g' /\
    g_msg g' = g_msg g /\ g_mw g' = g_mw g /\
    (handler_over g = true -> handler_over g' = true) /\
    (forall p, in_call p (g_pc g) -> in_call p (g_pc g')).
Proof.
  intros Hstep. inv_goroutine_step Hstep.
  all: repeat match type of Hstep with
       | (if ?c then _ else _) = _ => destruct c
       end; try discriminate Hstep; injection Hstep as <-.
  all: destruct (wg_Add_frame (-1) s) as (_ & _ & _ & _ & _ & _ & Hgs).
  all: simpl; rewrite ?Hgs, ?length_insert; split; [done|].
  all: exists g.
  all: try (exists g; unfold handler_over; rewrite Hpc; by repeat split).
  all: eexists; split; [done|];
       split; [apply list_lookup_insert_eq; by apply lookup_lt_Some in Hg|].
  all: unfold handler_over; simpl; rewrite Hpc; repeat split; try done.
  all: intros p Hin; simpl in *.
  - by apply (continues_atomic p f).
  - unfold WriteMessage, Encode. destruct (emw_Encoder (g_mw g)); simpl;
      [by exists m | done].
  - by exists m.
  - by apply in_call_deliver.
  - by apply in_call_deliver.
Qed.

(** Goroutines are started by [Serve] only, each at the call of the
    handler function on its message; the ones there are stay, with
    their messages. *)
Lemma step_goroutines t s s' :
  step ms t s = Some s' ->
  (forall (i : nat) g, goroutines s !! i = Some g ->
     exists g', goroutines s' !! i = Some g' /\
       g_msg g' = g_msg g /\ g_mw g' = g_mw g /\
       (handler_over g = true -> handler_over g' = true) /\
       (forall p, in_call p (g_pc g) -> in_call p (g_pc g'))) /\
  (forall (j : nat) g, (length (goroutines s) <= j)%nat ->
     goroutines s' !! j = Some g -> t = TServe /\ calls_handler ms g).
Proof.
  intros Hstep.
  assert (Hsame : goroutines s' = goroutines s ->
    (forall (i : nat) g, goroutines s !! i = Some g ->
       exists g', goroutines s' !! i = Some g' /\
         g_msg g' = g_msg g /\ g_mw g' = g_mw g /\
         (handler_over g = true -> handler_over g' = true) /\
         (forall p, in_call p (g_pc g) -> in_call p (g_pc g'))) /\
    (forall (j : nat) g, (length (goroutines s) <= j)%nat ->
       goroutines s' !! j = Some g -> t = TServe /\ calls_handler ms g)).
  { intros ->. split; [intros i g Hg; by exists g|].
    intros j g Hj Hg. apply lookup_lt_Some in Hg. lia. }
  step_cases Hstep.
  - unfold step_serve in Hstep.
    destruct (serve s) as [|mw msg|mw msg|r] eqn:Hs.
    + destruct (InDecoder ms (decoded s)) as [msg err].
      destruct (stream_ended err); [|destruct err as [e|]];
        injection Hstep as <-; by apply Hsame.
    + injection Hstep as <-. apply Hsame. simpl.
      by destruct (wg_Add_frame 1 s) as (_ & _ & _ & _ & _ & _ & ->).
    + injection Hstep as <-. simpl. split.
      * intros i g Hg. exists g. split; [by apply lookup_app_l_Some | done].
      * intros j g Hj Hg. split; [done|].
        rewrite lookup_app_r in Hg by done.
        apply list_lookup_singleton_Some in Hg as [_ <-]. done.
    + done.
  - destruct (goroutine_step_self i s s' Hstep)
      as (Hlen & g0 & g' & Hg0 & Hg' & Hm & Hw & Hov & Hin). split.
    + intros j g Hg. destruct (decide (j = i)) as [->|Hne].
      * rewrite Hg0 in Hg. injection Hg as <-. by exists g'.
      * exists g. by rewrite (goroutine_step_others i j s s' Hstep).
    + intros j g Hj Hg. apply lookup_lt_Some in Hg. lia.
  - apply Hsame. unfold step_wait, wg_Wait in Hstep.
    destruct (waiter s); destruct (wg s =? 0); try discriminate;
      by injection Hstep as <-.
Qed.

(** Every goroutine is inside the one call of the handler function on
    its own message, or that call is over. *)
Lemma reachable_in_call s :
  reachable ms h0 s ->
  forall (i : nat) g, goroutines s !! i = Some g ->
    in_call (MessageHandler ms (g_msg g)) (g_pc g).
Proof.
  revert s. apply (reachable_ind ms h0 (fun s => forall (i : nat) g,
    goroutines s !! i = Some g ->
    in_call (MessageHandler ms (g_msg g)) (g_pc g))); [done|].
  intros t s s' _ IH Hstep i g' Hg'.
  destruct (step_goroutines t s s' Hstep) as [Hold Hnew].
  destruct (decide (i < length (goroutines s))%nat) as [Hlt|Hge].
  - apply lookup_lt_is_Some_2 in Hlt as [g Hg].
    destruct (Hold i g Hg) as (g'' & Hg'' & Hm & _ & _ & Hin).
    rewrite Hg' in Hg''. injection Hg'' as <-. rewrite Hm.
    apply Hin. by apply (IH i).
  - destruct (Hnew i g' ltac:(lia) Hg') as [_ Hc]. unfold calls_handler in Hc.
    rewrite Hc. apply continues_refl.
Qed.

(** [Serve] running alone starts its goroutines and moves no other. *)
Lemma serve_run_starts (k : nat) s s' :
  run ms (repeat TServe k) s = Some s' ->
  exists new, goroutines s' = goroutines s ++ new /\
              Forall (calls_handler ms) new.
Proof.
  revert s. induction k as [|k IH]; intros s Hrun.
  - injection Hrun as <-. exists []. by rewrite app_nil_r.
  - simpl in Hrun. destruct (step ms TServe s) as [s1|] eqn:Hstep; [|done].
    destruct (IH s1 Hrun) as (new & Hgs & Hnew).
    assert (H1 : exists new1, goroutines s1 = goroutines s ++ new1 /\
                   Forall (calls_handler ms) new1).
    { pose proof (step_alive ms TServe s s1 Hstep) as Hal.
      unfold step in Hstep. rewrite Hal in Hstep. unfold step_serve in Hstep.
      destruct (serve s) as [|mw msg|mw msg|r] eqn:Hs.
      - destruct (InDecoder ms (decoded s)) as [msg err].
        destruct (stream_ended err); [|destruct err as [e|]];
          injection Hstep as <-; exists []; by rewrite app_nil_r.
      - injection Hstep as <-. exists []. rewrite app_nil_r. split; [|done].
        simpl. by destruct (wg_Add_frame 1 s) as (_ & _ & _ & _ & _ & _ & ->).
      - injection Hstep as <-. eexists. split; [reflexivity|].
        by apply Forall_singleton.
      - done. }
    destruct H1 as (new1 & Hgs1 & Hnew1). exists (new1 ++ new).
    rewrite Hgs, Hgs1, app_assoc. split; [done | by apply Forall_app].
Qed.

(** C1: on an input of N well-formed messages followed by the end of the
    stream, [Serve] calls the handler exactly N times, once per decoded
    message, in the order of the messages on the input.  In every state
    the messages dispatched so far are the first ones of the input, in
    order; when [Serve] has returned they are all N of them; and
    [Serve], left to run in a live process, does return, with [io.EOF],
    each goroutine it has started on the way standing at the call of
    the handler function on its message, whatever the goroutines before
    them have done.  [HandleMessage] applies the handler function to
    the message; every goroutine has the writer of the server and is
    inside the one call of the handler function on its own message, or
    that call is over; and a step starts a goroutine only when it is
    [Serve]'s, at that call, and leaves each goroutine its message, its
    writer and its one call: a handler that is over is not called
    again. *)
Theorem C1_dispatch_in_arrival_order (msgs : list Message) s :
  well_formed_stream (InDecoder ms) msgs ->
  reachable ms h0 s ->
  dispatched s `prefix_of` msgs /\
  (forall r, serve s = PCReturned r ->
     r = Some EOF /\ dispatched s = msgs /\
     length (goroutines s) = length msgs) /\
  (crashed s = None ->
   exists k s', run ms (repeat TServe k) s = Some s' /\
     serve s' = PCReturned (Some EOF) /\ dispatched s' = msgs /\
     length (goroutines s') = length msgs /\
     exists new, goroutines s' = goroutines s ++ new /\
                 Forall (calls_handler ms) new) /\
  (forall (f : MessageHandlerFunc HS) (m : Message),
     HandleMessage f m = f m) /\
  (forall (i : nat) g, goroutines s !! i = Some g ->
     g_mw g = writer_of ms /\
     in_call (MessageHandler ms (g_msg g)) (g_pc g)) /\
  (forall t s', step ms t s = Some s' ->
     (forall (i : nat) g, goroutines s !! i = Some g ->
        exists g', goroutines s' !! i = Some g' /\
          g_msg g' = g_msg g /\ g_mw g' = g_mw g /\
          (handler_over g = true -> handler_over g' = true) /\
          (forall p, in_call p (g_pc g) -> in_call p (g_pc g'))) /\
     (forall (j : nat) g, (length (goroutines s) <= j)%nat ->
        goroutines s' !! j = Some g -> t = TServe /\ calls_handler ms g)).
Proof.
  intros Hwf Hreach. pose proof (well_formed_stream_ends _ _ Hwf) as Hends.
  destruct Hwf as [Hr Heof].
  assert (Hall : decoded_ok (InDecoder ms) (length msgs) = msgs).
  { rewrite <- (length_fmap well_formed msgs) at 1.
    rewrite (decoded_ok_reads _ _ Hr). apply omap_well_formed. }
  split; [|split; [|split; [|split; [|split]]]].
  - destruct (dispatched_before_end _ s Hends Hreach) as (k & Hk & ->).
    rewrite (decoded_ok_take _ _ k Hr) by by rewrite length_fmap.
    rewrite <- fmap_take, omap_well_formed. apply prefix_take.
  - intros r Hpc.
    pose proof (reachable_serve_invariant ms h0 s Hreach) as Hsinv.
    destruct (returned_at ms _ s r Hends Hsinv Hpc) as (-> & _ & Hd).
    rewrite Hall in Hd. repeat split; [done..|].
    rewrite <- Hd. unfold dispatched. by rewrite length_map.
  - intros Hal. destruct (serve_returns ms h0 _ s Hends Hreach Hal)
      as (k & s' & Hrun & Hret & Hd & _).
    exists k, s'. rewrite Heof in Hret. rewrite Hall in Hd.
    split; [done|]. split; [done|]. split; [done|]. split.
    + rewrite <- Hd. unfold dispatched. by rewrite length_map.
    + by apply (serve_run_starts k).
  - done.
  - intros i g Hg. split.
    + by apply (inv_mw ms s (reachable_invariant ms h0 s Hreach) i).
    + by apply (reachable_in_call s Hreach i).
  - intros t s'. apply step_goroutines.
Qed.

(** C3: [Serve] has returned exactly when its last [Decode] gave
    [io.EOF] or [io.ErrUnexpectedEOF], and it returns that very error;
    no step of a goroutine (a handler returning, panicking or writing)
    or of a caller of [Wait] changes where [Serve] is. *)
Theorem C3_returns_only_on_stream_end s :
  reachable ms h0 s ->
  (forall r, serve s = PCReturned r <->
     exists k, decoded s = S k /\ snd (InDecoder ms k) = r /\
               (r = Some EOF \/ r = Some ErrUnexpectedEOF)) /\
  (forall t s', t <> TServe -> step ms t s = Some s' ->
     serve s' = serve s /\ decoded s' = decoded s).
Proof.
  intros Hreach. split.
  - intros r. destruct (reachable_serve_invariant ms h0 s Hreach) as [Hp _].
    unfold serve_progress in Hp. split.
    + intros Hpc. rewrite Hpc in Hp.
      destruct Hp as (k & Hk & Hr & He & _). exists k.
      by rewrite <- stream_ended_iff.
    + intros (k & Hk & Hr & He). apply stream_ended_iff in He.
      destruct (serve s) as [|mw msg|mw msg|r'].
      * destruct Hp as [Hrun _]. rewrite <- Hr, Hrun in He by lia. done.
      * destruct Hp as [Hrun _]. rewrite <- Hr, Hrun in He by lia. done.
      * destruct Hp as [Hrun _]. rewrite <- Hr, Hrun in He by lia. done.
      * destruct Hp as (k' & Hk' & Hr' & _).
        assert (k' = k) as -> by lia. congruence.
  - intros t s' Ht Hstep.
    pose proof (others_keep_loop ms t s s' Ht Hstep) as Hv.
    unfold loop_view in Hv. by injection Hv as -> -> _ _.
Qed.

(** C4: a [Decode] that fails with an error other than [io.EOF] and
    [io.ErrUnexpectedEOF] is logged, what it left in [msg] is dropped
    and the loop goes on; so with one malformed message in an input of
    well-formed ones, [Serve] left to run starts the handler for every
    message before and after it, in order, for nothing else, and
    returns [io.EOF]. *)
Theorem C4_malformed_message_skipped :
  (forall s (partial : Message) (e : GoError),
     crashed s = None -> serve s = PCDecode ->
     InDecoder ms (decoded s) = (partial, Some e) ->
     stream_ended (Some e) = false ->
     step ms TServe s =
       Some (set_logged (logged s ++ [LogDecodeError e])
               (set_decoded (S (decoded s)) s))) /\
  (forall (before after : list Message) (partial : Message) (e : GoError) s,
     stream_ended (Some e) = false ->
     one_malformed_stream (InDecoder ms) before partial e after ->
     reachable ms h0 s -> crashed s = None ->
     exists k s', run ms (repeat TServe k) s = Some s' /\
       serve s' = PCReturned (Some EOF) /\
       dispatched s' = before ++ after /\
       decode_log (logged s') = [LogDecodeError e]).
Proof.
  split.
  - intros s partial e Hal Hpc Hd He. unfold step, step_serve.
    by rewrite Hal, Hpc, Hd, He.
  - intros before after partial e s He Hone Hreach Hal.
    pose proof (one_malformed_ends _ _ _ _ _ He Hone) as Hends.
    destruct Hone as [Hr Heof].
    destruct (serve_returns ms h0 _ s Hends Hreach Hal)
      as (k & s' & Hrun & Hret & Hd & Hl).
    exists k, s'. rewrite Heof in Hret.
    rewrite <- one_malformed_length with (partial := partial) (e := e)
      in Hd, Hl.
    rewrite (decoded_ok_reads _ _ Hr) in Hd.
    rewrite (decode_errors_reads _ _ Hr) in Hl.
    rewrite omap_app in Hd. rewrite omap_app in Hl.
    destruct e as [| |what]; [done..|]. simpl in Hd, Hl.
    rewrite !omap_well_formed in Hd. rewrite !omap_error_well_formed in Hl.
    repeat split; try done.
Qed.

End LoopClaims.

(** ** A decoder that does not recover *)

Section SpinClaims.

Context {HS : Type} (ms : MessageServer HS) (h0 : HS).

Implicit Types (s : State HS) (g : Goroutine HS).

Lemma decoded_ok_all_errors (e : GoError) (n : nat) :
  (forall k, snd (InDecoder ms k) = Some e) ->
  decoded_ok (InDecoder ms) n = [].
Proof.
  intros He. induction n as [|n IH]; [done|].
  by rewrite decoded_ok_S, IH, He.
Qed.

Lemma decode_errors_all_errors (e : GoError) (n : nat) :
  stream_ended (Some e) = false ->
  (forall k, snd (InDecoder ms k) = Some e) ->
  decode_errors (InDecoder ms) n = repeat (LogDecodeError e) n.
Proof.
  intros Hne He. induction n as [|n IH]; [done|].
  rewrite decode_errors_S, IH, He, Hne. simpl. by rewrite repeat_cons.
Qed.

(** C8: [Serve] returns only on a [Decode] that gives [io.EOF] or
    [io.ErrUnexpectedEOF]; when every [Decode] gives the same other
    error, [Serve] is at the top of its loop in every state, has started
    no goroutine and has logged that error once per attempt, and left
    to run it makes any number of attempts: the loop spins for ever. *)
Theorem C8_spins_on_recoverable_error :
  (forall s r, reachable ms h0 s -> serve s = PCReturned r ->
     exists k, snd (InDecoder ms k) = r /\
               (r = Some EOF \/ r = Some ErrUnexpectedEOF)) /\
  (forall e : GoError,
     stream_ended (Some e) = false ->
     (forall k, snd (InDecoder ms k) = Some e) ->
     (forall s, reachable ms h0 s ->
        serve s = PCDecode /\ goroutines s = [] /\
        decode_log (logged s) = repeat (LogDecodeError e) (decoded s)) /\
     (forall n : nat, exists s,
        run ms (repeat TServe n) (initial h0) = Some s /\
        decoded s = n /\ serve s = PCDecode)).
Proof.
  split.
  - intros s r Hreach Hpc.
    destruct (reachable_serve_invariant ms h0 s Hreach) as [Hp _].
    unfold serve_progress in Hp. rewrite Hpc in Hp.
    destruct Hp as (k & _ & Hr & He & _). exists k.
    by rewrite <- stream_ended_iff.
  - intros e Hne He.
    assert (Hstate : forall s, reachable ms h0 s ->
              serve s = PCDecode /\ goroutines s = [] /\
              decode_log (logged s) = repeat (LogDecodeError e) (decoded s)).
    { intros s Hreach.
      destruct (reachable_serve_invariant ms h0 s Hreach) as [Hp Hl].
      rewrite (decode_errors_all_errors e _ Hne He) in Hl.
      unfold serve_progress in Hp. destruct (serve s) as [|mw msg|mw msg|r].
      - destruct Hp as [_ Hd].
        rewrite (decoded_ok_all_errors e _ He) in Hd.
        repeat split; [|done]. by apply map_eq_nil in Hd.
      - destruct Hp as [_ (k & _ & Hk & _)].
        specialize (He k). rewrite Hk in He. done.
      - destruct Hp as [_ (k & _ & Hk & _)].
        specialize (He k). rewrite Hk in He. done.
      - destruct Hp as (k & _ & Hr & Hend & _).
        rewrite <- Hr, He, Hne in Hend. done. }
    split; [exact Hstate|].
    induction n as [|n IH]; [by exists (initial h0)|].
    destruct IH as (s & Hrun & Hdec & Hpc).
    assert (Hreach : reachable ms h0 s) by by exists (repeat TServe n).
    assert (Hal : crashed s = None).
    { by apply (alive_no_wait ms (repeat TServe n) (initial h0));
        [apply invariant_initial | | apply no_wait_repeat_serve |]. }
    exists (set_logged (logged s ++ [LogDecodeError e])
              (set_decoded (S (decoded s)) s)).
    split; [|by simpl; rewrite Hdec].
    change (repeat TServe (S n)) with (TServe :: repeat TServe n).
    rewrite repeat_cons. apply run_snoc. exists s. split; [done|].
    unfold step, step_serve. rewrite Hal, Hpc.
    specialize (He (decoded s)).
    destruct (InDecoder ms (decoded s)) as [msg err]. simpl in He.
    by rewrite He, Hne.
Qed.

(** C9: a [Decode] that fails with an error other than [io.EOF] and
    [io.ErrUnexpectedEOF] leaves the server as it was: no goroutine is
    started, [wg] is not incremented, nothing is written to the output,
    and [Serve] is back at the top of its loop. *)
Theorem C9_recoverable_error_leaves_state s (partial : Message)
    (e : GoError) :
  crashed s = None -> serve s = PCDecode ->
  InDecoder ms (decoded s) = (partial, Some e) ->
  stream_ended (Some e) = false ->
  exists s', step ms TServe s = Some s' /\
    goroutines s' = goroutines s /\ wg s' = wg s /\ out s' = out s /\
    mu s' = mu s /\ hstate s' = hstate s /\ waiter s' = waiter s /\
    serve s' = PCDecode /\ crashed s' = None.
Proof.
  intros Hal Hpc Hd He. eexists. split.
  - unfold step, step_serve. by rewrite Hal, Hpc, Hd, He.
  - by simpl.
Qed.

End SpinClaims.

(** ** The goroutines, [Wait] and the writers *)

Section GoroutineClaims.

Context {HS : Type} (ms : MessageServer HS) (h0 : HS).

Implicit Types (s : State HS) (g : Goroutine HS).

Lemma run_app_Some (a b : list Tid) s s1 (r : option (State HS)) :
  run ms a s = Some s1 -> run ms b s1 = r -> run ms (a ++ b) s = r.
Proof. intros Ha Hb. by rewrite run_app, Ha. Qed.

Lemma lookup_moved (i : nat) g pc (gs : list (Goroutine HS)) :
  gs !! i = Some g -> <[i := with_pc g pc]> gs !! i = Some (with_pc g pc).
Proof. intros Hg. apply list_lookup_insert_eq. by apply lookup_lt_Some in Hg. Qed.

(** C5: a handler that panics does not take the process down.  No
    reachable state is a process dead of a panic, and with no caller of
    [Wait] none is dead at all; the goroutine of a panicking handler,
    left to run, recovers the panic, logs it with the stack of that
    goroutine, calls [wg.Done()] and exits, and touches nothing else:
    not where [Serve] is, not the other goroutines, not the output; and
    what [Serve] reads, dispatches and logs is what it does when no
    goroutine runs at all. *)
Theorem C5_handler_panic_contained (sched : list Tid) s :
  run ms sched (initial h0) = Some s ->
  (forall r, crashed s <> Some (FatalPanic r)) /\
  (no_wait sched = true -> crashed s = None) /\
  (forall (i : nat) g r,
     crashed s = None ->
     goroutines s !! i = Some g -> g_pc g = GHandle (HPanic r) ->
     exists s', run ms (repeat (TGo i) 4) s = Some s' /\
       logged s' = logged s ++ [LogPanic r (debug_Stack i)] /\
       wg s' = wg s - 1 /\
       goroutines s' = <[i := with_pc g GExited]> (goroutines s) /\
       crashed s' = None /\ serve s' = serve s /\ decoded s' = decoded s /\
       out s' = out s /\ mu s' = mu s /\ hstate s' = hstate s /\
       waiter s' = released (wg s - 1) (waiter s)) /\
  (exists s0, run ms (serve_only sched) (initial h0) = Some s0 /\
     loop_view s0 = loop_view s).
Proof.
  intros Hrun. assert (Hreach : reachable ms h0 s) by by exists sched.
  pose proof (reachable_invariant ms h0 s Hreach) as Hinv.
  split; [|split; [|split; [|by apply serve_alone]]].
  - intros r Hr. by pose proof (inv_crash ms s Hinv _ Hr).
  - intros Hnw.
    by apply (alive_no_wait ms sched (initial h0));
      [apply invariant_initial | | |].
  - intros i g r Hal Hg Hpc.
    pose proof (in_flight_lookup _ _ _ Hg) as Hfl.
    unfold owes in Hfl. rewrite Hpc in Hfl.
    pose proof (inv_wg ms s Hinv) as Hwg.
    pose proof (about_to_go_nonneg (serve s)) as Hgo.
    set (g1 := with_pc g (GUnwind (Some r) goroutine_defers)).
    set (s1 := set_pc i g (GUnwind (Some r) goroutine_defers) s).
    set (g2 := with_pc g1 (GUnwind None [DeferWgDone])).
    set (s2 := set_pc i g1 (GUnwind None [DeferWgDone])
                 (set_logged (logged s1 ++ [LogPanic r (debug_Stack i)]) s1)).
    set (g3 := with_pc g2 (GUnwind None [])).
    set (s3 := set_pc i g2 (GUnwind None []) (wg_Add (-1) s2)).
    set (s4 := set_pc i g3 GExited s3).
    destruct (wg_Add_frame (-1) s2) as (Hd & Hout & Hmu & Hlg & Hhs & Hse & Hgs).
    destruct (wg_Add_counter (-1) s2) as (Hv & Hc & Hw); [simpl; lia|].
    assert (Hi : (i < length (goroutines s))%nat)
      by by apply lookup_lt_Some in Hg.
    assert (H1 : step ms (TGo i) s = Some s1) by go_step Hal Hg Hpc.
    assert (H2 : step ms (TGo i) s1 = Some s2).
    { unfold step, step_goroutine. simpl.
      by rewrite Hal, list_lookup_insert_eq. }
    assert (H3 : step ms (TGo i) s2 = Some s3).
    { unfold step, step_goroutine. simpl.
      rewrite Hal, list_insert_insert_eq, list_lookup_insert_eq by done.
      simpl. destruct (wg s - 1 <? 0) eqn:Hneg; [lia|done]. }
    assert (H4 : step ms (TGo i) s3 = Some s4).
    { unfold step, step_goroutine. simpl. rewrite Hc, Hgs. simpl.
      by rewrite Hal, !list_insert_insert_eq, list_lookup_insert_eq. }
    exists s4. split.
    + simpl. rewrite H1, H2, H3, H4. done.
    + simpl. rewrite Hlg, Hv, Hgs, Hc, Hse, Hd, Hout, Hmu, Hhs, Hw. simpl.
      by rewrite !list_insert_insert_eq.
Qed.

(** ** [Wait] *)

Lemma owes_zero_over g : owes g = 0 -> handler_over g = true.
Proof. unfold owes, handler_over. by destruct (g_pc g). Qed.

Lemma drained s :
  invariant ms s -> wg s = 0 ->
  forall (i : nat) g, goroutines s !! i = Some g -> handler_over g = true.
Proof.
  intros Hinv Hz i g Hg. apply owes_zero_over.
  pose proof (in_flight_lookup _ _ _ Hg). pose proof (owes_nonneg g).
  pose proof (inv_wg ms s Hinv). pose proof (about_to_go_nonneg (serve s)).
  lia.
Qed.

(** What a step of a goroutine does to the counter and to the caller of
    [Wait]: nothing, or it is [wg.Done()] on a counter above zero. *)
Lemma goroutine_step_counter (i : nat) s s' :
  invariant ms s -> crashed s = None -> step_goroutine i s = Some s' ->
  (wg s' = wg s /\ waiter s' = waiter s) \/
  (1 <= wg s /\ wg s' = wg s - 1 /\
   waiter s' = released (wg s - 1) (waiter s)).
Proof.
  intros Hinv Hal Hstep.
  pose proof (goroutine_step_alive ms i s s' Hinv Hal Hstep) as Hal'.
  inv_goroutine_step Hstep.
  all: try (pose proof (done_positive ms s i g _ _ Hinv Hg Hpc) as Hpos;
            destruct (wg_Add_counter (-1) s) as (Hv & Hc & Hw); [lia|]).
  all: repeat match type of Hstep with
       | (if ?c then _ else _) = _ => destruct c eqn:?
       end; try discriminate Hstep; injection Hstep as <-.
  all: try (left; done).
  all: try (simpl in Hal'; congruence).
  all: try lia.
  all: right; simpl; by rewrite ?Hv, ?Hw.
Qed.

(** A caller of [Wait] sleeps only while a goroutine is in flight. *)
Lemma blocked_positive s :
  reachable ms h0 s -> crashed s = None -> waiter s = WaitBlocked ->
  0 < wg s.
Proof.
  revert s. apply (reachable_ind ms h0
    (fun s => crashed s = None -> waiter s = WaitBlocked -> 0 < wg s)).
  - done.
  - intros t s s' Hreach IH Hstep Hal' Hw'.
    pose proof (reachable_invariant ms h0 s Hreach) as Hinv.
    pose proof (invariant_wg_nonneg ms s Hinv) as Hnn.
    pose proof (step_alive ms t s s' Hstep) as Hal.
    specialize (IH Hal). unfold step in Hstep. rewrite Hal in Hstep.
    destruct t as [|i|].
    + unfold step_serve in Hstep.
      destruct (serve s) as [|mw msg|mw msg|r].
      * destruct (InDecoder ms (decoded s)) as [msg err].
        destruct (stream_ended err); [|destruct err as [e|]];
          injection Hstep as <-; by apply IH.
      * rewrite (wg_Add_one s Hnn) in Hstep. injection Hstep as <-.
        simpl in *. specialize (IH Hw'). lia.
      * injection Hstep as <-. by apply IH.
      * discriminate.
    + destruct (goroutine_step_counter i s s' Hinv Hal Hstep)
        as [[-> Hw]|(Hpos & -> & Hw)].
      * apply IH. congruence.
      * rewrite Hw in Hw'. unfold released in Hw'.
        destruct (wg s - 1 =? 0) eqn:Hz.
        -- by destruct (waiter s).
        -- apply Z.eqb_neq in Hz. lia.
    + unfold step_wait, wg_Wait in Hstep.
      destruct (waiter s); destruct (wg s =? 0) eqn:Hz;
        try discriminate; injection Hstep as <-; simpl in *;
        try discriminate.
      apply Z.eqb_neq in Hz. lia.
Qed.

Lemma drain_invariant_step t s s' :
  invariant ms s -> drain_invariant s -> call_allowed t s = true ->
  step ms t s = Some s' -> drain_invariant s'.
Proof.
  intros Hinv [Hal Hret Hzero] Hallowed Hstep.
  pose proof (invariant_wg_nonneg ms s Hinv) as Hnn.
  unfold step in Hstep. rewrite Hal in Hstep. destruct t as [|i|].
  - assert (Hw : waiter s = WaitNotCalled).
    { destruct (waiter s) eqn:Hw; [done| | |];
        destruct Hret as [r Hr]; try done;
        unfold step_serve in Hstep; by rewrite Hr in Hstep. }
    pose proof (serve_step_alive ms s s' Hinv Hal Hstep) as Hal'.
    assert (Hw' : waiter s' = WaitNotCalled).
    { unfold step_serve in Hstep.
      destruct (serve s) as [|mw msg|mw msg|r].
      - destruct (InDecoder ms (decoded s)) as [msg err].
        destruct (stream_ended err); [|destruct err as [e|]];
          by injection Hstep as <-.
      - rewrite (wg_Add_one s Hnn) in Hstep. by injection Hstep as <-.
      - by injection Hstep as <-.
      - discriminate. }
    split; [done | by rewrite Hw' | rewrite Hw'; by intros [?|?]].
  - pose proof (goroutine_step_alive ms i s s' Hinv Hal Hstep) as Hal'.
    pose proof (goroutine_keeps_loop i s s' Hstep) as Hv.
    unfold loop_view in Hv. injection Hv as Hserve _ _ _.
    destruct (goroutine_step_counter i s s' Hinv Hal Hstep)
      as [[Hwg Hw]|(Hpos & Hwg & Hw)].
    + split; [done | by rewrite Hw, Hserve | by rewrite Hw, Hwg].
    + assert (Hnz : ~ (waiter s = WaitWoken \/ waiter s = WaitReturned)).
      { intros H. specialize (Hzero H). lia. }
      split; [done | |].
      * rewrite Hw, Hserve. intros Hne. apply Hret. intros Hnc.
        rewrite Hnc in Hne. unfold released in Hne.
        by destruct (wg s - 1 =? 0).
      * rewrite Hw, Hwg. unfold released.
        destruct (wg s - 1 =? 0) eqn:Hz; [by apply Z.eqb_eq in Hz|].
        intros H. by destruct Hnz.
  - unfold step_wait, wg_Wait in Hstep. unfold call_allowed in Hallowed.
    destruct (waiter s) eqn:Hw.
    + destruct (serve s) as [| | |r] eqn:Hpc; try discriminate.
      destruct (wg s =? 0) eqn:Hz; injection Hstep as <-;
        split; simpl; try done; try (intros _; by exists r).
      * intros _. by apply Z.eqb_eq in Hz.
      * by intros [?|?].
    + discriminate.
    + rewrite Hzero in Hstep by by left. simpl in Hstep.
      injection Hstep as <-. split; simpl; try done.
      * intros _. by apply Hret.
      * intros _. apply Hzero. by left.
    + discriminate.
Qed.

Lemma drain_invariant_run (sched : list Tid) s s' :
  invariant ms s -> drain_invariant s ->
  waits_after_return ms sched s = true ->
  run ms sched s = Some s' -> drain_invariant s'.
Proof.
  revert s. induction sched as [|t sched IH]; intros s Hinv Hdr Hok Hrun.
  - by injection Hrun as <-.
  - simpl in Hok, Hrun. apply andb_true_iff in Hok as [Hallowed Hok].
    destruct (step ms t s) as [s1|] eqn:Hstep; [|done].
    apply (IH s1); [by apply (invariant_step ms t s) | | done | done].
    by apply (drain_invariant_step t s).
Qed.

(** C6, as the code has it: [wg] counts the goroutines in flight, so it
    is zero only when the handler of every goroutine started so far is
    over; a caller of [Wait] sleeps only while a goroutine is in flight,
    and [Wait] returns only from a state with the counter at zero and
    every handler over.  When [Wait] is called once [Serve] has
    returned, the process lives, a caller that has returned finds the
    counter at zero and every handler over for good, and with the
    counter at zero a caller that is awake returns. *)
Theorem C6_wait_for_drain (sched : list Tid) s :
  run ms sched (initial h0) = Some s ->
  wg s = in_flight (goroutines s) + about_to_go (serve s) /\
  (wg s = 0 ->
   forall (i : nat) g, goroutines s !! i = Some g -> handler_over g = true) /\
  (crashed s = None -> waiter s = WaitBlocked -> 0 < wg s) /\
  (forall s', step ms TWait s = Some s' -> waiter s' = WaitReturned ->
     wg s' = 0 /\
     forall (i : nat) g, goroutines s' !! i = Some g -> handler_over g = true) /\
  (waits_after_return ms sched (initial h0) = true ->
     crashed s = None /\
     (waiter s <> WaitNotCalled -> exists r, serve s = PCReturned r) /\
     (waiter s = WaitReturned ->
        wg s = 0 /\
        forall (i : nat) g, goroutines s !! i = Some g ->
          handler_over g = true) /\
     (wg s = 0 -> waiter s = WaitNotCalled \/ waiter s = WaitWoken ->
        step ms TWait s = Some (set_waiter WaitReturned s))).
Proof.
  intros Hrun. assert (Hreach : reachable ms h0 s) by by exists sched.
  pose proof (reachable_invariant ms h0 s Hreach) as Hinv.
  split; [apply (inv_wg ms s Hinv)|]. split; [by apply drained|].
  split; [by apply blocked_positive|]. split.
  - intros s' Hstep Hw'.
    pose proof (invariant_step ms TWait s s' Hinv Hstep) as Hinv'.
    assert (Hz : wg s' = 0); [|split; [done | by apply drained]].
    pose proof (step_alive ms TWait s s' Hstep) as Hal.
    unfold step, step_wait, wg_Wait in Hstep. rewrite Hal in Hstep.
    destruct (waiter s) eqn:Hw; destruct (wg s =? 0) eqn:Hz;
      try discriminate; injection Hstep as <-; simpl in *;
      try congruence; by apply Z.eqb_eq in Hz.
  - intros Hok.
    assert (Hdr : drain_invariant s).
    { apply (drain_invariant_run sched (initial h0));
        [apply invariant_initial | | done | done].
      split; simpl; [done | done | by intros [?|?]]. }
    destruct Hdr as [Hal Hret Hzero].
    split; [done|]. split; [done|]. split.
    + intros Hw. assert (Hz : wg s = 0) by (apply Hzero; by right).
      split; [done | by apply drained].
    + intros Hz Hw. unfold step, step_wait, wg_Wait. rewrite Hal.
      apply Z.eqb_eq in Hz. destruct Hw as [-> | ->]; by rewrite Hz.
Qed.

(** C7: one call of [SyncEncoder.Encode], the lock free and nobody in
    between.  Its first step locks [mu] and writes nothing; the call
    writes the bytes of the underlying [Encode] and nothing else, ends
    with [mu] unlocked however the underlying call ended (no error, an
    error, a panic), and hands the caller the error of the underlying
    call as it is; afterwards any call of [Encode] can take the lock.
    While [mu] is locked a call of [Encode] cannot move. *)
Theorem C7_sync_encoder_encode s (i : nat) g (se : SyncEncoder)
    (m : Message) (k : error -> HandlerBody HS) :
  crashed s = None -> goroutines s !! i = Some g ->
  g_pc g = Encode (EncSync se) m k -> mu s = false ->
  (exists s1, step ms (TGo i) s = Some s1 /\ mu s1 = true /\ out s1 = out s) /\
  (exists s',
     run ms (repeat (TGo i) (length (fst (se_Encoder se m)) + 3)) s = Some s' /\
     out s' = out s ++ fst (se_Encoder se m) /\ mu s' = false /\
     goroutines s' =
       <[i := with_pc g (deliver (snd (se_Encoder se m)) k)]> (goroutines s) /\
     same_but_writes s s' /\
     (forall err, snd (se_Encoder se m) = EncReturn err ->
        goroutines s' !! i = Some (with_pc g (GHandle (k err)))) /\
     (forall (j : nat) gj m' k',
        goroutines s' !! j = Some gj -> g_pc gj = Encode (EncSync se) m' k' ->
        is_Some (step ms (TGo j) s'))) /\
  (forall s1 (j : nat) gj m' k',
     mu s1 = true -> goroutines s1 !! j = Some gj ->
     g_pc gj = Encode (EncSync se) m' k' -> step ms (TGo j) s1 = None).
Proof.
  intros Hal Hg Hpc Hmu. simpl in Hpc.
  set (bytes := fst (se_Encoder se m)). set (o := snd (se_Encoder se m)).
  set (g1 := with_pc g (GEncode true bytes o k)).
  set (s1 := set_pc i g (GEncode true bytes o k) (set_mu true s)).
  assert (H1 : step ms (TGo i) s = Some s1).
  { unfold step, step_goroutine. rewrite Hal, Hg. simpl. by rewrite Hpc, Hmu. }
  split; [by exists s1|]. split.
  - assert (Hg1 : goroutines s1 !! i = Some g1).
    { simpl. by apply lookup_moved. }
    destruct (run_writes ms i true bytes o k s1 g1 Hal Hg1 eq_refl)
      as (s2 & Hrun2 & Hout2 & Hmu2 & Hgs2 & Hsame2).
    simpl in Hout2, Hmu2, Hgs2. rewrite list_insert_insert_eq in Hgs2.
    destruct Hsame2 as (Hd2 & Hwg2 & Hl2 & Hh2 & Hs2 & Hw2 & Hc2).
    simpl in Hd2, Hwg2, Hl2, Hh2, Hs2, Hw2, Hc2.
    set (g2 := with_pc g1 (GEncode true [] o k)).
    assert (Hg2 : goroutines s2 !! i = Some g2).
    { rewrite Hgs2, list_lookup_insert_eq; [done|].
      by apply lookup_lt_Some in Hg. }
    set (s3 := set_pc i g2 (GUnlock o k) s2).
    assert (H3 : step ms (TGo i) s2 = Some s3).
    { unfold step, step_goroutine. by rewrite Hc2, Hal, Hg2. }
    set (g3 := with_pc g2 (GUnlock o k)).
    set (s4 := set_pc i g3 (deliver o k) (set_mu false s3)).
    assert (H4 : step ms (TGo i) s3 = Some s4).
    { unfold step, step_goroutine. simpl. rewrite Hc2, Hal.
      rewrite (lookup_moved i g2 _ _ Hg2). simpl. by rewrite Hmu2. }
    assert (Hgs4 : goroutines s4 = <[i := with_pc g (deliver o k)]> (goroutines s)).
    { simpl. by rewrite !list_insert_insert_eq, Hgs2, list_insert_insert_eq. }
    exists s4. split; [|split; [|split; [|split; [|split; [|split]]]]].
    + replace (length bytes + 3)%nat with (1 + (length bytes + 2))%nat by lia.
      rewrite !repeat_app.
      apply (run_app_Some _ _ s s1); [simpl; by rewrite H1|].
      apply (run_app_Some _ _ s1 s2); [done|].
      simpl. by rewrite H3, H4.
    + done.
    + done.
    + done.
    + by repeat split.
    + intros err Ho. rewrite Hgs4. fold o. rewrite Ho. by apply lookup_moved.
    + intros j gj m' k' Hj Hpcj. unfold step, step_goroutine.
      rewrite Hj. simpl in *. rewrite Hc2, Hal, Hpcj. simpl. done.
  - intros s0 j gj m' k' Hmu0 Hj Hpcj. unfold step, step_goroutine.
    rewrite Hj. simpl in *. rewrite Hpcj, Hmu0. by destruct (crashed s0).
Qed.

(** C2, as the code has it: when the server's [OutEncoder] is a
    [SyncEncoder] (as [NewStdMessageServer] builds it), no two
    goroutines are ever inside the underlying [Encode] at once, and the
    output stream is always a sequence of whole serializations, the
    last one up to what the call in progress has still to write. *)
Theorem C2_sync_encoder_never_interleaves (se : SyncEncoder) s :
  OutEncoder ms = EncSync se -> reachable ms h0 s ->
  one_encode_at_a_time s /\ never_interleaved ms s.
Proof.
  intros Hsync Hreach.
  pose proof (reachable_invariant ms h0 s Hreach) as Hinv.
  pose proof (reachable_sync_invariant ms h0 se Hsync s Hreach) as Hsinv.
  split.
  - by apply (sync_one_encode ms se).
  - by apply (sync_never_interleaved ms se).
Qed.

End GoroutineClaims.

(** ** The server of the test, on its bare encoder *)

Section BareDemo.

Import Demo.

(** What [brace_encoder] writes for a message. *)
Lemma brace_encoder_bytes (m : Message) :
  fst (brace_encoder m) = [] \/ fst (brace_encoder m) = [x7b; x7d; x0a].
Proof.
  unfold brace_encoder. destruct (m !! "chan"%string) as [[| | |]|]; auto.
Qed.

(** Two opening braces in a row are not the start of any sequence of
    serializations. *)
Lemma not_serialized (rest : list byte) (msgs : list Message) :
  x7b :: x7b :: rest <> serialized brace_encoder msgs.
Proof.
  induction msgs as [|m msgs IH]; [done|].
  unfold serialized in *. simpl.
  destruct (brace_encoder_bytes m) as [-> | ->]; [exact IH | done].
Qed.

(** With the schedule [alternating] both goroutines of [bare_server] are
    inside [Encode] at once and their bytes alternate on the output. *)
Lemma bare_server_interleaves :
  exists s, run bare_server alternating (initial 0%nat) = Some s /\
            out s = [x7b; x7b; x7d; x7d; x0a; x0a] /\
            ~ one_encode_at_a_time s /\
            ~ never_interleaved bare_server s.
Proof.
  exists (after bare_server 0%nat alternating).
  split; [|split; [|split]].
  - apply after_run. vm_compute. reflexivity.
  - vm_compute. reflexivity.
  - intros Hone.
    assert (H0 : encoding <$>
                   goroutines (after bare_server 0%nat alternating) !! 0%nat =
                 Some true) by (vm_compute; reflexivity).
    assert (H1 : encoding <$>
                   goroutines (after bare_server 0%nat alternating) !! 1%nat =
                 Some true) by (vm_compute; reflexivity).
    apply fmap_Some in H0 as (g0 & Hg0 & He0).
    apply fmap_Some in H1 as (g1 & Hg1 & He1).
    pose proof (Hone 0%nat 1%nat g0 g1 Hg0 Hg1 (eq_sym He0) (eq_sym He1))
      as H.
    discriminate H.
  - intros [msgs Hmsgs].
    assert (Hp : out (after bare_server 0%nat alternating) ++
                 pending (after bare_server 0%nat alternating) =
                 [x7b; x7b; x7d; x7d; x0a; x0a])
      by (vm_compute; reflexivity).
    rewrite Hp in Hmsgs. exact (not_serialized _ _ Hmsgs).
Qed.

End BareDemo.

(** ** The writer of a handler *)

Section WriterClaims.

Context {HS : Type} (ms : MessageServer HS) (h0 : HS).

Implicit Types (s : State HS) (g : Goroutine HS).

(** C10: the writer a handler gets hands each write to the server's
    [OutEncoder] and takes no lock of its own.  [WriteMessage] is
    [Encode] of the writer's encoder; the writer of every goroutine is
    on [ms.OutEncoder]; the call of [WriteMessage] is a step that
    enters that [Encode] and leaves [mu] and the output alone.
    [NewStdMessageServer] puts a [SyncEncoder] there, and with one the
    writes never interleave; on a bare encoder nobody ever locks [mu],
    and the server of the test, built on one, has a run in which two
    calls of [Encode] are in progress at once and their bytes
    alternate. *)
Theorem C10_writer_delegates_to_OutEncoder :
  (forall (mw : EncoderMessageWriter) (m : Message)
          (k : error -> HandlerBody HS),
     WriteMessage mw m k = Encode (emw_Encoder mw) m k) /\
  (forall s (i : nat) g,
     reachable ms h0 s -> goroutines s !! i = Some g ->
     g_mw g = {| emw_Encoder := OutEncoder ms |} /\
     forall (m : Message) (k : error -> HandlerBody HS),
       WriteMessage (g_mw g) m k = Encode (OutEncoder ms) m k) /\
  (forall s (i : nat) g m k,
     reachable ms h0 s -> crashed s = None ->
     goroutines s !! i = Some g ->
     g_pc g = GHandle (HWriteMessage m k) ->
     exists s', step ms (TGo i) s = Some s' /\
       goroutines s' !! i = Some (with_pc g (Encode (OutEncoder ms) m k)) /\
       mu s' = mu s /\ out s' = out s) /\
  (forall (stdin : Decoder) (stdout : StreamEncoder)
          (h : MessageHandlerFunc HS),
     OutEncoder (NewStdMessageServer stdin stdout h) =
     EncSync {| se_Encoder := stdout |}) /\
  (forall (se : SyncEncoder) s,
     OutEncoder ms = EncSync se -> reachable ms h0 s ->
     one_encode_at_a_time s /\ never_interleaved ms s) /\
  (forall (enc : StreamEncoder) s,
     OutEncoder ms = EncStream enc -> reachable ms h0 s -> never_locks s) /\
  (exists b : State nat, reachable Demo.bare_server 0%nat b /\
     ~ one_encode_at_a_time b /\ ~ never_interleaved Demo.bare_server b).
Proof.
  split; [done|]. split; [|split; [|split; [done|split; [|split]]]].
  - intros s i g Hreach Hg.
    pose proof (inv_mw ms s (reachable_invariant ms h0 s Hreach) i g Hg) as Hm.
    split; [done|]. intros m k. by rewrite Hm.
  - intros s i g m k Hreach Hal Hg Hpc.
    pose proof (reachable_invariant ms h0 s Hreach) as Hinv.
    pose proof (inv_mw ms s Hinv i g Hg) as Hm.
    exists (set_pc i g (WriteMessage (g_mw g) m k) s).
    split; [go_step Hal Hg Hpc|]. split; [|done]. simpl. rewrite Hm.
    apply list_lookup_insert_eq. by apply lookup_lt_Some in Hg.
  - intros se s Hsync Hreach.
    pose proof (reachable_invariant ms h0 s Hreach) as Hinv.
    pose proof (reachable_sync_invariant ms h0 se Hsync s Hreach) as Hsinv.
    split; [by apply (sync_one_encode ms se) |
            by apply (sync_never_interleaved ms se)].
  - intros enc s Hbare Hreach. by apply (reachable_never_locks ms h0 enc).
  - destruct bare_server_interleaves as (b & Hrun & _ & Hone & Hint).
    exists b. split; [by exists Demo.alternating | done].
Qed.

End WriterClaims.

(** * The claims on the servers of [Demo] *)

Section OnDemo.

Import Demo.

Lemma two_messages_well_formed :
  well_formed_stream two_messages [in_test 1; in_test 2].
Proof.
  split; [|done]. intros [|[|k]] r H; simpl in H; try done;
    by injection H as <-.
Qed.

Lemma one_malformed_is :
  one_malformed_stream one_malformed [in_test 1] (in_test 7)
    (ErrOther "invalid character") [in_test 2].
Proof.
  split; [|done]. intros [|[|[|k]]] r H; simpl in H; try done;
    by injection H as <-.
Qed.

(** C1 on the input of the test. *)
Lemma C1_witness :
  well_formed_stream (InDecoder std_server) [in_test 1; in_test 2] /\
  reachable std_server 0%nat (initial 0%nat) /\
  exists k s', run std_server (repeat TServe k) (initial 0%nat) = Some s' /\
    serve s' = PCReturned (Some EOF) /\
    dispatched s' = [in_test 1; in_test 2] /\
    length (goroutines s') = 2%nat /\
    Forall (calls_handler std_server) (goroutines s').
Proof.
  split; [exact two_messages_well_formed|].
  split; [exists []; reflexivity|].
  destruct (proj1 (proj2 (proj2 (C1_dispatch_in_arrival_order std_server
              0%nat [in_test 1; in_test 2] (initial 0%nat)
              two_messages_well_formed (ex_intro _ [] eq_refl)))) eq_refl)
    as (k & s' & Hrun & Hs & Hd & Hlen & new & Hgs & Hnew).
  exists k, s'. split; [exact Hrun|]. split; [exact Hs|].
  split; [exact Hd|]. split; [exact Hlen|].
  rewrite Hgs. exact Hnew.
Defined.

(** C2 as stated fails on the server of the test: built directly on a
    bare encoder, it has a run that ends with two goroutines inside
    [Encode] at once and an output that is no sequence of
    serializations. *)
Lemma C2_bare_encoder_interleaves :
  exists s, run bare_server alternating (initial 0%nat) = Some s /\
            out s = [x7b; x7b; x7d; x7d; x0a; x0a] /\
            ~ (one_encode_at_a_time s /\ never_interleaved bare_server s).
Proof.
  destruct bare_server_interleaves as (s & Hrun & Hout & Hone & _).
  exists s. split; [done|]. split; [done|]. by intros [H _].
Qed.

(** C2 on the server [NewStdMessageServer] builds, one goroutine in the
    middle of its write. *)
Lemma C2_witness :
  OutEncoder std_server = EncSync {| se_Encoder := brace_encoder |} /\
  reachable std_server 0%nat
    (after std_server 0%nat (serve_two ++ repeat (TGo 0) 4)) /\
  out (after std_server 0%nat (serve_two ++ repeat (TGo 0) 4)) = [x7b] /\
  one_encode_at_a_time
    (after std_server 0%nat (serve_two ++ repeat (TGo 0) 4)) /\
  never_interleaved std_server
    (after std_server 0%nat (serve_two ++ repeat (TGo 0) 4)).
Proof.
  split; [reflexivity|].
  split; [apply after_reachable; vm_compute; reflexivity|].
  split; [vm_compute; reflexivity|].
  apply (C2_sync_encoder_never_interleaves std_server 0%nat
           {| se_Encoder := brace_encoder |}).
  - reflexivity.
  - apply after_reachable. vm_compute. reflexivity.
Defined.

(** C3 once [Serve] has read the end of the input of the test. *)
Lemma C3_witness :
  reachable std_server 0%nat (after std_server 0%nat serve_two) /\
  (serve (after std_server 0%nat serve_two) = PCReturned (Some EOF) <->
   exists k, decoded (after std_server 0%nat serve_two) = S k /\
             snd (InDecoder std_server k) = Some EOF /\
             (Some EOF = Some EOF \/ Some EOF = Some ErrUnexpectedEOF)).
Proof.
  split; [apply after_reachable; vm_compute; reflexivity|].
  apply (C3_returns_only_on_stream_end std_server 0%nat).
  apply after_reachable. vm_compute. reflexivity.
Defined.

(** C4 on the input of the test with a malformed message in the
    middle. *)
Lemma C4_witness :
  stream_ended (Some (ErrOther "invalid character")) = false /\
  one_malformed_stream (InDecoder malformed_server) [in_test 1] (in_test 7)
    (ErrOther "invalid character") [in_test 2] /\
  exists k s', run malformed_server (repeat TServe k) (initial 0%nat) = Some s' /\
    serve s' = PCReturned (Some EOF) /\
    dispatched s' = [in_test 1; in_test 2] /\
    decode_log (logged s') = [LogDecodeError (ErrOther "invalid character")].
Proof.
  split; [reflexivity|]. split; [exact one_malformed_is|].
  apply (proj2 (C4_malformed_message_skipped malformed_server 0%nat)
           [in_test 1] [in_test 2] (in_test 7)
           (ErrOther "invalid character") (initial 0%nat)).
  - reflexivity.
  - exact one_malformed_is.
  - exists []. reflexivity.
  - reflexivity.
Defined.

(** C5 on a handler that panics, once its goroutine is started. *)
Lemma C5_witness :
  run panicking_server (repeat TServe 3) (initial 0%nat) =
    Some (after panicking_server 0%nat (repeat TServe 3)) /\
  crashed (after panicking_server 0%nat (repeat TServe 3)) = None /\
  exists s',
    run panicking_server (repeat (TGo 0) 4)
      (after panicking_server 0%nat (repeat TServe 3)) = Some s' /\
    logged s' = [LogPanic (Panicked "boom") (debug_Stack 0)] /\
    wg s' = 0 /\ crashed s' = None /\ serve s' = PCDecode.
Proof.
  assert (Hrun : run panicking_server (repeat TServe 3) (initial 0%nat) =
                 Some (after panicking_server 0%nat (repeat TServe 3))).
  { apply after_run. vm_compute. reflexivity. }
  split; [exact Hrun|].
  destruct (C5_handler_panic_contained panicking_server 0%nat
              (repeat TServe 3) _ Hrun) as (_ & Hal & Hpanic & _).
  split; [apply Hal; reflexivity|].
  destruct (Hpanic 0%nat
              {| g_mw := writer_of panicking_server; g_msg := in_test 1;
                 g_pc := GHandle (HPanic (Panicked "boom")) |}
              (Panicked "boom"))
    as (s' & Hrun' & Hlog & Hwg & _ & Hal' & Hserve & _).
  - apply Hal. reflexivity.
  - vm_compute. reflexivity.
  - reflexivity.
  - exists s'. split; [exact Hrun'|]. split; [exact Hlog|].
    split; [exact Hwg|]. split; [exact Hal'|]. exact Hserve.
Defined.

(** C6 as stated fails on the server [NewStdMessageServer] builds:
    [Wait] is called while [Serve] runs, the first handler ends and
    releases the caller, [Serve] adds to [wg] for the second message,
    and the caller of [Wait] finds the counter off zero: the process
    is dead and the second message is never dispatched. *)
Lemma C6_wait_during_serve_panics :
  exists s, run std_server wait_during_serve (initial 0%nat) = Some s /\
    waits_after_return std_server wait_during_serve (initial 0%nat) = false /\
    crashed s = Some FatalWaitGroupReused /\
    dispatched s = [in_test 1] /\
    step std_server TServe s = None.
Proof.
  exists (after std_server 0%nat wait_during_serve).
  split; [apply after_run; vm_compute; reflexivity|].
  repeat split; vm_compute; reflexivity.
Qed.

(** C6 on the server [NewStdMessageServer] builds, [Wait] called when
    [Serve] has returned and returning when both handlers are over. *)
Lemma C6_witness :
  run std_server wait_after_serve (initial 0%nat) =
    Some (after std_server 0%nat wait_after_serve) /\
  waits_after_return std_server wait_after_serve (initial 0%nat) = true /\
  waiter (after std_server 0%nat wait_after_serve) = WaitReturned /\
  crashed (after std_server 0%nat wait_after_serve) = None /\
  wg (after std_server 0%nat wait_after_serve) = 0 /\
  forall (i : nat) g,
    goroutines (after std_server 0%nat wait_after_serve) !! i = Some g ->
    handler_over g = true.
Proof.
  assert (Hrun : run std_server wait_after_serve (initial 0%nat) =
                 Some (after std_server 0%nat wait_after_serve)).
  { apply after_run. vm_compute. reflexivity. }
  assert (Hok : waits_after_return std_server wait_after_serve
                  (initial 0%nat) = true).
  { vm_compute. reflexivity. }
  assert (Hw : waiter (after std_server 0%nat wait_after_serve) =
               WaitReturned).
  { vm_compute. reflexivity. }
  split; [exact Hrun|]. split; [exact Hok|]. split; [exact Hw|].
  destruct (C6_wait_for_drain std_server 0%nat wait_after_serve _ Hrun)
    as (_ & _ & _ & _ & Hdrain).
  destruct (Hdrain Hok) as (Hal & _ & Hret & _).
  split; [exact Hal|]. exact (Hret Hw).
Defined.

(** C7 on a write the encoder refuses: the error gets to the handler,
    which writes again. *)
Lemma C7_witness :
  crashed (after retrying_server 0%nat (repeat TServe 3 ++ [TGo 0])) = None /\
  mu (after retrying_server 0%nat (repeat TServe 3 ++ [TGo 0])) = false /\
  exists s',
    run retrying_server (repeat (TGo 0) 3)
      (after retrying_server 0%nat (repeat TServe 3 ++ [TGo 0])) = Some s' /\
    out s' = [] /\ mu s' = false /\
    g_pc <$> goroutines s' !! 0%nat =
      Some (GHandle (HWriteMessage ∅ (fun _ => HReturn))).
Proof.
  split; [vm_compute; reflexivity|]. split; [vm_compute; reflexivity|].
  destruct (C7_sync_encoder_encode retrying_server
              (after retrying_server 0%nat (repeat TServe 3 ++ [TGo 0]))
              0%nat
              {| g_mw := writer_of retrying_server; g_msg := in_test 1;
                 g_pc := Encode (EncSync {| se_Encoder := brace_encoder |})
                           bad_reply retry |}
              {| se_Encoder := brace_encoder |} bad_reply retry)
    as (_ & (s' & Hrun & Hout & Hmu & _ & _ & Herr & _) & _).
  - vm_compute. reflexivity.
  - vm_compute. reflexivity.
  - reflexivity.
  - vm_compute. reflexivity.
  - exists s'. split; [exact Hrun|].
    split; [rewrite Hout; vm_compute; reflexivity|].
    split; [exact Hmu|]. by rewrite (Herr _ eq_refl).
Defined.

(** C8 on a decoder that gives the same error for ever. *)
Lemma C8_witness :
  stream_ended (Some (ErrOther "invalid character")) = false /\
  (forall k, snd (InDecoder stuck_server k) =
             Some (ErrOther "invalid character")) /\
  exists s, run stuck_server (repeat TServe 5) (initial 0%nat) = Some s /\
            decoded s = 5%nat /\ serve s = PCDecode.
Proof.
  split; [reflexivity|]. split; [intros k; reflexivity|].
  apply (proj2 (C8_spins_on_recoverable_error stuck_server 0%nat)
           (ErrOther "invalid character") eq_refl (fun k => eq_refl)).
Defined.

(** C9 on the first attempt of that decoder. *)
Lemma C9_witness :
  InDecoder stuck_server (decoded (initial 0%nat)) =
    (∅, Some (ErrOther "invalid character")) /\
  exists s', step stuck_server TServe (initial 0%nat) = Some s' /\
    goroutines s' = [] /\ wg s' = 0 /\ out s' = [] /\ mu s' = false /\
    hstate s' = 0%nat /\ waiter s' = WaitNotCalled /\ serve s' = PCDecode /\
    crashed s' = None.
Proof.
  split; [reflexivity|].
  apply (C9_recoverable_error_leaves_state stuck_server (initial 0%nat) ∅
           (ErrOther "invalid character")); reflexivity.
Defined.

(** C10 on the first write of the handler of the test. *)
Lemma C10_witness :
  reachable std_server 0%nat
    (after std_server 0%nat (repeat TServe 3 ++ [TGo 0])) /\
  exists s',
    step std_server (TGo 0)
      (after std_server 0%nat (repeat TServe 3 ++ [TGo 0])) = Some s' /\
    g_pc <$> goroutines s' !! 0%nat =
      Some (Encode (OutEncoder std_server)
              {[ "is_reply"%string := VNum 0 ]} (fun _ => HReturn)) /\
    mu s' = false /\ out s' = [].
Proof.
  assert (Hreach : reachable std_server 0%nat
            (after std_server 0%nat (repeat TServe 3 ++ [TGo 0]))).
  { apply after_reachable. vm_compute. reflexivity. }
  split; [exact Hreach|].
  destruct (C10_writer_delegates_to_OutEncoder std_server 0%nat)
    as (_ & _ & Hcall & _).
  destruct (Hcall (after std_server 0%nat (repeat TServe 3 ++ [TGo 0]))
              0%nat
              {| g_mw := writer_of std_server; g_msg := in_test 1;
                 g_pc := GHandle
                           (HWriteMessage
                              {[ "is_reply"%string := VNum 0 ]}
                              (fun _ => HReturn)) |}
              {[ "is_reply"%string := VNum 0 ]} (fun _ => HReturn) Hreach)
    as (s' & Hstep & Hg & Hmu & Hout).
  - vm_compute. reflexivity.
  - vm_compute. reflexivity.
  - reflexivity.
  - exists s'. split; [exact Hstep|]. split; [by rewrite Hg|].
    split; [rewrite Hmu | rewrite Hout]; vm_compute; reflexivity.
Defined.

End OnDemo.

(** * More on the server *)

(** ** What [Serve] does with its input *)

Section Input.

Context {HS : Type} (ms : MessageServer HS) (h0 : HS).

Implicit Types (s : State HS) (g : Goroutine HS).

Lemma accounted_before_end (n : nat) :
  (forall k, (k < n)%nat -> stream_ended (snd (InDecoder ms k)) = false) ->
  (length (decoded_ok (InDecoder ms) n) +
   length (decode_errors (InDecoder ms) n))%nat = n.
Proof.
  induction n as [|n IH]; intros Hrun; [done|].
  rewrite decoded_ok_S, decode_errors_S, !length_app.
  specialize (IH (fun k Hk => Hrun k ltac:(lia))).
  pose proof (Hrun n ltac:(lia)) as Hn.
  destruct (snd (InDecoder ms n)) as [e|]; [rewrite Hn|]; simpl; lia.
Qed.

(** X1: [Serve] loses no result of the decoder and uses none twice.
    In every state the number of [Decode] calls made is the number of
    goroutines started, plus the number of decode errors logged, plus
    the one result [Serve] still has in hand (the message it is about
    to dispatch, or the error it has returned). *)
Theorem every_result_accounted_for s :
  reachable ms h0 s ->
  decoded s =
  (length (goroutines s) + length (decode_log (logged s)) +
   in_hand (serve s))%nat.
Proof.
  intros Hreach.
  destruct (reachable_serve_invariant ms h0 s Hreach) as [Hp Hl].
  assert (Hlen : length (goroutines s) = length (dispatched s))
    by (unfold dispatched; by rewrite length_map).
  rewrite Hlen, Hl. unfold serve_progress in Hp.
  destruct (serve s) as [|mw msg|mw msg|r]; simpl.
  - destruct Hp as [Hrun ->].
    pose proof (accounted_before_end (decoded s) Hrun). lia.
  - destruct Hp as [Hrun (k & Hk & Hd & ->)].
    rewrite Hk, decode_errors_S, Hd, app_nil_r. simpl.
    pose proof (accounted_before_end k (fun j Hj => Hrun j ltac:(lia))). lia.
  - destruct Hp as [Hrun (k & Hk & Hd & ->)].
    rewrite Hk, decode_errors_S, Hd, app_nil_r. simpl.
    pose proof (accounted_before_end k (fun j Hj => Hrun j ltac:(lia))). lia.
  - destruct Hp as (k & Hk & Hr & He & Hrun & ->).
    rewrite Hk, decode_errors_S, Hr.
    pose proof (accounted_before_end k Hrun).
    destruct r as [e|]; [rewrite He|]; rewrite app_nil_r; lia.
Qed.

(** X2: on an input that comes to its end after any mix of messages and
    recoverable errors, with [io.EOF] or (a truncated input) with
    [io.ErrUnexpectedEOF], [Serve] once returned has returned that very
    error, has started a goroutine for each message decoded without an
    error, in order, and has logged each recoverable error, in order;
    and [Serve] left to run in a live process does return. *)
Theorem serve_on_ending_input (n : nat) s :
  ends_at (InDecoder ms) n -> reachable ms h0 s ->
  (forall r, serve s = PCReturned r ->
     r = snd (InDecoder ms n) /\ decoded s = S n /\
     dispatched s = decoded_ok (InDecoder ms) n /\
     decode_log (logged s) = decode_errors (InDecoder ms) n) /\
  (crashed s = None ->
   exists k s', run ms (repeat TServe k) s = Some s' /\
     serve s' = PCReturned (snd (InDecoder ms n)) /\
     dispatched s' = decoded_ok (InDecoder ms) n /\
     decode_log (logged s') = decode_errors (InDecoder ms) n).
Proof.
  intros Hends Hreach. split; [|by apply (serve_returns ms h0)].
  intros r Hpc.
  pose proof (reachable_serve_invariant ms h0 s Hreach) as Hsinv.
  destruct (returned_at ms n s r Hends Hsinv Hpc) as (-> & Hdec & Hd).
  repeat split; try done.
  destruct Hsinv as [_ Hl]. rewrite Hl, Hdec, decode_errors_S.
  destruct Hends as [_ Hend]. destruct (snd (InDecoder ms n)) as [e|]; [|done].
  by rewrite Hend, app_nil_r.
Qed.

(** X3: once [Serve] has returned it takes no step, and whatever the
    goroutines and a caller of [Wait] do afterwards, no [Decode] is
    made, no goroutine is started and no decode error is logged any
    more. *)
Theorem returned_for_good (sched : list Tid) s s' (r : error) :
  serve s = PCReturned r -> run ms sched s = Some s' ->
  serve s' = PCReturned r /\ decoded s' = decoded s /\
  dispatched s' = dispatched s /\
  decode_log (logged s') = decode_log (logged s) /\
  step ms TServe s' = None.
Proof.
  intros Hpc Hrun.
  assert (Hv : loop_view s' = loop_view s).
  { revert s Hpc Hrun. induction sched as [|t sched IH]; intros s Hpc Hrun.
    - by injection Hrun as <-.
    - simpl in Hrun. destruct (step ms t s) as [s1|] eqn:Hstep; [|done].
      assert (Ht : t <> TServe).
      { intros ->. unfold step, step_serve in Hstep. rewrite Hpc in Hstep.
        by destruct (crashed s). }
      pose proof (others_keep_loop ms t s s1 Ht Hstep) as Hv1.
      rewrite <- Hv1. apply IH; [|done].
      unfold loop_view in Hv1. injection Hv1 as -> _ _ _. done. }
  unfold loop_view in Hv. injection Hv as Hserve -> -> ->.
  rewrite Hserve, Hpc. repeat split.
  unfold step, step_serve. rewrite Hserve, Hpc. by destruct (crashed s').
Qed.

(** X12: on an empty input (the first [Decode] gives [io.EOF] or
    [io.ErrUnexpectedEOF]) [Serve] returns that error at once: no
    goroutine, no log, no output; and [Wait], called then, returns at
    once. *)
Theorem serve_on_empty_input :
  stream_ended (snd (InDecoder ms 0%nat)) = true ->
  exists s, run ms [TServe; TWait] (initial h0) = Some s /\
    serve s = PCReturned (snd (InDecoder ms 0%nat)) /\
    waiter s = WaitReturned /\ goroutines s = [] /\ out s = [] /\
    logged s = [] /\ wg s = 0 /\ crashed s = None.
Proof.
  intros Hend.
  exists (set_waiter WaitReturned
            (set_serve (PCReturned (snd (InDecoder ms 0%nat)))
               (set_decoded 1 (initial h0)))).
  split; [|done]. simpl. unfold step, step_serve. simpl.
  destruct (InDecoder ms 0%nat) as [msg err]. simpl in *. by rewrite Hend.
Qed.

End Input.

(** ** A handler left to run *)

Section Handlers.

Context {HS : Type} (ms : MessageServer HS) (h0 : HS).

Implicit Types (s : State HS) (g : Goroutine HS).

(** The deferred calls of a goroutine, lines 109-115. *)
Lemma unwinds (i : nat) g (p : option PanicValue) s :
  crashed s = None -> goroutines s !! i = Some g ->
  g_pc g = GUnwind p goroutine_defers -> 1 <= wg s ->
  exists s', run ms (repeat (TGo i) 3) s = Some s' /\
    logged s' = logged s ++ panic_log i p /\
    wg s' = wg s - 1 /\
    goroutines s' = <[i := with_pc g GExited]> (goroutines s) /\
    crashed s' = None /\ serve s' = serve s /\ decoded s' = decoded s /\
    out s' = out s /\ mu s' = mu s /\ hstate s' = hstate s /\
    waiter s' = released (wg s - 1) (waiter s).
Proof.
  intros Hal Hg Hpc Hwg.
  set (g2 := with_pc g (GUnwind None [DeferWgDone])).
  set (s2 := set_pc i g (GUnwind None [DeferWgDone])
               (set_logged (logged s ++ panic_log i p) s)).
  set (g3 := with_pc g2 (GUnwind None [])).
  set (s3 := set_pc i g2 (GUnwind None []) (wg_Add (-1) s2)).
  set (s4 := set_pc i g3 GExited s3).
  destruct (wg_Add_frame (-1) s2) as (Hd & Hout & Hmu & Hlg & Hhs & Hse & Hgs).
  destruct (wg_Add_counter (-1) s2) as (Hv & Hc & Hw); [simpl; lia|].
  assert (Hi : (i < length (goroutines s))%nat)
    by by apply lookup_lt_Some in Hg.
  assert (H2 : step ms (TGo i) s = Some s2).
  { unfold step, step_goroutine. rewrite Hal, Hg. simpl. rewrite Hpc. simpl.
    destruct p as [r|]; simpl; [done|].
    unfold s2. simpl. rewrite app_nil_r. by destruct s. }
  assert (H3 : step ms (TGo i) s2 = Some s3).
  { unfold step, step_goroutine. simpl.
    rewrite Hal, list_lookup_insert_eq by done.
    simpl. destruct (wg s - 1 <? 0) eqn:Hneg; [lia|done]. }
  assert (H4 : step ms (TGo i) s3 = Some s4).
  { unfold step, step_goroutine. simpl. rewrite Hc, Hgs. simpl.
    by rewrite Hal, !list_insert_insert_eq, list_lookup_insert_eq. }
  exists s4. split.
  - simpl. rewrite H2, H3, H4. done.
  - simpl. rewrite Hlg, Hv, Hgs, Hc, Hse, Hd, Hout, Hmu, Hhs, Hw. simpl.
    by rewrite !list_insert_insert_eq.
Qed.

(** X5: the goroutine of a handler that returns normally, left to run,
    finds nothing to recover and logs nothing, calls [wg.Done()] once
    and exits; it touches neither [Serve], nor the other goroutines,
    nor the output, nor the lock. *)
Theorem handler_return_is_silent (i : nat) g s :
  reachable ms h0 s -> crashed s = None ->
  goroutines s !! i = Some g -> g_pc g = GHandle HReturn ->
  exists s', run ms (repeat (TGo i) 4) s = Some s' /\
    logged s' = logged s /\ wg s' = wg s - 1 /\
    goroutines s' = <[i := with_pc g GExited]> (goroutines s) /\
    crashed s' = None /\ serve s' = serve s /\ decoded s' = decoded s /\
    out s' = out s /\ mu s' = mu s /\ hstate s' = hstate s /\
    waiter s' = released (wg s - 1) (waiter s).
Proof.
  intros Hreach Hal Hg Hpc.
  pose proof (reachable_invariant ms h0 s Hreach) as Hinv.
  pose proof (in_flight_lookup _ _ _ Hg) as Hfl.
  unfold owes in Hfl. rewrite Hpc in Hfl.
  pose proof (inv_wg ms s Hinv) as Hwg.
  pose proof (about_to_go_nonneg (serve s)) as Hgo.
  set (s1 := set_pc i g (GUnwind None goroutine_defers) s).
  assert (H1 : step ms (TGo i) s = Some s1) by go_step Hal Hg Hpc.
  destruct (unwinds i (with_pc g (GUnwind None goroutine_defers)) None s1)
    as (s' & Hrun & Hlog & Hrest); [done | | done | simpl; lia |].
  { simpl. by apply lookup_moved. }
  exists s'. split.
  - change (repeat (TGo i) 4) with ([TGo i] ++ repeat (TGo i) 3).
    rewrite run_app. simpl. by rewrite H1.
  - simpl in Hlog, Hrest. rewrite app_nil_r in Hlog.
    by rewrite list_insert_insert_eq in Hrest.
Qed.

(** One call of [Encode] on the encoder of the server, the lock free
    and nobody in between. *)
Lemma encode_runs (i : nat) g (e : Encoder) (m : Message)
    (k : error -> HandlerBody HS) s :
  crashed s = None -> goroutines s !! i = Some g ->
  g_pc g = Encode e m k -> mu s = false ->
  exists n s', run ms (repeat (TGo i) n) s = Some s' /\
    out s' = out s ++ fst (stream_encoder e m) /\ mu s' = false /\
    goroutines s' =
      <[i := with_pc g (deliver (snd (stream_encoder e m)) k)]> (goroutines s) /\
    same_but_writes s s'.
Proof.
  intros Hal Hg Hpc Hmu.
  assert (Hi : (i < length (goroutines s))%nat)
    by by apply lookup_lt_Some in Hg.
  destruct e as [enc|se]; simpl in Hpc; simpl stream_encoder.
  - destruct (run_writes ms i false _ _ k s g Hal Hg Hpc)
      as (s2 & Hrun2 & Hout2 & Hmu2 & Hgs2 & Hsame2).
    pose proof Hsame2 as (Hd2 & Hwg2 & Hl2 & Hh2 & Hs2 & Hw2 & Hc2).
    set (g2 := with_pc g (GEncode false [] (snd (enc m)) k)) in *.
    assert (Hg2 : goroutines s2 !! i = Some g2)
      by by rewrite Hgs2, list_lookup_insert_eq.
    set (s3 := set_pc i g2 (deliver (snd (enc m)) k) s2).
    assert (H3 : step ms (TGo i) s2 = Some s3).
    { unfold step, step_goroutine. by rewrite Hc2, Hal, Hg2. }
    exists (length (fst (enc m)) + 1)%nat, s3. split; [|split; [|split; [|split]]].
    + rewrite repeat_app, run_app, Hrun2. simpl. by rewrite H3.
    + done.
    + simpl. congruence.
    + simpl. by rewrite Hgs2, list_insert_insert_eq.
    + apply Hsame2.
  - set (bytes := fst (se_Encoder se m)). set (o := snd (se_Encoder se m)).
    set (g1 := with_pc g (GEncode true bytes o k)).
    set (s1 := set_pc i g (GEncode true bytes o k) (set_mu true s)).
    assert (H1 : step ms (TGo i) s = Some s1).
    { unfold step, step_goroutine. rewrite Hal, Hg. simpl. by rewrite Hpc, Hmu. }
    assert (Hg1 : goroutines s1 !! i = Some g1).
    { simpl. by apply lookup_moved. }
    destruct (run_writes ms i true bytes o k s1 g1 Hal Hg1 eq_refl)
      as (s2 & Hrun2 & Hout2 & Hmu2 & Hgs2 & Hsame2).
    simpl in Hout2, Hmu2, Hgs2. rewrite list_insert_insert_eq in Hgs2.
    destruct Hsame2 as (Hd2 & Hwg2 & Hl2 & Hh2 & Hs2 & Hw2 & Hc2).
    simpl in Hd2, Hwg2, Hl2, Hh2, Hs2, Hw2, Hc2.
    set (g2 := with_pc g1 (GEncode true [] o k)).
    assert (Hg2 : goroutines s2 !! i = Some g2)
      by by rewrite Hgs2, list_lookup_insert_eq.
    set (s3 := set_pc i g2 (GUnlock o k) s2).
    assert (H3 : step ms (TGo i) s2 = Some s3).
    { unfold step, step_goroutine. by rewrite Hc2, Hal, Hg2. }
    set (g3 := with_pc g2 (GUnlock o k)).
    set (s4 := set_pc i g3 (deliver o k) (set_mu false s3)).
    assert (H4 : step ms (TGo i) s3 = Some s4).
    { unfold step, step_goroutine. simpl. rewrite Hc2, Hal.
      rewrite (lookup_moved i g2 _ _ Hg2). simpl. by rewrite Hmu2. }
    exists (1 + (length bytes + 2))%nat, s4.
    split; [|split; [|split; [|split]]].
    + rewrite !repeat_app.
      apply (run_app_Some ms _ _ s s1); [simpl; by rewrite H1|].
      apply (run_app_Some ms _ _ s1 s2); [done|].
      simpl. by rewrite H3, H4.
    + done.
    + done.
    + simpl. by rewrite !list_insert_insert_eq, Hgs2, list_insert_insert_eq.
    + by repeat split.
Qed.

(** The body of a handler that does not block, from where it is to the
    deferred calls. *)
Lemma handler_body_runs (i : nat) (p : HandlerBody HS) :
  forall g s (w : list byte) (h' : HS) (r : option PanicValue),
  crashed s = None -> goroutines s !! i = Some g -> g_pc g = GHandle p ->
  g_mw g = writer_of ms -> mu s = false ->
  alone (stream_encoder (OutEncoder ms)) p (hstate s) = Some (w, h', r) ->
  exists n s', run ms (repeat (TGo i) n) s = Some s' /\
    out s' = out s ++ w /\ hstate s' = h' /\ mu s' = false /\
    goroutines s' =
      <[i := with_pc g (GUnwind r goroutine_defers)]> (goroutines s) /\
    decoded s' = decoded s /\ wg s' = wg s /\ logged s' = logged s /\
    serve s' = serve s /\ waiter s' = waiter s /\ crashed s' = None.
Proof.
  induction p as [|r0| |f k IH|m k IH];
    intros g s w h' r Hal Hg Hpc Hmw Hmu Halone; simpl in Halone.
  - injection Halone as <- <- <-.
    exists 1%nat, (set_pc i g (GUnwind None goroutine_defers) s).
    split; [simpl; by rewrite (ltac:(go_step Hal Hg Hpc) :
      step ms (TGo i) s = Some (set_pc i g (GUnwind None goroutine_defers) s))|].
    simpl. by rewrite app_nil_r.
  - injection Halone as <- <- <-.
    exists 1%nat, (set_pc i g (GUnwind (Some r0) goroutine_defers) s).
    split; [simpl; by rewrite (ltac:(go_step Hal Hg Hpc) :
      step ms (TGo i) s = Some (set_pc i g (GUnwind (Some r0) goroutine_defers) s))|].
    simpl. by rewrite app_nil_r.
  - done.
  - set (s1 := set_pc i g (GHandle (k (hstate s))) (set_hstate (f (hstate s)) s)).
    assert (H1 : step ms (TGo i) s = Some s1) by go_step Hal Hg Hpc.
    destruct (IH (hstate s) (with_pc g (GHandle (k (hstate s)))) s1 w h' r)
      as (n & s' & Hrun & Hout & Hh & Hmu' & Hgs & Hrest);
      [done | by apply lookup_moved | done | done | done | done |].
    exists (S n), s'. split; [simpl; by rewrite H1|].
    simpl in Hout, Hgs, Hrest. by rewrite list_insert_insert_eq in Hgs.
  - set (s1 := set_pc i g (WriteMessage (g_mw g) m k) s).
    assert (H1 : step ms (TGo i) s = Some s1) by go_step Hal Hg Hpc.
    destruct (encode_runs i (with_pc g (WriteMessage (g_mw g) m k))
                (OutEncoder ms) m k s1)
      as (n2 & s2 & Hrun2 & Hout2 & Hmu2 & Hgs2 & Hsame2);
      [done | by apply lookup_moved | by rewrite Hmw | done |].
    destruct Hsame2 as (Hd2 & Hwg2 & Hl2 & Hh2 & Hs2 & Hw2 & Hc2).
    simpl in Hout2, Hgs2, Hd2, Hwg2, Hl2, Hh2, Hs2, Hw2, Hc2.
    rewrite list_insert_insert_eq in Hgs2.
    assert (Hi : (i < length (goroutines s))%nat)
      by by apply lookup_lt_Some in Hg.
    destruct (snd (stream_encoder (OutEncoder ms) m)) as [err|r1] eqn:Ho;
      simpl in Hgs2.
    + destruct (alone _ (k err) (hstate s)) as [[[w1 h1] r1]|] eqn:Hk; [|done].
      injection Halone as <- <- <-.
      destruct (IH err (with_pc g (GHandle (k err))) s2 w1 h1 r1)
        as (n & s' & Hrun & Hout & Hh & Hmu' & Hgs & Hrest);
        [congruence | by rewrite Hgs2, list_lookup_insert_eq | done | done
        | done | by rewrite Hh2 |].
      exists (1 + (n2 + n))%nat, s'. split.
      * rewrite !repeat_app.
        apply (run_app_Some ms _ _ s s1); [simpl; by rewrite H1|].
        by apply (run_app_Some ms _ _ s1 s2).
      * rewrite Hout, Hout2, Hgs, Hgs2, list_insert_insert_eq, <- app_assoc.
        simpl. destruct Hrest as (-> & -> & -> & -> & -> & ->).
        repeat split; congruence.
    + injection Halone as <- <- <-.
      exists (1 + n2)%nat, s2. split.
      * rewrite !repeat_app.
        by apply (run_app_Some ms _ _ s s1); [simpl; rewrite H1|].
      * repeat split; first [done | congruence].
Qed.

(** A handler that does not block, from where it is to the exit of its
    goroutine. *)
Lemma handler_runs (i : nat) g (p : HandlerBody HS) s
    (w : list byte) (h' : HS) (r : option PanicValue) :
  crashed s = None -> goroutines s !! i = Some g -> g_pc g = GHandle p ->
  g_mw g = writer_of ms -> 1 <= wg s -> mu s = false ->
  alone (stream_encoder (OutEncoder ms)) p (hstate s) = Some (w, h', r) ->
  exists n s', run ms (repeat (TGo i) n) s = Some s' /\
    out s' = out s ++ w /\ hstate s' = h' /\
    logged s' = logged s ++ panic_log i r /\
    goroutines s' = <[i := with_pc g GExited]> (goroutines s) /\
    wg s' = wg s - 1 /\ mu s' = false /\ crashed s' = None /\
    serve s' = serve s /\ decoded s' = decoded s /\
    waiter s' = released (wg s - 1) (waiter s).
Proof.
  intros Hal Hg Hpc Hmw Hwg Hmu Halone.
  destruct (handler_body_runs i _ g s w h' r Hal Hg Hpc Hmw Hmu Halone)
    as (n & s1 & Hrun1 & Hout1 & Hh1 & Hmu1 & Hgs1 & Hd1 & Hwg1 & Hl1 & Hs1
        & Hw1 & Hc1).
  assert (Hi : (i < length (goroutines s))%nat)
    by by apply lookup_lt_Some in Hg.
  destruct (unwinds i (with_pc g (GUnwind r goroutine_defers)) r s1)
    as (s' & Hrun & Hlog & Hwg' & Hgs & Hc & Hs & Hd & Hout & Hmu' & Hh & Hw);
    [done | by rewrite Hgs1, list_lookup_insert_eq | done | lia |].
  exists (n + 3)%nat, s'. split.
  - by rewrite repeat_app, run_app, Hrun1.
  - rewrite Hgs, Hgs1, list_insert_insert_eq. simpl.
    repeat split; congruence.
Qed.

(** A goroutine in its handler is counted. *)
Lemma handling_counted (i : nat) g (p : HandlerBody HS) s :
  invariant ms s -> goroutines s !! i = Some g -> g_pc g = GHandle p ->
  1 <= wg s.
Proof.
  intros Hinv Hg Hpc.
  pose proof (in_flight_lookup _ _ _ Hg) as Hfl.
  unfold owes in Hfl. rewrite Hpc in Hfl.
  pose proof (inv_wg ms s Hinv) as Hwg.
  pose proof (about_to_go_nonneg (serve s)) as Hgo. lia.
Qed.

(** X8: a handler that does not block is never stuck.  From a live
    state with the lock free, wherever the handler is in its body, its
    goroutine left to run reaches its end in a finite number of steps:
    it has written what the handler writes run on its own, left the
    handler state the handler leaves, logged the panic the handler
    ended with if there is one, called [wg.Done()] once and released
    the lock. *)
Theorem handler_runs_to_its_end (i : nat) g (p : HandlerBody HS) s
    (w : list byte) (h' : HS) (r : option PanicValue) :
  reachable ms h0 s -> crashed s = None ->
  goroutines s !! i = Some g -> g_pc g = GHandle p -> mu s = false ->
  alone (stream_encoder (OutEncoder ms)) p (hstate s) = Some (w, h', r) ->
  exists n s', run ms (repeat (TGo i) n) s = Some s' /\
    out s' = out s ++ w /\ hstate s' = h' /\
    logged s' = logged s ++ panic_log i r /\
    goroutines s' = <[i := with_pc g GExited]> (goroutines s) /\
    wg s' = wg s - 1 /\ mu s' = false /\ crashed s' = None /\
    serve s' = serve s /\ decoded s' = decoded s /\
    waiter s' = released (wg s - 1) (waiter s).
Proof.
  intros Hreach Hal Hg Hpc Hmu Halone.
  pose proof (reachable_invariant ms h0 s Hreach) as Hinv.
  apply (handler_runs i g p); try done.
  - by apply (inv_mw ms s Hinv i g).
  - by apply (handling_counted i g p).
Qed.

End Handlers.

(** ** A handler that never returns *)

Section Blocked.

Context {HS : Type} (ms : MessageServer HS) (h0 : HS).

Implicit Types (s : State HS) (g : Goroutine HS).

Lemma blocked_stays (j : nat) g t s s' :
  goroutines s !! j = Some g -> g_pc g = GHandle HBlocked ->
  step ms t s = Some s' -> goroutines s' !! j = Some g.
Proof.
  intros Hg Hpc Hstep. step_cases Hstep.
  - unfold step_serve in Hstep.
    destruct (serve s) as [|mw msg|mw msg|r] eqn:Hs.
    + destruct (InDecoder ms (decoded s)) as [msg err].
      destruct (stream_ended err); [|destruct err as [e|]];
        by injection Hstep as <-.
    + injection Hstep as <-.
      destruct (wg_Add_frame 1 s) as (_ & _ & _ & _ & _ & _ & Hgs).
      simpl. by rewrite Hgs.
    + injection Hstep as <-. simpl. by apply lookup_app_l_Some.
    + done.
  - destruct (decide (j = i)) as [->|Hne].
    + unfold step_goroutine in Hstep. rewrite Hg in Hstep. simpl in Hstep.
      by rewrite Hpc in Hstep.
    + by rewrite (goroutine_step_others i j s s' Hstep).
  - unfold step_wait, wg_Wait in Hstep.
    destruct (waiter s); destruct (wg s =? 0); try discriminate;
      by injection Hstep as <-.
Qed.

Lemma wg_Add_waiter (delta : Z) s :
  waiter (wg_Add delta s) = waiter s \/ wg (wg_Add delta s) = 0.
Proof.
  unfold wg_Add. destruct (wg s + delta <? 0); [by left|].
  destruct (wg s + delta =? 0) eqn:Hz; [|by left].
  apply Z.eqb_eq in Hz. right. by destruct (waiter s).
Qed.

(** The caller of [Wait] moves on only with the counter at zero. *)
Lemma step_waiter t s s' :
  step ms t s = Some s' ->
  waiter s = WaitNotCalled \/ waiter s = WaitBlocked ->
  waiter s' = WaitNotCalled \/ waiter s' = WaitBlocked \/
  wg s = 0 \/ wg s' = 0.
Proof.
  intros Hstep Hw. step_cases Hstep.
  - unfold step_serve in Hstep.
    destruct (serve s) as [|mw msg|mw msg|r] eqn:Hs.
    + destruct (InDecoder ms (decoded s)) as [msg err].
      destruct (stream_ended err); [|destruct err as [e|]];
        injection Hstep as <-; simpl; tauto.
    + injection Hstep as <-. simpl.
      destruct (wg_Add_waiter 1 s) as [-> | ->]; tauto.
    + injection Hstep as <-. simpl. tauto.
    + done.
  - inv_goroutine_step Hstep.
    all: repeat match type of Hstep with
         | (if ?c then _ else _) = _ => destruct c
         end; try discriminate Hstep; injection Hstep as <-.
    all: simpl; try tauto.
    all: destruct (wg_Add_waiter (-1) s) as [-> | ->]; tauto.
  - unfold step_wait, wg_Wait in Hstep.
    destruct Hw as [Hw | Hw]; rewrite Hw in Hstep; [|done].
    destruct (wg s =? 0) eqn:Hz; injection Hstep as <-; simpl.
    + apply Z.eqb_eq in Hz. tauto.
    + tauto.
Qed.

(** X13: a handler that blocks for good holds the server open.
    Whatever runs afterwards, its goroutine stays where it is, the
    counter of the [WaitGroup] stays above zero, and [Wait], not yet
    returned, never returns. *)
Theorem blocked_handler_blocks_wait (i : nat) g (sched : list Tid) s s' :
  reachable ms h0 s ->
  goroutines s !! i = Some g -> g_pc g = GHandle HBlocked ->
  run ms sched s = Some s' ->
  goroutines s' !! i = Some g /\ 1 <= wg s' /\
  (waiter s = WaitNotCalled \/ waiter s = WaitBlocked ->
   waiter s' = WaitNotCalled \/ waiter s' = WaitBlocked).
Proof.
  assert (Hpos : forall s1, reachable ms h0 s1 -> goroutines s1 !! i = Some g ->
                   g_pc g = GHandle HBlocked -> 1 <= wg s1).
  { intros s1 Hreach Hg Hpc.
    pose proof (reachable_invariant ms h0 s1 Hreach) as Hinv.
    pose proof (in_flight_lookup _ _ _ Hg) as Hfl.
    unfold owes in Hfl. rewrite Hpc in Hfl.
    pose proof (inv_wg ms s1 Hinv) as Hwg.
    pose proof (about_to_go_nonneg (serve s1)) as Hgo. lia. }
  intros Hreach Hg Hpc. revert s Hreach Hg.
  induction sched as [|t sched IH]; intros s Hreach Hg Hrun.
  - injection Hrun as <-. split; [done|]. split; [by apply Hpos | done].
  - simpl in Hrun. destruct (step ms t s) as [s1|] eqn:Hstep; [|done].
    pose proof (blocked_stays i g t s s1 Hg Hpc Hstep) as Hg1.
    pose proof (reachable_step ms h0 t s s1 Hreach Hstep) as Hreach1.
    destruct (IH s1 Hreach1 Hg1 Hrun) as (Hg' & Hwg' & Hw').
    split; [done|]. split; [done|]. intros Hw. apply Hw'.
    pose proof (Hpos s Hreach Hg Hpc) as Hp.
    pose proof (Hpos s1 Hreach1 Hg1 Hpc) as Hp1.
    destruct (step_waiter t s s1 Hstep Hw) as [Hz|[Hz|[Hz|Hz]]]; try tauto; lia.
Qed.

End Blocked.

(** ** The lock and the counter *)

Section Lock.

Context {HS : Type} (ms : MessageServer HS) (h0 : HS).

Implicit Types (s : State HS) (g : Goroutine HS).

Lemma holder_move s s1 (i : nat) g pc :
  (mu s = true ->
   exists (j : nat) gj, goroutines s !! j = Some gj /\ holds_mu gj = true) ->
  goroutines s !! i = Some g -> goroutines s1 = goroutines s ->
  (mu s1 = true ->
   holds_mu (with_pc g pc) = true \/ (mu s = true /\ holds_mu g = false)) ->
  mu (set_pc i g pc s1) = true ->
  exists (j : nat) gj,
    goroutines (set_pc i g pc s1) !! j = Some gj /\ holds_mu gj = true.
Proof.
  intros Hheld Hg Hgs Hcase Hmu. simpl in *. rewrite Hgs.
  assert (Hi : (i < length (goroutines s))%nat)
    by by apply lookup_lt_Some in Hg.
  destruct (Hcase Hmu) as [Hnew | [Hmus Hold]].
  - exists i, (with_pc g pc). by rewrite list_lookup_insert_eq.
  - destruct (Hheld Hmus) as (j & gj & Hj & Hh). exists j, gj.
    split; [|done]. rewrite list_lookup_insert_ne; [done|].
    intros ->. congruence.
Qed.

(** A locked [mu] has a goroutine that holds it. *)
Lemma locked_by_someone s :
  reachable ms h0 s -> mu s = true ->
  exists (j : nat) gj, goroutines s !! j = Some gj /\ holds_mu gj = true.
Proof.
  revert s. apply (reachable_ind ms h0 (fun s => mu s = true ->
    exists (j : nat) gj, goroutines s !! j = Some gj /\ holds_mu gj = true));
    [done|].
  intros t s s' Hreach IH Hstep. step_cases Hstep.
  - unfold step_serve in Hstep.
    destruct (serve s) as [|mw msg|mw msg|r] eqn:Hs.
    + destruct (InDecoder ms (decoded s)) as [msg err].
      destruct (stream_ended err); [|destruct err as [e|]];
        by injection Hstep as <-.
    + injection Hstep as <-.
      destruct (wg_Add_frame 1 s) as (_ & _ & Hmu & _ & _ & _ & Hgs).
      simpl. by rewrite Hmu, Hgs.
    + injection Hstep as <-. simpl. intros Hmu.
      destruct (IH Hmu) as (j & gj & Hj & Hh). exists j, gj.
      split; [by apply lookup_app_l_Some | done].
    + done.
  - inv_goroutine_step Hstep.
    all: repeat match type of Hstep with
         | (if ?c then _ else _) = _ => destruct c eqn:?
         end; try discriminate Hstep; injection Hstep as <-.
    all: destruct (wg_Add_frame (-1) s) as (_ & _ & Hmu1 & _ & _ & _ & Hgs1).
    all: try (simpl; rewrite ?Hmu1, ?Hgs1; exact IH).
    all: try (simpl; intros; congruence).
    all: apply (holder_move s);
           [first [exact IH | intros ?; congruence | intros _; by apply IH]
           | done | done |].
    all: unfold holds_mu, WriteMessage, Encode, deliver; simpl;
         rewrite ?Hpc, ?Hmu1; try tauto.
    all: try (destruct (emw_Encoder (g_mw g)); simpl; tauto).
    all: try (destruct o; simpl; tauto).
  - unfold step_wait, wg_Wait in Hstep.
    destruct (waiter s); destruct (wg s =? 0); try discriminate;
      by injection Hstep as <-.
Qed.

(** X6: the lock of a [SyncEncoder] is never leaked.  In every state
    [mu] is locked exactly when some goroutine is between
    [se.mu.Lock()] and the deferred [se.mu.Unlock()], there is at most
    one such goroutine, and in a live process it can always make its
    next step; [Unlock] is never called on an unlocked mutex. *)
Theorem lock_never_leaked s :
  reachable ms h0 s ->
  (mu s = true <->
   exists (i : nat) g, goroutines s !! i = Some g /\ holds_mu g = true) /\
  (forall (i j : nat) gi gj,
     goroutines s !! i = Some gi -> goroutines s !! j = Some gj ->
     holds_mu gi = true -> holds_mu gj = true -> i = j) /\
  (forall (i : nat) g,
     crashed s = None -> goroutines s !! i = Some g -> holds_mu g = true ->
     is_Some (step ms (TGo i) s)) /\
  crashed s <> Some FatalUnlockOfUnlocked.
Proof.
  intros Hreach. pose proof (reachable_invariant ms h0 s Hreach) as Hinv.
  split; [split|split; [|split]].
  - by apply locked_by_someone.
  - intros (i & g & Hg & Hh). by apply (inv_holder_mu ms s Hinv i g).
  - apply (inv_holder_unique ms s Hinv).
  - intros i g Hal Hg Hh. unfold step, step_goroutine. rewrite Hal, Hg. simpl.
    unfold holds_mu in Hh.
    destruct (g_pc g) as [p | se' m k | [|] [|b rest] o k | o k | p ds | ];
      try discriminate Hh; try by eexists.
    destruct (mu s); by eexists.
  - intros Hc. by pose proof (inv_crash ms s Hinv _ Hc).
Qed.

(** X4: the server has one way to die.  The counter of the
    [WaitGroup] is never negative, and a dead process is one whose
    caller of [Wait], woken with the counter at zero, found it raised
    again by [Serve]: [wg.Done()] never drives the counter below zero,
    [Unlock] is never called on an unlocked mutex and no panic of a
    handler gets out of its goroutine. *)
Theorem dies_only_of_wait_during_serve s :
  reachable ms h0 s ->
  0 <= wg s /\
  forall f, crashed s = Some f ->
    f = FatalWaitGroupReused /\ waiter s = WaitWoken /\ wg s <> 0.
Proof.
  intros Hreach. split.
  { by apply (invariant_wg_nonneg ms), (reachable_invariant ms h0). }
  revert s Hreach. apply (reachable_ind ms h0 (fun s => forall f,
    crashed s = Some f ->
    f = FatalWaitGroupReused /\ waiter s = WaitWoken /\ wg s <> 0));
    [done|].
  intros t s s' Hreach _ Hstep f Hf.
  pose proof (reachable_invariant ms h0 s Hreach) as Hinv.
  pose proof (step_alive ms t s s' Hstep) as Hal.
  unfold step in Hstep. rewrite Hal in Hstep. destruct t as [|i|].
  - pose proof (serve_step_alive ms s s' Hinv Hal Hstep). congruence.
  - pose proof (goroutine_step_alive ms i s s' Hinv Hal Hstep). congruence.
  - unfold step_wait, wg_Wait in Hstep.
    destruct (waiter s) eqn:Hw; destruct (wg s =? 0) eqn:Hz;
      try discriminate Hstep; injection Hstep as <-; simpl in Hf;
      try congruence.
    injection Hf as <-. simpl. apply Z.eqb_neq in Hz. done.
Qed.

End Lock.

(** ** The order of the writes *)

Section LockOrder.

Context {HS : Type} (ms : MessageServer HS) (h0 : HS) (se : SyncEncoder).

Hypothesis Hsync : OutEncoder ms = EncSync se.

Implicit Types (s : State HS) (g : Goroutine HS).

Lemma flat_map_insert_same {A B : Type} (f : A -> list B) (l : list A)
    (i : nat) (x x' : A) :
  l !! i = Some x -> f x' = f x -> flat_map f (<[i := x']> l) = flat_map f l.
Proof.
  revert i. induction l as [|y l IH]; intros [|i] Hi Hf; simpl in *;
    try discriminate.
  - injection Hi as ->. by rewrite Hf.
  - by rewrite (IH i).
Qed.

Lemma flat_map_insert_only {A B : Type} (f : A -> list B) (l : list A)
    (i : nat) (x x' : A) :
  l !! i = Some x ->
  (forall (j : nat) y, l !! j = Some y -> j <> i -> f y = []) ->
  flat_map f (<[i := x']> l) = f x'.
Proof.
  intros Hi Hothers. apply (flat_map_only f _ i x').
  - apply list_lookup_insert_eq. by apply lookup_lt_Some in Hi.
  - intros j y Hj Hne. rewrite list_lookup_insert_ne in Hj by done. eauto.
Qed.

Lemma lock_order_snoc (sched : list Tid) (t : Tid) s s1 s' :
  run ms sched s = Some s1 -> step ms t s1 = Some s' ->
  lock_order ms (sched ++ [t]) s = lock_order ms sched s ++ acquires t s1.
Proof.
  revert s. induction sched as [|t0 sched IH]; intros s Hrun Hstep; simpl in *.
  - injection Hrun as ->. by rewrite Hstep, app_nil_r.
  - destruct (step ms t0 s) as [s0|]; [|done].
    by rewrite (IH s0), app_assoc.
Qed.

(** With the lock free nobody is inside the underlying [Encode]. *)
Lemma free_nothing_pending s :
  invariant ms s -> sync_invariant se s -> mu s = false ->
  forall (j : nat) gj, goroutines s !! j = Some gj -> unwritten gj = [].
Proof.
  intros Hinv [Hw _] Hmu j gj Hj. apply unwritten_idle.
  destruct (encoding gj) eqn:He; [|done].
  pose proof (Hw j gj Hj) as Hok.
  assert (Hh : holds_mu gj = true).
  { unfold write_ok, encoding, holds_mu in *.
    destruct (g_pc gj); try done. by destruct Hok as [-> _]. }
  pose proof (inv_holder_mu ms s Hinv j gj Hj Hh). congruence.
Qed.

(** While goroutine [i] is inside the underlying [Encode], nobody else
    is. *)
Lemma others_nothing_pending s (i : nat) g :
  invariant ms s -> sync_invariant se s ->
  goroutines s !! i = Some g -> encoding g = true ->
  forall (j : nat) gj, goroutines s !! j = Some gj -> j <> i ->
    unwritten gj = [].
Proof.
  intros Hinv Hsinv Hg He j gj Hj Hne. apply unwritten_idle.
  destruct (encoding gj) eqn:Hej; [|done]. destruct Hne.
  by apply (sync_one_encode ms se s Hinv Hsinv j i gj g).
Qed.

Lemma goroutine_step_written (i : nat) s s' :
  invariant ms s -> sync_invariant se s -> crashed s = None ->
  step_goroutine i s = Some s' ->
  out s' ++ pending s' =
  (out s ++ pending s) ++ serialized (se_Encoder se) (acquires (TGo i) s).
Proof.
  intros Hinv Hsinv Hal Hstep.
  pose proof (free_nothing_pending s Hinv Hsinv) as Hfree.
  pose proof Hsinv as [Hw _].
  unfold acquires, pending. inv_goroutine_step Hstep.
  all: pose proof (others_nothing_pending s i g Hinv Hsinv Hg) as Hothers.
  all: pose proof (Hw i g Hg) as Hok.
  all: pose proof (inv_mw ms s Hinv i g Hg) as Hmw.
  all: unfold write_ok, encoding in Hok, Hothers; rewrite Hpc in Hok, Hothers.
  all: simpl serialized; rewrite ?app_nil_r.
  all: repeat match type of Hstep with
       | (if ?c then _ else _) = _ => destruct c eqn:?
       end; try discriminate Hstep; injection Hstep as <-.
  all: destruct (wg_Add_frame (-1) s) as (_ & Ho1 & _ & _ & _ & _ & Hgs1).
  all: simpl; rewrite ?Ho1, ?Hgs1; try done.
  all: try (rewrite (flat_map_insert_same unwritten _ i g) by
              (try done; unfold unwritten, WriteMessage, Encode, deliver;
               simpl; rewrite ?Hpc, ?Hmw, ?Hsync; simpl; try done;
               by destruct o); done).
  - rewrite (flat_map_insert_same unwritten _ i g); [done | done |].
    unfold unwritten, WriteMessage, Encode. simpl.
    rewrite Hpc, Hmw. simpl. by rewrite Hsync.
  - rewrite (flat_map_none unwritten (goroutines s)) by (by apply Hfree).
    rewrite (flat_map_insert_only unwritten _ i g)
      by (try done; intros j gj Hj _; by apply (Hfree eq_refl j gj)).
    unfold unwritten. simpl. by rewrite Hok, !app_nil_r.
  - rewrite (flat_map_only unwritten (goroutines s) i g Hg (Hothers eq_refl)).
    rewrite (flat_map_insert_only unwritten _ i g _ Hg (Hothers eq_refl)).
    unfold unwritten. simpl. by rewrite Hpc, <- app_assoc.
  - rewrite (flat_map_only unwritten (goroutines s) i g Hg (Hothers eq_refl)).
    rewrite (flat_map_insert_only unwritten _ i g _ Hg (Hothers eq_refl)).
    unfold unwritten. simpl. by rewrite Hpc, <- app_assoc.
Qed.

Lemma step_written t s s' :
  invariant ms s -> sync_invariant se s -> step ms t s = Some s' ->
  out s' ++ pending s' =
  (out s ++ pending s) ++ serialized (se_Encoder se) (acquires t s).
Proof.
  intros Hinv Hsinv Hstep. step_cases Hstep.
  - simpl. rewrite app_nil_r. unfold step_serve in Hstep.
    destruct (serve s) as [|mw msg|mw msg|r] eqn:Hs.
    + destruct (InDecoder ms (decoded s)) as [msg err].
      destruct (stream_ended err); [|destruct err as [e|]];
        by injection Hstep as <-.
    + injection Hstep as <-.
      destruct (wg_Add_frame 1 s) as (_ & Ho & _ & _ & _ & _ & Hgs).
      unfold pending. simpl. by rewrite Ho, Hgs.
    + injection Hstep as <-. unfold pending. simpl.
      rewrite flat_map_app. simpl. by rewrite !app_nil_r.
    + done.
  - by apply goroutine_step_written.
  - simpl. rewrite app_nil_r. unfold step_wait, wg_Wait in Hstep.
    destruct (waiter s); destruct (wg s =? 0); try discriminate;
      by injection Hstep as <-.
Qed.

Lemma run_written (sched : list Tid) s :
  run ms sched (initial h0) = Some s ->
  out s ++ pending s =
  serialized (se_Encoder se) (lock_order ms sched (initial h0)).
Proof.
  revert s. induction sched as [|t sched IH] using rev_ind; intros s Hrun.
  - by injection Hrun as <-.
  - apply run_snoc in Hrun as (s1 & Hrun & Hstep).
    assert (Hreach : reachable ms h0 s1) by by exists sched.
    rewrite (lock_order_snoc sched t _ s1 s Hrun Hstep).
    rewrite (step_written t s1 s
               (reachable_invariant ms h0 s1 Hreach)
               (reachable_sync_invariant ms h0 se Hsync s1 Hreach) Hstep).
    rewrite (IH s1 Hrun). unfold serialized. by rewrite flat_map_app.
Qed.

(** X7: with a [SyncEncoder] the messages come out in the order their
    [Encode] calls took the lock.  In every state the output, completed
    by what the call in progress has still to write, is the
    serializations of the messages for which [se.mu.Lock()] has
    returned, in the order it returned; and a step that is not such a
    [Lock] leaves that sequence as it is. *)
Theorem writes_in_lock_order (sched : list Tid) s :
  run ms sched (initial h0) = Some s ->
  out s ++ pending s =
    serialized (se_Encoder se) (lock_order ms sched (initial h0)) /\
  (forall t s', step ms t s = Some s' ->
     out s' ++ pending s' =
     (out s ++ pending s) ++ serialized (se_Encoder se) (acquires t s)).
Proof.
  intros Hrun. split; [by apply run_written|].
  intros t s' Hstep. assert (Hreach : reachable ms h0 s) by by exists sched.
  apply step_written; [by apply (reachable_invariant ms h0) | | done].
  by apply (reachable_sync_invariant ms h0).
Qed.

End LockOrder.

(** ** Once [Wait] has returned *)

Section Drained.

Context {HS : Type} (ms : MessageServer HS) (h0 : HS).

Implicit Types (s : State HS) (g : Goroutine HS).

Lemma over_not_writing g :
  handler_over g = true -> unwritten g = [] /\ holds_mu g = false.
Proof. unfold handler_over, unwritten, holds_mu. by destruct (g_pc g). Qed.

(** With [Serve] returned and every handler over, nothing writes any
    more. *)
Lemma over_step t s s' :
  (exists r, serve s = PCReturned r) ->
  (forall (i : nat) g, goroutines s !! i = Some g -> handler_over g = true) ->
  step ms t s = Some s' ->
  (exists r, serve s' = PCReturned r) /\
  (forall (i : nat) g, goroutines s' !! i = Some g -> handler_over g = true) /\
  out s' = out s /\ hstate s' = hstate s /\ mu s' = mu s /\
  length (goroutines s') = length (goroutines s).
Proof.
  intros [r0 Hret] Hover Hstep. step_cases Hstep.
  - unfold step_serve in Hstep. by rewrite Hret in Hstep.
  - inv_goroutine_step Hstep.
    all: pose proof (Hover i g Hg) as Hov; unfold handler_over in Hov;
         rewrite Hpc in Hov; try discriminate Hov.
    all: repeat match type of Hstep with
         | (if ?c then _ else _) = _ => destruct c eqn:?
         end; try discriminate Hstep; injection Hstep as <-.
    all: destruct (wg_Add_frame (-1) s)
           as (_ & Ho1 & Hmu1 & _ & Hh1 & Hs1 & Hgs1).
    all: simpl; rewrite ?Ho1, ?Hmu1, ?Hh1, ?Hs1, ?Hgs1, ?length_insert.
    all: split; [by exists r0|]; split; [|done].
    all: try done.
    all: intros j gj Hj; apply list_lookup_insert_Some in Hj;
         destruct Hj as [(-> & <- & _)|(Hne & Hj)]; [done | eauto].
  - unfold step_wait, wg_Wait in Hstep.
    destruct (waiter s); destruct (wg s =? 0); try discriminate;
      injection Hstep as <-; simpl; repeat split; eauto.
Qed.

Lemma over_run (sched : list Tid) s s' :
  (exists r, serve s = PCReturned r) ->
  (forall (i : nat) g, goroutines s !! i = Some g -> handler_over g = true) ->
  run ms sched s = Some s' ->
  out s' = out s /\ hstate s' = hstate s /\ mu s' = mu s /\
  length (goroutines s') = length (goroutines s).
Proof.
  revert s. induction sched as [|t sched IH]; intros s Hret Hover Hrun.
  - by injection Hrun as <-.
  - simpl in Hrun. destruct (step ms t s) as [s1|] eqn:Hstep; [|done].
    destruct (over_step t s s1 Hret Hover Hstep)
      as (Hret1 & Hover1 & Ho & Hh & Hmu & Hlen).
    destruct (IH s1 Hret1 Hover1 Hrun) as (Ho' & Hh' & Hmu' & Hlen').
    repeat split; congruence.
Qed.

(** X10: when [Wait], called once [Serve] has returned, has returned,
    the writes are complete.  No [Encode] is in progress, the lock is
    free, and whatever runs afterwards the output and the handler state
    stay as they are and no goroutine is started; with a [SyncEncoder]
    the output is then the whole serializations of the messages written,
    in the order their calls took the lock. *)
Theorem wait_returned_writes_complete (sched : list Tid) s :
  run ms sched (initial h0) = Some s ->
  waits_after_return ms sched (initial h0) = true ->
  waiter s = WaitReturned ->
  pending s = [] /\ mu s = false /\
  (forall sched' s', run ms sched' s = Some s' ->
     out s' = out s /\ hstate s' = hstate s /\
     length (goroutines s') = length (goroutines s)) /\
  (forall se, OutEncoder ms = EncSync se ->
     out s = serialized (se_Encoder se) (lock_order ms sched (initial h0))).
Proof.
  intros Hrun Hok Hw. assert (Hreach : reachable ms h0 s) by by exists sched.
  pose proof (reachable_invariant ms h0 s Hreach) as Hinv.
  assert (Hdr : drain_invariant s).
  { apply (drain_invariant_run ms sched (initial h0));
      [apply invariant_initial | | done | done].
    split; simpl; [done | done | by intros [?|?]]. }
  destruct Hdr as [Hal Hret Hzero].
  assert (Hz : wg s = 0) by (apply Hzero; by right).
  pose proof (drained ms s Hinv Hz) as Hover.
  assert (Hserve : exists r, serve s = PCReturned r)
    by (apply Hret; congruence).
  assert (Hpend : pending s = []).
  { apply flat_map_none. intros i g Hg.
    by apply over_not_writing, (Hover i g). }
  split; [done|]. split; [|split].
  - destruct (mu s) eqn:Hmu; [|done].
    destruct (locked_by_someone ms h0 s Hreach Hmu) as (j & gj & Hj & Hh).
    destruct (over_not_writing gj (Hover j gj Hj)). congruence.
  - intros sched' s' Hrun'.
    destruct (over_run sched' s s' Hserve Hover Hrun') as (? & ? & ? & ?).
    done.
  - intros se Hsync.
    pose proof (run_written ms h0 se Hsync sched s Hrun) as Hwr.
    by rewrite Hpend, app_nil_r in Hwr.
Qed.

End Drained.

(** ** A server that comes to its end *)

Section Shutdown.

Context {HS : Type} (ms : MessageServer HS) (h0 : HS).

Implicit Types (s : State HS) (g : Goroutine HS).

Lemma untouched_serve s s' :
  invariant ms s -> untouched ms h0 s -> step ms TServe s = Some s' ->
  untouched ms h0 s'.
Proof.
  intros Hinv (Ho & Hmu & Hh & Hw & Hl & Hf) Hstep. pose proof (step_alive ms TServe s s' Hstep) as Hal.
  unfold step in Hstep. rewrite Hal in Hstep.
  unfold step_serve in Hstep.
  destruct (serve s) as [|mw msg|mw msg|r] eqn:Hs.
  - destruct (InDecoder ms (decoded s)) as [msg err].
    destruct (stream_ended err); [|destruct err as [e|]];
      injection Hstep as <-; repeat split; try done.
    simpl. by rewrite decode_log_app, Hl.
  - injection Hstep as <-.
    rewrite (wg_Add_one s (invariant_wg_nonneg ms s Hinv)). by repeat split.
  - injection Hstep as <-. repeat split; try done. simpl.
    intros i g Hg. apply lookup_app_Some in Hg as [Hg | [_ Hg]]; [eauto|].
    apply list_lookup_singleton_Some in Hg as [_ <-]. done.
  - done.
Qed.

Lemma untouched_serve_run (k : nat) s s' :
  invariant ms s -> untouched ms h0 s ->
  run ms (repeat TServe k) s = Some s' -> untouched ms h0 s'.
Proof.
  revert s. induction k as [|k IH]; intros s Hinv Hu Hrun.
  - by injection Hrun as <-.
  - simpl in Hrun. destruct (step ms TServe s) as [s1|] eqn:Hstep; [|done].
    apply (IH s1); [by apply (invariant_step ms TServe s) | | done].
    by apply (untouched_serve s).
Qed.

Lemma no_wait_allowed (t : Tid) s :
  t <> TWait -> call_allowed t s = true.
Proof.
  intros Ht. unfold call_allowed.
  destruct t; try done; by destruct (waiter s), (serve s).
Qed.

Lemma waits_after_no_wait (a b : list Tid) s s1 :
  no_wait a = true -> run ms a s = Some s1 ->
  waits_after_return ms (a ++ b) s = waits_after_return ms b s1.
Proof.
  revert s. induction a as [|t a IH]; intros s Hnw Hrun.
  - by injection Hrun as <-.
  - simpl in *. apply andb_true_iff in Hnw as [Ht Hnw].
    destruct (step ms t s) as [s0|]; [|done].
    rewrite no_wait_allowed by (by destruct t). simpl. by apply IH.
Qed.

Lemma in_flight_exited (gs : list (Goroutine HS)) :
  (forall (j : nat) g, gs !! j = Some g -> g_pc g = GExited) ->
  in_flight gs = 0.
Proof.
  induction gs as [|g gs IH]; intros Hex; simpl; [done|].
  rewrite IH by (intros j gj Hj; by apply (Hex (S j))).
  unfold owes. by rewrite (Hex 0%nat g).
Qed.

(** The goroutines from [i] on, each to its end before the next. *)
Lemma handle_run (msgs : list Message) :
  forall (i : nat) s (w : list byte) (h' : HS) (l : list LogEntry),
  reachable ms h0 s -> crashed s = None -> mu s = false ->
  waiter s = WaitNotCalled ->
  (forall (j : nat) g, (i <= j)%nat -> goroutines s !! j = Some g ->
     fresh ms g) ->
  drop i (dispatched s) = msgs ->
  handle_all (stream_encoder (OutEncoder ms)) (MessageHandler ms) i msgs
    (hstate s) = Some (w, h', l) ->
  exists sched s', run ms sched s = Some s' /\ no_wait sched = true /\
    out s' = out s ++ w /\ hstate s' = h' /\ logged s' = logged s ++ l /\
    mu s' = false /\ crashed s' = None /\ serve s' = serve s /\
    decoded s' = decoded s /\ waiter s' = WaitNotCalled /\
    dispatched s' = dispatched s /\
    (forall (j : nat) g, (i <= j)%nat -> goroutines s' !! j = Some g ->
       g_pc g = GExited) /\
    (forall j : nat, (j < i)%nat -> goroutines s' !! j = goroutines s !! j).
Proof.
  induction msgs as [|m msgs IH];
    intros i s w h' l Hreach Hal Hmu Hw Hfresh Hdrop Hall; simpl in Hall.
  - injection Hall as <- <- <-. exists [], s.
    rewrite !app_nil_r. repeat split; try done.
    intros j g Hj Hg. exfalso.
    assert (Hlen : length (drop i (dispatched s)) = 0%nat) by by rewrite Hdrop.
    rewrite length_drop in Hlen. unfold dispatched in Hlen.
    rewrite length_map in Hlen. apply lookup_lt_Some in Hg. lia.
  - assert (Hm : dispatched s !! i = Some m).
    { pose proof (lookup_drop (dispatched s) i 0) as Hld.
      rewrite Hdrop in Hld. simpl in Hld. by rewrite Nat.add_0_r in Hld. }
    assert (Hdrop' : drop (S i) (dispatched s) = msgs).
    { rewrite (drop_S _ _ _ Hm) in Hdrop. by injection Hdrop. }
    unfold dispatched in Hm. rewrite list_lookup_fmap in Hm.
    destruct (goroutines s !! i) as [g|] eqn:Hg; [|done].
    injection Hm as Hm. pose proof (Hfresh i g (le_n i) Hg) as Hpc.
    unfold fresh in Hpc. rewrite Hm in Hpc.
    destruct (alone _ (HandleMessage (MessageHandler ms) m) (hstate s))
      as [[[w1 h1] r]|] eqn:Halone; [|done].
    destruct (handle_all _ _ (S i) msgs h1) as [[[w2 h2] l2]|] eqn:Hrest;
      [|done].
    injection Hall as <- <- <-.
    pose proof (reachable_invariant ms h0 s Hreach) as Hinv.
    destruct (handler_runs ms i g _ s w1 h1 r Hal Hg Hpc
                (inv_mw ms s Hinv i g Hg)
                (handling_counted ms i g _ s Hinv Hg Hpc) Hmu Halone)
      as (n & s1 & Hrun1 & Hout1 & Hh1 & Hl1 & Hgs1 & Hwg1 & Hmu1 & Hc1 & Hs1
          & Hd1 & Hw1).
    assert (Hw1' : waiter s1 = WaitNotCalled).
    { rewrite Hw1, Hw. unfold released. by destruct (_ =? _). }
    assert (Hdi1 : dispatched s1 = dispatched s).
    { unfold dispatched. rewrite Hgs1, list_fmap_insert. simpl.
      apply list_insert_id. by rewrite list_lookup_fmap, Hg. }
    destruct (IH (S i) s1 w2 h2 l2) as
      (sched & s' & Hrun & Hnw & Hout & Hh & Hl & Hmu' & Hc & Hs & Hd & Hw'
       & Hdi & Hex & Hbefore).
    { by apply (reachable_run ms h0 (repeat (TGo i) n) s). }
    { done. }
    { done. }
    { done. }
    { intros j gj Hj Hgj. rewrite Hgs1 in Hgj.
      rewrite list_lookup_insert_ne in Hgj by lia.
      apply (Hfresh j gj); [lia | done]. }
    { by rewrite Hdi1. }
    { by rewrite Hh1. }
    exists (repeat (TGo i) n ++ sched), s'.
    split; [by apply (run_app_Some ms _ _ s s1)|].
    split; [unfold no_wait; rewrite forallb_app; apply andb_true_iff;
            split; [apply no_wait_repeat_go | done]|].
    rewrite Hout, Hout1, Hl, Hl1, <- !app_assoc.
    repeat split; try done; try congruence.
    + intros j gj Hj Hgj. destruct (decide (j = i)) as [->|Hne].
      * rewrite (Hbefore i) in Hgj by lia.
        rewrite Hgs1, list_lookup_insert_eq in Hgj
          by (by apply lookup_lt_Some in Hg).
        by injection Hgj as <-.
      * apply (Hex j gj); [lia | done].
    + intros j Hj. rewrite (Hbefore j) by lia.
      rewrite Hgs1. apply list_lookup_insert_ne. lia.
Qed.

(** X9: a server whose handlers do not block can always be brought to
    its end.  On an input that ends, there is a run, with [Wait] called
    once [Serve] has returned, in which [Serve] returns the error that
    ended the input, every goroutine exits, [Wait] returns and the
    process lives; the output, the handler state and the panics logged
    are those of the messages handled one after the other in the order
    they arrived. *)
Theorem server_comes_to_its_end (n : nat) (w : list byte) (h' : HS)
    (l : list LogEntry) :
  ends_at (InDecoder ms) n ->
  handle_all (stream_encoder (OutEncoder ms)) (MessageHandler ms) 0
    (decoded_ok (InDecoder ms) n) h0 = Some (w, h', l) ->
  exists sched s, run ms sched (initial h0) = Some s /\
    waits_after_return ms sched (initial h0) = true /\
    serve s = PCReturned (snd (InDecoder ms n)) /\
    waiter s = WaitReturned /\ crashed s = None /\
    out s = w /\ hstate s = h' /\
    logged s = decode_errors (InDecoder ms) n ++ l /\
    dispatched s = decoded_ok (InDecoder ms) n /\
    wg s = 0 /\ mu s = false /\
    forall (j : nat) g, goroutines s !! j = Some g -> g_pc g = GExited.
Proof.
  intros Hends Hall.
  destruct (serve_returns ms h0 n (initial h0) Hends (reachable_initial ms h0)
              eq_refl) as (k & s1 & Hrun1 & Hs1 & Hd1 & Hl1).
  assert (Hu : untouched ms h0 s1).
  { apply (untouched_serve_run k (initial h0));
      [apply invariant_initial | by repeat split | done]. }
  destruct Hu as (Ho1 & Hmu1 & Hh1 & Hw1 & Hlog1 & Hf1).
  assert (Hreach1 : reachable ms h0 s1) by by exists (repeat TServe k).
  assert (Hal1 : crashed s1 = None).
  { apply (alive_no_wait ms (repeat TServe k) (initial h0));
      [apply invariant_initial | done | apply no_wait_repeat_serve | done]. }
  destruct (handle_run (decoded_ok (InDecoder ms) n) 0%nat s1 w h' l)
    as (sched & s2 & Hrun2 & Hnw & Hout & Hh & Hl & Hmu & Hc & Hs & Hd & Hw
        & Hdi & Hex & _); try done.
  { intros j g _. apply Hf1. }
  { by rewrite Hh1. }
  assert (Hreach2 : reachable ms h0 s2) by by apply (reachable_run ms h0 sched s1).
  pose proof (inv_wg ms s2 (reachable_invariant ms h0 s2 Hreach2)) as Hwg.
  rewrite in_flight_exited in Hwg
    by (intros j g Hg; apply (Hex j g); [lia | done]).
  rewrite Hs, Hs1 in Hwg. simpl in Hwg.
  assert (H3 : step ms TWait s2 = Some (set_waiter WaitReturned s2)).
  { unfold step, step_wait, wg_Wait. by rewrite Hc, Hw, Hwg. }
  exists (repeat TServe k ++ sched ++ [TWait]), (set_waiter WaitReturned s2).
  split; [|split].
  - apply (run_app_Some ms _ _ _ s1); [done|].
    apply (run_app_Some ms _ _ _ s2); [done|]. simpl. by rewrite H3.
  - rewrite (waits_after_no_wait _ _ _ s1 (no_wait_repeat_serve k) Hrun1).
    rewrite (waits_after_no_wait _ _ _ s2 Hnw Hrun2).
    simpl. unfold call_allowed. by rewrite Hw, Hs, Hs1, H3.
  - rewrite <- Hd1, <- Hdi, <- Hl1, Hlog1. unfold dispatched. simpl.
    rewrite Hs, Hs1, Hout, Ho1, Hl.
    repeat split; try done.
    intros j g Hg. apply (Hex j g); [lia | done].
Qed.

End Shutdown.

(** ** What a server can get stuck on *)

Section Stuck.

Context {HS : Type} (ms : MessageServer HS) (h0 : HS).

Implicit Types (s : State HS) (g : Goroutine HS).

(** The goroutine has not exited. *)
Lemma stuck_goroutine (i : nat) g s :
  reachable ms h0 s -> crashed s = None ->
  (forall t, step ms t s = None) -> goroutines s !! i = Some g ->
  g_pc g = GExited \/ g_pc g = GHandle HBlocked.
Proof.
  intros Hreach Hal Hstuck Hg. pose proof (Hstuck (TGo i)) as Hi.
  unfold step, step_goroutine in Hi. rewrite Hal, Hg in Hi. simpl in Hi.
  destruct (g_pc g) as [[| r | | f k | m k] | se' m k | [|] [|b rest] o k | o k
                       | [r|] [|[|] ds] | ] eqn:Hpc; try discriminate Hi;
    try tauto.
  - destruct (mu s) eqn:Hmu; [|done].
    destruct (locked_by_someone ms h0 s Hreach Hmu) as (j & gj & Hj & Hh).
    pose proof (Hstuck (TGo j)) as Hsj.
    unfold step, step_goroutine in Hsj. rewrite Hal, Hj in Hsj. simpl in Hsj.
    unfold holds_mu in Hh.
    destruct (g_pc gj) as [p | se'' m' k' | [|] [|b rest] o k' | o k' | p ds | ];
      try discriminate Hh; try discriminate Hsj.
    by rewrite Hmu in Hsj.
  - by destruct (mu s).
  - by destruct (wg s - 1 <? 0).
  - by destruct (wg s - 1 <? 0).
Qed.

(** X14: the server never deadlocks by itself.  A live process in which
    no thread can move is one where [Serve] has returned, every
    goroutine has exited or sits in a handler that blocks for good, and
    the caller of [Wait], if there is one, has returned or waits for
    such a handler: nobody is ever stuck on the lock of the
    [SyncEncoder] or on the [WaitGroup] alone. *)
Theorem stuck_only_on_blocked_handler s :
  reachable ms h0 s -> crashed s = None ->
  (forall t, step ms t s = None) ->
  (exists r, serve s = PCReturned r) /\
  (forall (i : nat) g, goroutines s !! i = Some g ->
     g_pc g = GExited \/ g_pc g = GHandle HBlocked) /\
  (waiter s = WaitReturned \/
   (waiter s = WaitBlocked /\
    exists (i : nat) g,
      goroutines s !! i = Some g /\ g_pc g = GHandle HBlocked)).
Proof.
  intros Hreach Hal Hstuck.
  assert (Hgs : forall (i : nat) g, goroutines s !! i = Some g ->
                  g_pc g = GExited \/ g_pc g = GHandle HBlocked)
    by (intros i g; by apply stuck_goroutine).
  assert (Hserve : exists r, serve s = PCReturned r).
  { pose proof (Hstuck TServe) as Hs. unfold step, step_serve in Hs.
    rewrite Hal in Hs. destruct (serve s) as [|mw msg|mw msg|r]; try done;
      [|by exists r].
    destruct (InDecoder ms (decoded s)) as [msg err].
    by destruct (stream_ended err); [|destruct err]. }
  split; [done|]. split; [done|].
  pose proof (Hstuck TWait) as Hw. unfold step, step_wait, wg_Wait in Hw.
  rewrite Hal in Hw.
  destruct (waiter s) eqn:Hwaiter; try (by destruct (wg s =? 0)); [|by left].
  right. split; [done|].
  pose proof (blocked_positive ms h0 s Hreach Hal Hwaiter) as Hpos.
  destruct (some_or_none
              (fun g => match g_pc g with GExited => false | _ => true end)
              (goroutines s)) as [(i & g & Hg & Hne)|Hall].
  - exists i, g. split; [done|].
    destruct (Hgs i g Hg) as [Hex|Hb]; [by rewrite Hex in Hne | done].
  - exfalso.
    pose proof (inv_wg ms s (reachable_invariant ms h0 s Hreach)) as Hwg.
    destruct Hserve as [r Hr]. rewrite Hr in Hwg. simpl in Hwg.
    rewrite in_flight_exited in Hwg; [lia|].
    intros j gj Hj. specialize (Hall j gj Hj). simpl in Hall.
    by destruct (g_pc gj).
Qed.

End Stuck.

(** ** Runs in two parts *)

Section AfterRuns.

Context {HS : Type} (ms : MessageServer HS) (h0 : HS).

Lemma after_app (a b : list Tid) :
  runs ms (a ++ b) (initial h0) = true ->
  run ms b (after ms h0 a) = Some (after ms h0 (a ++ b)).
Proof.
  unfold runs, after. rewrite run_app.
  destruct (run ms a (initial h0)) as [s1|]; simpl; [|done].
  by destruct (run ms b s1).
Qed.

End AfterRuns.

(** * More on the servers of [Demo] *)

Section MoreOnDemo.

Import Demo.

(** [Serve] on an input with a malformed message, the third result in
    hand. *)
Lemma every_result_accounted_for_witness :
  reachable malformed_server 0%nat
    (after malformed_server 0%nat (repeat TServe 5)) /\
  decoded (after malformed_server 0%nat (repeat TServe 5)) = (1 + 1 + 1)%nat.
Proof.
  assert (Hreach : reachable malformed_server 0%nat
                     (after malformed_server 0%nat (repeat TServe 5)))
    by (apply after_reachable; vm_compute; reflexivity).
  split; [exact Hreach|].
  rewrite (every_result_accounted_for malformed_server 0%nat _ Hreach).
  vm_compute. reflexivity.
Defined.

Lemma truncated_ends : ends_at truncated 1.
Proof. split; [|done]. intros [|k] Hk; [done|lia]. Qed.

(** [Serve] on an input cut in its second message. *)
Lemma serve_on_ending_input_witness :
  ends_at (InDecoder truncated_server) 1 /\
  reachable truncated_server 0%nat (initial 0%nat) /\
  exists k s',
    run truncated_server (repeat TServe k) (initial 0%nat) = Some s' /\
    serve s' = PCReturned (Some ErrUnexpectedEOF) /\
    dispatched s' = [in_test 1] /\ decode_log (logged s') = [].
Proof.
  split; [exact truncated_ends|].
  split; [apply reachable_initial|].
  destruct (proj2 (serve_on_ending_input truncated_server 0%nat 1
                     (initial 0%nat) truncated_ends
                     (reachable_initial truncated_server 0%nat)) eq_refl)
    as (k & s' & Hrun & Hs & Hd & Hl).
  exists k, s'. split; [exact Hrun|]. split; [exact Hs|].
  split; [exact Hd | exact Hl].
Defined.

(** The first handler runs once [Serve] has returned. *)
Lemma returned_for_good_witness :
  serve (after std_server 0%nat serve_two) = PCReturned (Some EOF) /\
  run std_server (reply 0) (after std_server 0%nat serve_two) =
    Some (after std_server 0%nat (serve_two ++ reply 0)) /\
  decoded (after std_server 0%nat (serve_two ++ reply 0)) =
    decoded (after std_server 0%nat serve_two) /\
  step std_server TServe (after std_server 0%nat (serve_two ++ reply 0)) = None.
Proof.
  assert (Hs : serve (after std_server 0%nat serve_two) =
               PCReturned (Some EOF)) by (vm_compute; reflexivity).
  assert (Hrun : run std_server (reply 0) (after std_server 0%nat serve_two) =
                 Some (after std_server 0%nat (serve_two ++ reply 0)))
    by (apply after_app; vm_compute; reflexivity).
  split; [exact Hs|]. split; [exact Hrun|].
  destruct (returned_for_good std_server (reply 0) _ _ _ Hs Hrun)
    as (_ & Hd & _ & _ & Hstep).
  split; [exact Hd | exact Hstep].
Defined.

(** No input at all. *)
Lemma serve_on_empty_input_witness :
  stream_ended (snd (InDecoder empty_server 0%nat)) = true /\
  exists s, run empty_server [TServe; TWait] (initial 0%nat) = Some s /\
    serve s = PCReturned (Some EOF) /\ waiter s = WaitReturned /\
    goroutines s = [] /\ out s = [].
Proof.
  split; [reflexivity|].
  destruct (serve_on_empty_input empty_server 0%nat eq_refl)
    as (s & Hrun & Hs & Hw & Hgs & Ho & _).
  exists s. split; [exact Hrun|]. split; [exact Hs|]. split; [exact Hw|].
  split; [exact Hgs | exact Ho].
Defined.

(** The first handler of the test back from its write. *)
Lemma handler_return_is_silent_witness :
  reachable std_server 0%nat
    (after std_server 0%nat (serve_two ++ repeat (TGo 0) 8)) /\
  crashed (after std_server 0%nat (serve_two ++ repeat (TGo 0) 8)) = None /\
  exists s',
    run std_server (repeat (TGo 0) 4)
      (after std_server 0%nat (serve_two ++ repeat (TGo 0) 8)) = Some s' /\
    logged s' = [] /\ wg s' = 1 /\ out s' = [x7b; x7d; x0a].
Proof.
  assert (Hreach : reachable std_server 0%nat
            (after std_server 0%nat (serve_two ++ repeat (TGo 0) 8)))
    by (apply after_reachable; vm_compute; reflexivity).
  split; [exact Hreach|]. split; [vm_compute; reflexivity|].
  destruct (handler_return_is_silent std_server 0%nat 0%nat
              {| g_mw := writer_of std_server; g_msg := in_test 1;
                 g_pc := GHandle HReturn |} _ Hreach)
    as (s' & Hrun & Hl & Hwg & _ & _ & _ & _ & Ho & _).
  - vm_compute. reflexivity.
  - vm_compute. reflexivity.
  - reflexivity.
  - exists s'. split; [exact Hrun|].
    split; [rewrite Hl; vm_compute; reflexivity|].
    split; [rewrite Hwg; vm_compute; reflexivity|].
    rewrite Ho. vm_compute. reflexivity.
Defined.

(** The process dead of [Wait] called while [Serve] runs. *)
Lemma dies_only_of_wait_during_serve_witness :
  reachable std_server 0%nat (after std_server 0%nat wait_during_serve) /\
  crashed (after std_server 0%nat wait_during_serve) =
    Some FatalWaitGroupReused /\
  waiter (after std_server 0%nat wait_during_serve) = WaitWoken /\
  wg (after std_server 0%nat wait_during_serve) <> 0.
Proof.
  assert (Hreach : reachable std_server 0%nat
                     (after std_server 0%nat wait_during_serve))
    by (apply after_reachable; vm_compute; reflexivity).
  assert (Hc : crashed (after std_server 0%nat wait_during_serve) =
               Some FatalWaitGroupReused) by (vm_compute; reflexivity).
  split; [exact Hreach|]. split; [exact Hc|].
  exact (proj2 (proj2 (dies_only_of_wait_during_serve std_server 0%nat _ Hreach)
                  _ Hc)).
Defined.

(** The first goroutine in the middle of its write. *)
Lemma lock_never_leaked_witness :
  reachable std_server 0%nat
    (after std_server 0%nat (serve_two ++ repeat (TGo 0) 4)) /\
  mu (after std_server 0%nat (serve_two ++ repeat (TGo 0) 4)) = true /\
  exists (i : nat) g,
    goroutines (after std_server 0%nat (serve_two ++ repeat (TGo 0) 4)) !! i =
      Some g /\ holds_mu g = true.
Proof.
  assert (Hreach : reachable std_server 0%nat
            (after std_server 0%nat (serve_two ++ repeat (TGo 0) 4)))
    by (apply after_reachable; vm_compute; reflexivity).
  assert (Hmu : mu (after std_server 0%nat (serve_two ++ repeat (TGo 0) 4)) =
                true) by (vm_compute; reflexivity).
  split; [exact Hreach|]. split; [exact Hmu|].
  exact (proj1 (proj1 (lock_never_leaked std_server 0%nat _ Hreach)) Hmu).
Defined.

(** The second goroutine takes the lock first, the first one waits for
    it and writes next. *)
Lemma writes_in_lock_order_witness :
  OutEncoder std_server = EncSync {| se_Encoder := brace_encoder |} /\
  run std_server (serve_two ++ repeat (TGo 1) 3 ++ repeat (TGo 0) 2 ++
                  repeat (TGo 1) 8 ++ repeat (TGo 0) 2) (initial 0%nat) =
    Some (after std_server 0%nat
            (serve_two ++ repeat (TGo 1) 3 ++ repeat (TGo 0) 2 ++
             repeat (TGo 1) 8 ++ repeat (TGo 0) 2)) /\
  lock_order std_server
    (serve_two ++ repeat (TGo 1) 3 ++ repeat (TGo 0) 2 ++
     repeat (TGo 1) 8 ++ repeat (TGo 0) 2) (initial 0%nat) =
    [ {[ "is_reply"%string := VNum 0 ]}; {[ "is_reply"%string := VNum 1 ]} ] /\
  out (after std_server 0%nat
         (serve_two ++ repeat (TGo 1) 3 ++ repeat (TGo 0) 2 ++
          repeat (TGo 1) 8 ++ repeat (TGo 0) 2)) ++
  pending (after std_server 0%nat
             (serve_two ++ repeat (TGo 1) 3 ++ repeat (TGo 0) 2 ++
              repeat (TGo 1) 8 ++ repeat (TGo 0) 2)) =
  serialized brace_encoder
    (lock_order std_server
       (serve_two ++ repeat (TGo 1) 3 ++ repeat (TGo 0) 2 ++
        repeat (TGo 1) 8 ++ repeat (TGo 0) 2) (initial 0%nat)).
Proof.
  set (sched := serve_two ++ repeat (TGo 1) 3 ++ repeat (TGo 0) 2 ++
                repeat (TGo 1) 8 ++ repeat (TGo 0) 2).
  assert (Hrun : run std_server sched (initial 0%nat) =
                 Some (after std_server 0%nat sched))
    by (apply after_run; vm_compute; reflexivity).
  split; [reflexivity|]. split; [exact Hrun|].
  split; [vm_compute; reflexivity|].
  exact (proj1 (writes_in_lock_order std_server 0%nat
                  {| se_Encoder := brace_encoder |} eq_refl sched _ Hrun)).
Defined.

(** The first handler of the test, from its start. *)
Lemma handler_runs_to_its_end_witness :
  reachable std_server 0%nat (after std_server 0%nat serve_two) /\
  alone brace_encoder (replying (in_test 1)) 0%nat =
    Some ([x7b; x7d; x0a], 1%nat, None) /\
  exists n s',
    run std_server (repeat (TGo 0) n) (after std_server 0%nat serve_two) =
      Some s' /\
    out s' = [x7b; x7d; x0a] /\ hstate s' = 1%nat /\ wg s' = 1 /\
    mu s' = false.
Proof.
  assert (Hreach : reachable std_server 0%nat
                     (after std_server 0%nat serve_two))
    by (apply after_reachable; vm_compute; reflexivity).
  split; [exact Hreach|]. split; [vm_compute; reflexivity|].
  destruct (handler_runs_to_its_end std_server 0%nat 0%nat
              {| g_mw := writer_of std_server; g_msg := in_test 1;
                 g_pc := GHandle (replying (in_test 1)) |}
              (replying (in_test 1)) _ [x7b; x7d; x0a] 1%nat None Hreach)
    as (n & s' & Hrun & Ho & Hh & _ & _ & Hwg & Hmu & _).
  - vm_compute. reflexivity.
  - vm_compute. reflexivity.
  - reflexivity.
  - vm_compute. reflexivity.
  - vm_compute. reflexivity.
  - exists n, s'. split; [exact Hrun|].
    split; [rewrite Ho; vm_compute; reflexivity|]. split; [exact Hh|].
    split; [rewrite Hwg; vm_compute; reflexivity | exact Hmu].
Defined.

Lemma one_malformed_ends_at : ends_at one_malformed 3.
Proof. split; [|done]. intros [|[|[|k]]] Hk; try done. lia. Qed.

(** The server of the test on an input with a malformed message. *)
Lemma server_comes_to_its_end_witness :
  ends_at (InDecoder malformed_server) 3 /\
  handle_all brace_encoder replying 0 [in_test 1; in_test 2] 0%nat =
    Some ([x7b; x7d; x0a; x7b; x7d; x0a], 2%nat, []) /\
  exists sched s,
    run malformed_server sched (initial 0%nat) = Some s /\
    waits_after_return malformed_server sched (initial 0%nat) = true /\
    serve s = PCReturned (Some EOF) /\ waiter s = WaitReturned /\
    out s = [x7b; x7d; x0a; x7b; x7d; x0a] /\ hstate s = 2%nat /\
    logged s = [LogDecodeError (ErrOther "invalid character")].
Proof.
  split; [exact one_malformed_ends_at|]. split; [vm_compute; reflexivity|].
  destruct (server_comes_to_its_end malformed_server 0%nat 3
              [x7b; x7d; x0a; x7b; x7d; x0a] 2%nat [] one_malformed_ends_at)
    as (sched & s & Hrun & Hok & Hs & Hw & _ & Ho & Hh & Hl & _).
  - vm_compute. reflexivity.
  - exists sched, s. split; [exact Hrun|]. split; [exact Hok|].
    split; [exact Hs|]. split; [exact Hw|]. split; [exact Ho|].
    split; [exact Hh|]. rewrite Hl. vm_compute. reflexivity.
Defined.

(** [Wait] called when [Serve] has returned, and back. *)
Lemma wait_returned_writes_complete_witness :
  run std_server wait_after_serve (initial 0%nat) =
    Some (after std_server 0%nat wait_after_serve) /\
  waits_after_return std_server wait_after_serve (initial 0%nat) = true /\
  waiter (after std_server 0%nat wait_after_serve) = WaitReturned /\
  pending (after std_server 0%nat wait_after_serve) = [] /\
  mu (after std_server 0%nat wait_after_serve) = false /\
  out (after std_server 0%nat wait_after_serve) =
    serialized brace_encoder
      (lock_order std_server wait_after_serve (initial 0%nat)).
Proof.
  assert (Hrun : run std_server wait_after_serve (initial 0%nat) =
                 Some (after std_server 0%nat wait_after_serve))
    by (apply after_run; vm_compute; reflexivity).
  assert (Hok : waits_after_return std_server wait_after_serve
                  (initial 0%nat) = true) by (vm_compute; reflexivity).
  assert (Hw : waiter (after std_server 0%nat wait_after_serve) =
               WaitReturned) by (vm_compute; reflexivity).
  split; [exact Hrun|]. split; [exact Hok|]. split; [exact Hw|].
  destruct (wait_returned_writes_complete std_server 0%nat wait_after_serve
              _ Hrun Hok Hw) as (Hp & Hmu & _ & Hout).
  split; [exact Hp|]. split; [exact Hmu|].
  exact (Hout {| se_Encoder := brace_encoder |} eq_refl).
Defined.

(** The first message goes to a handler that never returns; [Serve]
    goes on to the end of the input and [Wait] is called. *)
Lemma blocked_handler_blocks_wait_witness :
  reachable blocking_server 0%nat
    (after blocking_server 0%nat (repeat TServe 3)) /\
  run blocking_server (repeat TServe 4 ++ [TWait])
    (after blocking_server 0%nat (repeat TServe 3)) =
    Some (after blocking_server 0%nat
            (repeat TServe 3 ++ repeat TServe 4 ++ [TWait])) /\
  1 <= wg (after blocking_server 0%nat
             (repeat TServe 3 ++ repeat TServe 4 ++ [TWait])) /\
  (waiter (after blocking_server 0%nat
             (repeat TServe 3 ++ repeat TServe 4 ++ [TWait])) = WaitNotCalled \/
   waiter (after blocking_server 0%nat
             (repeat TServe 3 ++ repeat TServe 4 ++ [TWait])) = WaitBlocked).
Proof.
  assert (Hreach : reachable blocking_server 0%nat
                     (after blocking_server 0%nat (repeat TServe 3)))
    by (apply after_reachable; vm_compute; reflexivity).
  assert (Hrun : run blocking_server (repeat TServe 4 ++ [TWait])
                   (after blocking_server 0%nat (repeat TServe 3)) =
                 Some (after blocking_server 0%nat
                         (repeat TServe 3 ++ repeat TServe 4 ++ [TWait])))
    by (apply after_app; vm_compute; reflexivity).
  split; [exact Hreach|]. split; [exact Hrun|].
  destruct (blocked_handler_blocks_wait blocking_server 0%nat 0%nat
              {| g_mw := writer_of blocking_server; g_msg := in_test 1;
                 g_pc := GHandle HBlocked |}
              (repeat TServe 4 ++ [TWait])
              (after blocking_server 0%nat (repeat TServe 3))
              (after blocking_server 0%nat
                 (repeat TServe 3 ++ repeat TServe 4 ++ [TWait])) Hreach)
    as (_ & Hwg & Hw).
  - vm_compute. reflexivity.
  - reflexivity.
  - exact Hrun.
  - split; [exact Hwg|]. apply Hw. left. vm_compute. reflexivity.
Defined.

(** Both handlers blocked for good, [Serve] returned, the caller of
    [Wait] asleep: nothing moves. *)
Lemma stuck_only_on_blocked_handler_witness :
  reachable blocking_server 0%nat
    (after blocking_server 0%nat (serve_two ++ [TWait])) /\
  crashed (after blocking_server 0%nat (serve_two ++ [TWait])) = None /\
  (forall t,
     step blocking_server t
       (after blocking_server 0%nat (serve_two ++ [TWait])) = None) /\
  waiter (after blocking_server 0%nat (serve_two ++ [TWait])) <>
    WaitReturned /\
  exists (i : nat) g,
    goroutines (after blocking_server 0%nat (serve_two ++ [TWait])) !! i =
      Some g /\ g_pc g = GHandle HBlocked.
Proof.
  set (s := after blocking_server 0%nat (serve_two ++ [TWait])).
  assert (Hreach : reachable blocking_server 0%nat s)
    by (apply after_reachable; vm_compute; reflexivity).
  assert (Hal : crashed s = None) by (vm_compute; reflexivity).
  assert (Hlen : length (goroutines s) = 2%nat) by (vm_compute; reflexivity).
  assert (Hstuck : forall t, step blocking_server t s = None).
  { intros [|i|].
    - vm_compute. reflexivity.
    - destruct i as [|[|i]]; [vm_compute; reflexivity ..|].
      unfold step, step_goroutine. rewrite Hal.
      rewrite (lookup_ge_None_2 (goroutines s) (S (S i))); [reflexivity|].
      rewrite Hlen. lia.
    - vm_compute. reflexivity. }
  assert (Hw : waiter s = WaitBlocked) by (vm_compute; reflexivity).
  split; [exact Hreach|]. split; [exact Hal|]. split; [exact Hstuck|].
  split; [rewrite Hw; discriminate|].
  destruct (stuck_only_on_blocked_handler blocking_server 0%nat s
              Hreach Hal Hstuck) as (_ & _ & [Hr | [_ Hb]]).
  - rewrite Hw in Hr. discriminate Hr.
  - exact Hb.
Defined.

End MoreOnDemo.
